(** * Banquet: binary extension field arithmetic and polynomial engine

    A shallow embedding of [field.cpp] and [banquet_instances.cpp].

    Field elements ([field::GF2E]) carry one [uint64_t] holding the
    coefficient bit mask of a polynomial over GF(2); they are modelled by
    the integer [Z] of that bit mask.  An [__m128i] register is modelled by
    the integer of its 128 bits.  [_mm_extract_epi64] returns a lane as
    the signed [long long] of the intrinsic, and the conversions to
    [uint64_t] are written out where the source has them, so that a right
    shift is arithmetic or logical as it is in the source.  The static
    members [GF2E::reduce] and [GF2E::byte_size] and the file-local
    [lifting_lut] form the process-wide field configuration, which is
    passed explicitly as a [field_state].

    The first part gives the definitions: the embedding of the source,
    followed by the reference definitions the results are stated against
    (long division of polynomials over GF(2), the reference field
    [field_of] of each [lambda], Horner evaluation by recursion, products
    of linear factors, Lagrange basis polynomials).
    The second part proves, in this order:
    - [reduce_GF2_32] computes the remainder of the division by its
      modulus; [reduce_GF2_40] and [reduce_GF2_48] do so on the
      accumulators whose bit 63 is clear, and the field multiplication
      under [lambda] 5 and 6 differs from the product modulo the modulus
      on others;
    - what [init_extension_field] and [banquet_instance_get] accept and
      reject;
    - the ring laws of the multiplication and the existence of an inverse
      for every non-zero element, in the reference field of each
      [lambda], which under [lambda = 4] is the configuration of the
      program;
    - lazy reduction in [dot_product], and the structure of the lifting
      table;
    - the size checks of the vector operations;
    - [build_from_roots] and interpolation with the precomputed Lagrange
      polynomials in the reference field, and inputs on which the program
      departs from them under [lambda] 5 and 6.

    The last part covers the rest of the two files.  It starts with what
    the multiplication of the program keeps under every [lambda]
    (commutativity, squares, products with [x]); then come the field laws
    of the element operators, serialisation, the evaluation points and
    the order of [x], linearity of the evaluation and of the dot product,
    the product of polynomials, further properties of the root polynomial
    and of interpolation, the lifting table, and the configuration of the
    field from a parameter set.  Results that need the multiplication to
    be associative or to distribute over the sum are stated for the
    configuration of [lambda = 4]. *)

From Stdlib Require Import ZArith Lia Bool String.
From stdpp Require Import base list.

Local Open Scope Z_scope.

(** ** Exceptions

    Every failure raised by the two files is a [std::runtime_error]; the
    message tells them apart.  [ntl_error] stands for the arithmetic error
    of the NTL library when asked to invert a non-invertible element. *)

Inductive exn : Type :=
  | runtime_error (what : string)
  | ntl_error.

Inductive result (A : Type) : Type :=
  | Ok (a : A)
  | Throw (e : exn).

Arguments Ok {A} a.
Arguments Throw {A} e.

#[global] Instance result_ret : MRet result := fun A a => Ok a.

#[global] Instance result_bind : MBind result := fun A B k r =>
  match r with
  | Ok a => k a
  | Throw e => Throw e
  end.

(** ** Parameter sets ([banquet_instances.cpp]) *)

Module Instances.

Record banquet_aes_t : Type := {
  key_size : Z;
  block_size : Z;
  num_blocks : Z;
  num_sboxes : Z
}.

(** Modelled from the spec: [banquet_instances.h] is not among the sources.
    The parameter-set identifier is a C enumeration used as an array index;
    its enumerators are numbered in the order in which the table [instances]
    lists them, index 0 being the reserved invalid identifier and
    [PARAMETER_SET_MAX_INDEX] the number of entries of the table. *)
Definition banquet_params_t : Type := Z.

Definition PARAMETER_SET_INVALID : banquet_params_t := 0.
Definition Banquet_L1_Param1 : banquet_params_t := 1.
Definition Banquet_L1_Param2 : banquet_params_t := 2.
Definition Banquet_L1_Param3 : banquet_params_t := 3.
Definition Banquet_L1_Param4 : banquet_params_t := 4.
Definition Banquet_L1_Param5 : banquet_params_t := 5.
Definition Banquet_L1_Param6 : banquet_params_t := 6.
Definition Banquet_L1_Param7 : banquet_params_t := 7.
Definition Banquet_L1_Param8 : banquet_params_t := 8.
Definition Banquet_L1_Param9 : banquet_params_t := 9.
Definition Banquet_L1_Param10 : banquet_params_t := 10.
Definition Banquet_L3_Param1 : banquet_params_t := 11.
Definition Banquet_L5_Param1 : banquet_params_t := 12.
Definition PARAMETER_SET_MAX_INDEX : banquet_params_t := 13.

Record banquet_instance_t : Type := {
  aes_params : banquet_aes_t;
  digest_size : Z;
  seed_size : Z;
  num_rounds : Z;
  num_MPC_parties : Z;
  m1 : Z;
  m2 : Z;
  lambda : Z;
  params : banquet_params_t
}.

Definition AES128_PARAMS : banquet_aes_t :=
  {| key_size := 16; block_size := 16; num_blocks := 1; num_sboxes := 200 |}.
Definition AES192_PARAMS : banquet_aes_t :=
  {| key_size := 24; block_size := 16; num_blocks := 2; num_sboxes := 416 |}.
Definition AES256_PARAMS : banquet_aes_t :=
  {| key_size := 32; block_size := 16; num_blocks := 2; num_sboxes := 500 |}.

Definition mk_instance (a : banquet_aes_t) (d s t n k1 k2 l : Z)
    (p : banquet_params_t) : banquet_instance_t :=
  {| aes_params := a; digest_size := d; seed_size := s; num_rounds := t;
     num_MPC_parties := n; m1 := k1; m2 := k2; lambda := l; params := p |}.

Definition invalid_instance : banquet_instance_t :=
  mk_instance {| key_size := 0; block_size := 0; num_blocks := 0;
                 num_sboxes := 0 |} 0 0 0 0 0 0 0 PARAMETER_SET_INVALID.

Definition instances : list banquet_instance_t :=
  [ invalid_instance;
    mk_instance AES128_PARAMS 32 16 31 64 10 20 4 Banquet_L1_Param1;
    mk_instance AES128_PARAMS 32 16 31 64 20 10 4 Banquet_L1_Param2;
    mk_instance AES128_PARAMS 32 16 29 64 10 20 5 Banquet_L1_Param3;
    mk_instance AES128_PARAMS 32 16 27 64 10 20 6 Banquet_L1_Param4;
    mk_instance AES128_PARAMS 32 16 28 128 10 20 4 Banquet_L1_Param5;
    mk_instance AES128_PARAMS 32 16 26 128 10 20 5 Banquet_L1_Param6;
    mk_instance AES128_PARAMS 32 16 24 128 10 20 6 Banquet_L1_Param7;
    mk_instance AES128_PARAMS 32 16 25 256 10 20 4 Banquet_L1_Param8;
    mk_instance AES128_PARAMS 32 16 23 256 10 20 5 Banquet_L1_Param9;
    mk_instance AES128_PARAMS 32 16 21 256 10 20 6 Banquet_L1_Param10;
    mk_instance AES192_PARAMS 48 24 38 64 16 26 4 Banquet_L3_Param1;
    mk_instance AES256_PARAMS 64 32 50 64 20 25 4 Banquet_L5_Param1 ].

Definition banquet_instance_get (param : banquet_params_t)
    : result banquet_instance_t :=
  if (param <=? PARAMETER_SET_INVALID) || (param >=? PARAMETER_SET_MAX_INDEX)
  then Throw (runtime_error "invalid parameter set")
  else Ok (nth (Z.to_nat param) instances invalid_instance).

End Instances.

Import Instances.

(** ** SIMD registers and the carry-less multiplication instruction *)

(** The 64 bits of lane [lane] of a register, as an unsigned value. *)
Definition lane64 (v : Z) (lane : Z) : Z :=
  Z.land (Z.shiftr v (64 * lane)) (Z.ones 64).

(** The conversions between the [long long] and the [uint64_t] of the same
    64 bits (two's complement). *)
Definition int64_of_bits (u : Z) : Z := if 2 ^ 63 <=? u then u - 2 ^ 64 else u.
Definition uint64_of (z : Z) : Z := z mod 2 ^ 64.

(** [_mm_extract_epi64(v, lane)]: the 64-bit lane [lane] of a register.
    The intrinsic returns a signed [long long]: a lane whose bit 63 is set
    is a negative number. *)
Definition _mm_extract_epi64 (v : Z) (lane : Z) : Z :=
  int64_of_bits (lane64 v lane).

Definition _mm_setzero_si128 : Z := 0.

Definition _mm_xor_si128 (a b : Z) : Z := Z.lxor a b.

(** The product of two polynomials over GF(2), the first of which has its
    coefficients among the lowest [n]: the second operand is added (XOR) at
    every position where the first has a coefficient. *)
Fixpoint clmul_bits (n : nat) (a b : Z) : Z :=
  match n with
  | O => 0
  | S k =>
      Z.lxor (clmul_bits k a b)
        (if Z.testbit a (Z.of_nat k) then Z.shiftl b (Z.of_nat k) else 0)
  end.

(** [clmul(a, b)] is [_mm_clmulepi64_si128] on the low lanes of two
    registers holding the 64-bit values [a] and [b]: their 128-bit
    carry-less product. *)
Definition clmul (a b : Z) : Z := clmul_bits 64 a b.

(** ** The three reduction routines *)

Definition P_GF2_32 : Z :=
  Z.lor (Z.lor (Z.lor (Z.lor (Z.shiftl 1 32) (Z.shiftl 1 7)) (Z.shiftl 1 3))
    (Z.shiftl 1 2)) (Z.shiftl 1 0).

Definition P_GF2_40 : Z :=
  Z.lor (Z.lor (Z.lor (Z.lor (Z.shiftl 1 40) (Z.shiftl 1 5)) (Z.shiftl 1 4))
    (Z.shiftl 1 3)) (Z.shiftl 1 0).

Definition P_GF2_48 : Z :=
  Z.lor (Z.lor (Z.lor (Z.lor (Z.shiftl 1 48) (Z.shiftl 1 5)) (Z.shiftl 1 3))
    (Z.shiftl 1 2)) (Z.shiftl 1 0).

(** Left shift of a [uint64_t]. *)
Definition shl64 (x k : Z) : Z := Z.land (Z.shiftl x k) (Z.ones 64).

(** In [reduce_GF2_32] every extracted lane is stored in a [uint64_t]
    before it is used, so every shift is a logical one. *)
Definition reduce_GF2_32 (v : Z) : Z :=
  let P := P_GF2_32 in
  let mu := P in
  let R := uint64_of (_mm_extract_epi64 v 0) in
  let T1 := uint64_of (_mm_extract_epi64 (clmul (Z.shiftr R 32) mu) 0) in
  let T2 := uint64_of (_mm_extract_epi64 (clmul (Z.shiftr T1 32) P) 0) in
  Z.land 0xFFFFFFFF (Z.lxor R T2).

(** In [reduce_GF2_40] and [reduce_GF2_48] the low lane of [T1] is shifted
    as it comes out of [_mm_extract_epi64], as a [long long]: the shift is
    an arithmetic one ([Z.shiftr] on a negative number), and the
    conversion to [uint64_t] that follows keeps the copies of the sign
    bit.  [R] is a [uint64_t], its shift is logical; a lane combined with
    the unsigned [upper_mask] is converted to unsigned first. *)
Definition reduce_GF2_40 (v : Z) : Z :=
  let P := P_GF2_40 in
  let mu := P in
  let upper_mask := 0xFFFF in
  let R := uint64_of (_mm_extract_epi64 v 0) in
  let R_red :=
    Z.lor (shl64 (Z.land (uint64_of (_mm_extract_epi64 v 1)) upper_mask) 24)
          (Z.shiftr R 40) in
  let T1 := clmul R_red mu in
  let T1_red :=
    Z.lor (shl64 (Z.land (uint64_of (_mm_extract_epi64 T1 1)) upper_mask) 24)
          (uint64_of (Z.shiftr (_mm_extract_epi64 T1 0) 40)) in
  let T2 := uint64_of (_mm_extract_epi64 (clmul T1_red P) 0) in
  Z.land 0xFFFFFFFFFF (Z.lxor R T2).

Definition reduce_GF2_48 (v : Z) : Z :=
  let P := P_GF2_48 in
  let mu := P in
  let upper_mask := 0xFFFFFFFF in
  let R := uint64_of (_mm_extract_epi64 v 0) in
  let R_red :=
    Z.lor (shl64 (Z.land (uint64_of (_mm_extract_epi64 v 1)) upper_mask) 16)
          (Z.shiftr R 48) in
  let T1 := clmul R_red mu in
  let T1_red :=
    Z.lor (shl64 (Z.land (uint64_of (_mm_extract_epi64 T1 1)) upper_mask) 16)
          (uint64_of (Z.shiftr (_mm_extract_epi64 T1 0) 48)) in
  let T2 := uint64_of (_mm_extract_epi64 (clmul T1_red P) 0) in
  Z.land 0xFFFFFFFFFFFFFF (Z.lxor R T2).

(** ** The field configuration *)

Record field_state : Type := {
  reduce : Z → Z;
  byte_size : Z;
  lifting_lut : list Z
}.

(** The static initialisers: [reduce = reduce_GF2_32], [byte_size = 4] and
    a zero-initialised table. *)
Definition initial_state : field_state :=
  {| reduce := reduce_GF2_32; byte_size := 4; lifting_lut := replicate 256 0 |}.

(** ** Field elements *)

(** [operator+] and [operator-] *)
Definition gf_add (a b : Z) : Z := Z.lxor a b.
Definition gf_sub (a b : Z) : Z := Z.lxor a b.

(** [operator*] and [operator*=] under the active reduction routine *)
Definition gf_mul (st : field_state) (a b : Z) : Z := reduce st (clmul a b).

(** Squaring, [a * a] *)
Definition gf_sqr (st : field_state) (a : Z) : Z := gf_mul st a a.

(** [GF2E::inverse] *)
Definition inverse (a : Z) : Z := a.

(** Modelled from the spec: [field.h] is not among the sources.  The default
    constructor [GF2E()] yields the zero element, and [set_coeff(idx)] sets
    the coefficient of [x^idx], that is bit [idx] of the bit mask. *)
Definition GF2E_default : Z := 0.
Definition set_coeff (a : Z) (idx : Z) : Z := Z.lor a (shl64 1 idx).

(** ** The lifting table *)

(** The inner loop of [init_lifting_lut]: the first [start] entries are
    copied to the next [start] entries with [pow] added. *)
Definition lut_copy_half (start : nat) (pow : Z) (lut : list Z) : list Z :=
  foldl (fun lut idx => <[(start + idx)%nat := gf_add (lut !!! idx) pow]> lut)
    lut (seq 0 start).

Definition init_lifting_lut (st : field_state) (generator : Z) : field_state :=
  let lut := <[0%nat := 0]> (lifting_lut st) in
  let lut := <[1%nat := 1]> lut in
  let '(lut, _) :=
    foldl (fun '(lut, pow) bit =>
             let start := (2 ^ bit)%nat in
             (lut_copy_half start pow lut, gf_mul st pow generator))
          (lut, generator) (seq 1 7) in
  {| reduce := reduce st; byte_size := byte_size st; lifting_lut := lut |}.

Definition gen_GF2_32 : Z :=
  foldl set_coeff GF2E_default [30; 23; 21; 18; 14; 13; 11; 9; 7; 6; 5; 4; 3; 1].

Definition gen_GF2_40 : Z :=
  foldl set_coeff GF2E_default [31; 30; 27; 25; 22; 21; 20; 18; 15; 9; 6; 4; 2].

Definition gen_GF2_48 : Z :=
  foldl set_coeff GF2E_default
    [45; 43; 40; 37; 36; 35; 34; 33; 31; 30; 29; 28; 24; 21; 20; 19; 16; 14;
     13; 11; 10; 7; 3; 2].

Definition init_extension_field (instance : banquet_instance_t)
    (st : field_state) : result field_state :=
  match lambda instance with
  | 4 =>
      let st := {| reduce := reduce_GF2_32; byte_size := 4;
                   lifting_lut := lifting_lut st |} in
      Ok (init_lifting_lut st gen_GF2_32)
  | 5 =>
      let st := {| reduce := reduce_GF2_40; byte_size := 5;
                   lifting_lut := lifting_lut st |} in
      Ok (init_lifting_lut st gen_GF2_40)
  | 6 =>
      let st := {| reduce := reduce_GF2_48; byte_size := 6;
                   lifting_lut := lifting_lut st |} in
      Ok (init_lifting_lut st gen_GF2_48)
  | _ =>
      Throw (runtime_error "modulus for that specific lambda not implemented.")
  end.

Definition lift_uint8_t (st : field_state) (value : Z) : Z :=
  lifting_lut st !!! Z.to_nat value.

(** ** Vectors of field elements *)

(** [operator+] on vectors *)
Definition vec_add (lhs rhs : list Z) : result (list Z) :=
  if decide (length lhs ≠ length rhs)
  then Throw (runtime_error "adding vectors of different sizes")
  else Ok (foldl (fun result i =>
                    <[i := gf_add (result !!! i) (rhs !!! i)]> result)
             lhs (seq 0 (length lhs))).

(** [operator+=] on vectors *)
Definition vec_add_assign (lhs rhs : list Z) : result (list Z) :=
  if decide (length lhs ≠ length rhs)
  then Throw (runtime_error "adding vectors of different sizes")
  else Ok (foldl (fun lhs i => <[i := gf_add (lhs !!! i) (rhs !!! i)]> lhs)
             lhs (seq 0 (length lhs))).

(** [operator*] of a vector and a field element *)
Definition vec_scale (st : field_state) (lhs : list Z) (rhs : Z) : list Z :=
  foldl (fun result i => <[i := gf_mul st (result !!! i) rhs]> result)
    lhs (seq 0 (length lhs)).

Definition dot_product (st : field_state) (lhs rhs : list Z) : result Z :=
  if decide (length lhs ≠ length rhs)
  then Throw (runtime_error "adding vectors of different sizes")
  else
    let accum :=
      foldl (fun accum i => _mm_xor_si128 accum (clmul (lhs !!! i) (rhs !!! i)))
        _mm_setzero_si128 (seq 0 (length lhs)) in
    Ok (reduce st accum).

(** ** Polynomials *)

(** The inner loop of [build_from_roots], for [i = k - 1] down to [1]. *)
Definition root_sweep (st : field_state) (tmp : Z) (k : nat) (poly : list Z)
    : list Z :=
  foldl (fun poly i =>
           <[i := gf_add (gf_mul st (poly !!! i) tmp) (poly !!! (i - 1)%nat)]> poly)
        poly (rev (seq 1 (k - 1))).

(** The body of the outer loop of [build_from_roots]. *)
Definition root_step (st : field_state) (poly : list Z) (k : nat) : list Z :=
  let tmp := poly !!! k in
  let poly := <[k := gf_add tmp (poly !!! (k - 1)%nat)]> poly in
  let poly := root_sweep st tmp k poly in
  <[0%nat := gf_mul st (poly !!! 0%nat) tmp]> poly.

Definition build_from_roots (st : field_state) (roots : list Z) : list Z :=
  let len := length roots in
  let poly := roots ++ [0] in
  let poly := foldl (root_step st) poly (seq 1 (len - 1)) in
  <[len := 1]> poly.

(** Horner evaluation, highest coefficient first *)
Definition eval (st : field_state) (poly : list Z) (point : Z) : Z :=
  foldl (fun acc i => gf_add (gf_mul st acc point) (poly !!! i))
    GF2E_default (rev (seq 0 (length poly))).

(** ** Reference definitions

    Polynomial remainder over GF(2) by long division: for a modulus [P] of
    degree [n], the coefficients at [n + k - 1] down to [n] are cleared in
    turn by adding the matching shift of [P]. *)

Fixpoint poly_rem (k : nat) (n P c : Z) : Z :=
  match k with
  | O => c
  | S k' =>
      poly_rem k' n P
        (if Z.testbit c (n + Z.of_nat k')
         then Z.lxor c (Z.shiftl P (Z.of_nat k')) else c)
  end.

Definition gf2_mod (P c : Z) : Z :=
  poly_rem (Z.to_nat (Z.log2 c + 1 - Z.log2 P)) (Z.log2 P) P c.

(** Field elements of a configuration are the bit masks that fit in
    [8 * byte_size] bits. *)
Definition fits (st : field_state) (a : Z) : Prop :=
  0 <= a < 2 ^ (8 * byte_size st).

(** The modulus announced for each supported [lambda]. *)
Definition modulus (lam : Z) : Z :=
  match lam with
  | 4 => 2 ^ 32 + 2 ^ 7 + 2 ^ 3 + 2 ^ 2 + 1
  | 5 => 2 ^ 40 + 2 ^ 5 + 2 ^ 4 + 2 ^ 3 + 1
  | 6 => 2 ^ 48 + 2 ^ 5 + 2 ^ 3 + 2 ^ 2 + 1
  | _ => 0
  end.

(** A configuration is active for [lam] when it results from
    [init_extension_field] on an instance with that [lambda]. *)
Definition wf_state (st : field_state) : Prop :=
  length (lifting_lut st) = 256%nat.

Definition active (lam : Z) (st : field_state) : Prop :=
  exists instance st0,
    wf_state st0 /\ lambda instance = lam /\
    init_extension_field instance st0 = Ok st.

(** The lifting table as a function of the reduction routine and the
    generator alone: each round appends to the table so far its copy
    shifted by the current generator power. *)
Definition lift_table (red : Z -> Z) (generator : Z) : list Z :=
  fst (foldl (fun '(tbl, pow) (_ : nat) =>
                (tbl ++ map (fun v => Z.lxor v pow) tbl,
                 red (clmul pow generator)))
             ([0; 1], generator) (seq 1 7)).

(** The configuration reached for each supported [lambda]. *)
Definition config (lam : Z) : field_state :=
  match lam with
  | 4 => {| reduce := reduce_GF2_32; byte_size := 4;
            lifting_lut := lift_table reduce_GF2_32 gen_GF2_32 |}
  | 5 => {| reduce := reduce_GF2_40; byte_size := 5;
            lifting_lut := lift_table reduce_GF2_40 gen_GF2_40 |}
  | _ => {| reduce := reduce_GF2_48; byte_size := 6;
            lifting_lut := lift_table reduce_GF2_48 gen_GF2_48 |}
  end.

(** The generator of the lifting table for each supported [lambda], and its
    powers by repeated multiplication. *)
Definition generator (lam : Z) : Z :=
  match lam with
  | 4 => gen_GF2_32
  | 5 => gen_GF2_40
  | _ => gen_GF2_48
  end.

Fixpoint gen_pow (st : field_state) (g : Z) (b : nat) : Z :=
  match b with
  | O => 1
  | S O => g
  | S b' => gf_mul st (gen_pow st g b') g
  end.

(** The reference field of each supported [lambda]: the polynomials over
    GF(2) modulo [modulus lam].  Its reduction is the remainder of the
    long division.  For [lambda = 4] the routine of the program is kept,
    which computes that remainder for every accumulator a product or a sum
    of products can be ([reduce_GF2_32_correct]). *)
Definition field_of (lam : Z) : field_state :=
  match lam with
  | 4 => config 4
  | 5 => {| reduce := gf2_mod (modulus 5); byte_size := 5;
            lifting_lut := lift_table (gf2_mod (modulus 5)) gen_GF2_40 |}
  | _ => {| reduce := gf2_mod (modulus 6); byte_size := 6;
            lifting_lut := lift_table (gf2_mod (modulus 6)) gen_GF2_48 |}
  end.

(** ** Lagrange interpolation *)

(** Modelled from the spec: [utils.h] and the NTL library are not among the
    sources.  [inv(custom_to_ntl(d))] converted back is the exact inverse
    of [d] in the field of the active [lambda]: NTL computes with exact
    remainders, whatever [GF2E::reduce] returns.  The inverse is the
    product of the conjugates [d^2, d^4, ..., d^(2^(k-1))] for the field of
    [2^k] elements, which is [d^(2^k - 2)], in the reference field.  Zero
    has no inverse. *)
Fixpoint conjugate_product (n : nat) (st : field_state) (s acc : Z) : Z :=
  match n with
  | O => acc
  | S n' =>
      let s' := gf_sqr st s in
      conjugate_product n' st s' (gf_mul st acc s')
  end.

Definition field_inverse (st : field_state) (d : Z) : Z :=
  conjugate_product (Z.to_nat (8 * byte_size st) - 1)
    (field_of (byte_size st)) d 1.

Definition ntl_inv (st : field_state) (d : Z) : result Z :=
  if d =? 0 then Throw ntl_error else Ok (field_inverse st d).

Definition precompute_lagrange_polynomials (st : field_state)
    (x_values : list Z) : result (list (list Z)) :=
  let m := length x_values in
  foldl (fun acc k =>
           precomputed ← acc;
           let '(denominator, x_except_k) :=
             foldl (fun '(denominator, x_except_k) j =>
                      if decide (k ≠ j)
                      then (gf_mul st denominator
                              (gf_sub (x_values !!! k) (x_values !!! j)),
                            x_except_k ++ [x_values !!! j])
                      else (denominator, x_except_k))
                   (1, []) (seq 0 m) in
           let numerator := build_from_roots st x_except_k in
           d ← ntl_inv st denominator;
           let numerator := vec_scale st numerator d in
           Ok (precomputed ++ [numerator]))
        (Ok []) (seq 0 m).

Definition interpolate_with_precomputation (st : field_state)
    (precomputed_lagrange_polynomials : list (list Z)) (y_values : list Z)
    : result (list Z) :=
  if bool_decide (length precomputed_lagrange_polynomials ≠ length y_values)
     || bool_decide (length y_values = 0%nat)
  then Throw (runtime_error "invalid sizes for interpolation")
  else
    let res :=
      replicate (length (precomputed_lagrange_polynomials !!! 0%nat))
        GF2E_default in
    let m := length y_values in
    foldl (fun acc k =>
             res ← acc;
             vec_add_assign res
               (vec_scale st (precomputed_lagrange_polynomials !!! k)
                  (y_values !!! k)))
          (Ok res) (seq 0 m).

(** ** Further reference definitions *)

(** The GF(2)-linear combination of the entries of a table selected by the
    bits of [a], starting at bit [i]. *)
Fixpoint lin_comb (tbl : list Z) (i : Z) (a : Z) : Z :=
  match tbl with
  | [] => 0
  | t :: tbl' =>
      Z.lxor (if Z.testbit a i then t else 0) (lin_comb tbl' (i + 1) a)
  end.

(** Horner evaluation by recursion on the coefficient list. *)
Fixpoint horner (st : field_state) (poly : list Z) (point : Z) : Z :=
  match poly with
  | [] => 0
  | c :: poly' => gf_add (gf_mul st (horner st poly' point) point) c
  end.

(** The product of a polynomial (little-endian coefficients) with the
    linear factor [X - r]: coefficient [i] of the result is
    [p[i] * r + p[i-1]]. *)
Fixpoint times_linear_from (st : field_state) (r prev : Z) (p : list Z)
    : list Z :=
  match p with
  | [] => [prev]
  | c :: p' => gf_add (gf_mul st c r) prev :: times_linear_from st r c p'
  end.

Definition times_linear (st : field_state) (p : list Z) (r : Z) : list Z :=
  times_linear_from st r 0 p.

(** The monic polynomial with the given roots: the product of the linear
    factors [X - r], starting from the constant polynomial 1. *)
Definition monic_product (st : field_state) (roots : list Z) : list Z :=
  foldl (times_linear st) [1] roots.

(** The sum of the products [u[i] * v[i]], each reduced on its own. *)
Definition eager_dot_product (st : field_state) (u v : list Z) : Z :=
  foldl (fun acc i => gf_add acc (gf_mul st (u !!! i) (v !!! i)))
    GF2E_default (seq 0 (length u)).

(** The sum of the basis polynomials, each scaled by its value [y[k]]. *)
Definition weighted_sum (st : field_state) (basis : list (list Z))
    (ys : list Z) : list Z :=
  foldl (fun res k =>
           zip_with Z.lxor res
             (map (fun a => gf_mul st a (ys !!! k)) (basis !!! k)))
        (replicate (length (basis !!! 0%nat)) 0) (seq 0 (length ys)).

(** The product of the differences [x - r] over a list of roots. *)
Definition product_of_differences (st : field_state) (x : Z) (roots : list Z)
    : Z :=
  foldl (fun acc r => gf_mul st acc (gf_sub x r)) 1 roots.

(** The Lagrange basis polynomial of index [k]: the monic polynomial whose
    roots are the other points, divided by its value at [x[k]]. *)
Definition lagrange_basis (st : field_state) (xs : list Z) (k : nat) : list Z :=
  let others := delete k xs in
  let denominator := product_of_differences st (xs !!! k) others in
  map (fun a => gf_mul st a (field_inverse st denominator))
    (monic_product st others).

(** ** Certificates

    Checks over finitely many values that decide, by linearity, a property
    of the whole field or of the whole lifting table. *)

(** A table [tbl] whose linear combination maps [a^2 + a] back to [a]
    without its constant coefficient: it witnesses that only 0 and 1 are
    their own squares. *)
Definition idempotent_cert_check (st : field_state) (tbl : list Z) (n : nat)
    : bool :=
  forallb (fun i =>
    lin_comb tbl 0
      (Z.lxor (gf_sqr st (2 ^ Z.of_nat i)) (2 ^ Z.of_nat i))
    =? Z.shiftl (Z.shiftr (2 ^ Z.of_nat i) 1) 1)
    (seq 0 n).

Definition frobenius_cert_32 : list Z :=
  [1425871460; 3262106980; 3262106982; 596276322; 3262106978; 2537278634;
   596276330; 2004248338; 3262106994; 3250443606; 2537278602; 1462372684;
   596276266; 3063135876; 2004248466; 2505424958; 3262106738; 1451497976;
   3250444118; 2529415882; 2537277578; 1418076124; 1462370636; 3080433092;
   596272170; 0; 3063127684; 3306814086; 2004232082; 3115950048; 2505392190;
   930490298].

Definition frobenius_cert_40 : list Z :=
  [26385567436; 50562593990; 50562593988; 59615755820; 50562593984;
   733344722154; 59615755812; 467513320642; 50562594000; 884250785816;
   733344722122; 692442043594; 59615755876; 734372360218; 467513320514;
   55241153460; 50562594256; 687194898458; 884250786328; 59882109840;
   733344721098; 825769624264; 692442045642; 874136436284; 59615751780;
   413484360486; 734372352026; 54790284752; 467513336898; 443398019622;
   55241186228; 445612558886; 50562528720; 708076215214; 687194767386; 0;
   884250524184; 119282005456; 59882634128; 609638448010].

Definition frobenius_cert_48 : list Z :=
  [211124532446448; 212667450671370; 212667450671368; 190918641033150;
   212667450671372; 1577261258160; 190918641033142; 7735407550308;
   212667450671388; 223184046619128; 1577261258128; 112358627103566;
   190918641033206; 177286887544870; 7735407550436; 12675892341364;
   212667450671132; 187651416064018; 223184046619640; 188003971529718;
   1577261257104; 105553118363662; 112358627105614; 223851544526876;
   190918641029110; 7036030995152; 177286887553062; 211125019014172;
   7735407566820; 7104650065972; 12675892374132; 217931471201308;
   212667450736668; 105580331199098; 187651415932946; 15364543736436;
   223184046881784; 112527774415850; 188003972054006; 184250504424038;
   1577260208528; 179848164190822; 105553116266510; 0; 112358631299918;
   25699813853904; 223851536138268; 41989887122240].

Definition frobenius_cert (lam : Z) : list Z :=
  match lam with
  | 4 => frobenius_cert_32
  | 5 => frobenius_cert_40
  | _ => frobenius_cert_48
  end.

(** The doubling construction of the lifting table, as a check over all
    bit positions [1..7] and all indices below [2^b]. *)
Definition doubling_check (st : field_state) (g : Z) : bool :=
  forallb (fun b =>
    let pow := gen_pow st g b in
    forallb (fun idx =>
      lift_uint8_t st (2 ^ Z.of_nat b + Z.of_nat idx)
      =? gf_add (lift_uint8_t st (Z.of_nat idx)) pow)
      (seq 0 (2 ^ b))) (seq 1 7).

(** The lifting table is the linear combination of the generator powers
    [1, g, ..., g^7] selected by the bits of the byte. *)
Definition lift_linear_check (st : field_state) (g : Z) : bool :=
  let powers := map (gen_pow st g) (seq 0 8) in
  forallb (fun p => lift_uint8_t st (Z.of_nat p) =? lin_comb powers 0 (Z.of_nat p))
    (seq 0 256).

(** ** Serialisation of field elements

    A buffer of [uint8_t] is a list of bytes.  The object representation
    of a [uint64_t] is the list of its eight bytes in memory.  [htole64 x]
    is the representation of the value [htole64(x)]: the bytes of [x],
    least significant first, whatever the byte order of the host;
    [le64toh] reads the value back from such a representation. *)

Fixpoint le_bytes (n : nat) (x : Z) : list Z :=
  match n with
  | O => []
  | S k => x mod 256 :: le_bytes k (x / 256)
  end.

Definition htole64 (x : Z) : list Z := le_bytes 8 x.

Definition le64toh (mem : list Z) : Z :=
  foldr (fun b acc => b + 256 * acc) 0 mem.

(** [memcpy(dst, src, n)]: the first [n] bytes of [dst] are replaced by
    the first [n] bytes of [src]; both hold at least [n] bytes. *)
Definition memcpy (dst src : list Z) (n : nat) : list Z :=
  take n src ++ drop n dst.

(** [GF2E::to_bytes]: the contents of the buffer [out] after the call. *)
Definition to_bytes (st : field_state) (data : Z) (out : list Z) : list Z :=
  let be_data := htole64 data in
  memcpy out be_data (Z.to_nat (byte_size st)).

(** [GF2E::from_bytes]: the new value of [data].  After [data = 0] the
    eight bytes of [data] are zero; the first [byte_size] of them are then
    overwritten. *)
Definition from_bytes (st : field_state) (inp : list Z) : Z :=
  let data := replicate 8 0 in
  let data := memcpy data inp (Z.to_nat (byte_size st)) in
  le64toh data.

(** ** Evaluation points *)

Definition get_first_n_field_elements (st : field_state) (n : nat) : list Z :=
  let x := 2 in
  let gen := x in
  fst (foldl (fun '(result, gen) (_ : nat) =>
                (result ++ [gen], gf_mul st gen x))
             ([], gen) (seq 0 n)).

(** ** Product of polynomials

    [operator*] on two vectors.  The size of the result is computed in
    [size_t], modulo [2^64]; the constructor of [std::vector] refuses a
    size above [max_size()] with [std::length_error], which is the only
    way this operator fails: [None]. *)

(** Modelled from the spec: [field.h] is not among the sources.  A field
    element holds one 64-bit integer and takes eight bytes, so that
    [max_size()] of a vector of field elements is [PTRDIFF_MAX / 8]. *)
Definition vector_max_size : Z := (2 ^ 63 - 1) / 8.

(** The inner loop, over the coefficients of [rhs] for one [lhs[i]]. *)
Definition poly_mul_row (st : field_state) (lhs rhs : list Z) (result : list Z)
    (i : nat) : list Z :=
  foldl (fun result j =>
           <[(i + j)%nat := gf_add (result !!! (i + j)%nat)
                              (gf_mul st (lhs !!! i) (rhs !!! j))]> result)
        result (seq 0 (length rhs)).

Definition poly_mul (st : field_state) (lhs rhs : list Z) : option (list Z) :=
  let size := (Z.of_nat (length lhs) + Z.of_nat (length rhs) - 1) mod 2 ^ 64 in
  if vector_max_size <? size then None
  else
    let result := replicate (Z.to_nat size) GF2E_default in
    Some (foldl (poly_mul_row st lhs rhs) result (seq 0 (length lhs))).

(** ** Reference definitions for the further results *)

(** Powers with a binary exponent, by squaring. *)
Fixpoint gf_pow_pos (st : field_state) (a : Z) (p : positive) : Z :=
  match p with
  | xH => a
  | xO p' => gf_sqr st (gf_pow_pos st a p')
  | xI p' => gf_mul st (gf_sqr st (gf_pow_pos st a p')) a
  end.

Definition gf_pow (st : field_state) (a : Z) (e : Z) : Z :=
  match e with
  | Zpos p => gf_pow_pos st a p
  | _ => 1
  end.

(** The multiplicative order of the element [x] (bit mask 2) in each of
    the three fields, and its prime factors. *)
Definition order_of_x (lam : Z) : Z :=
  match lam with
  | 4 => 1431655765
  | 5 => 1099511627775
  | _ => 6254999482459
  end.

Definition order_factors (lam : Z) : list Z :=
  match lam with
  | 4 => [5; 17; 257; 65537]
  | 5 => [3; 5; 5; 11; 17; 31; 41; 61681]
  | _ => [7; 13; 17; 97; 241; 257; 673]
  end.

(** Trial division: no [d], [d + 1], ... divides [p], up to the first
    whose square exceeds [p]. *)
Fixpoint no_divisor_from (fuel : nat) (d p : Z) : bool :=
  match fuel with
  | O => false
  | S fuel' =>
      if p <? d * d then true
      else if p mod d =? 0 then false
      else no_divisor_from fuel' (d + 1) p
  end.

Definition is_prime (p : Z) : bool :=
  (1 <? p) && no_divisor_from (Z.to_nat p) 2 p.

Definition order_check (lam : Z) : bool :=
  (foldr Z.mul 1 (order_factors lam) =? order_of_x lam)
  && (gf_pow (field_of lam) 2 (order_of_x lam) =? 1)
  && forallb (fun p =>
                is_prime p
                && negb (gf_pow (field_of lam) 2 (order_of_x lam / p) =? 1))
       (order_factors lam).

(** The field of 256 elements lifted by the table: bytes multiplied as
    polynomials over GF(2) modulo [x^8 + x^4 + x^3 + x + 1]. *)
Definition gf256_modulus : Z := 2 ^ 8 + 2 ^ 4 + 2 ^ 3 + 2 + 1.

Definition gf256_mul (a b : Z) : Z := gf2_mod gf256_modulus (clmul a b).

(** The lifting commutes with the product of any two of the bytes
    [1, 2, 4, ..., 128], and no other byte than 0 is lifted to 0. *)
Definition lift_mul_check (st : field_state) : bool :=
  forallb (fun i =>
    forallb (fun j =>
      lift_uint8_t st (gf256_mul (2 ^ Z.of_nat i) (2 ^ Z.of_nat j))
      =? gf_mul st (lift_uint8_t st (2 ^ Z.of_nat i))
                   (lift_uint8_t st (2 ^ Z.of_nat j)))
      (seq 0 8)) (seq 0 8).

Definition lift_kernel_check (st : field_state) : bool :=
  forallb (fun p => negb (lift_uint8_t st (Z.of_nat p) =? 0)) (seq 1 255).

(** The product of two polynomials by recursion on the first: the row of
    [a] is added to the accumulator [r], whose first coefficient is then
    final. *)
Fixpoint add_row (st : field_state) (a : Z) (q r : list Z) : list Z :=
  match q, r with
  | b :: q', c :: r' => Z.lxor c (gf_mul st a b) :: add_row st a q' r'
  | _, _ => r
  end.

Fixpoint conv (st : field_state) (p q r : list Z) : list Z :=
  match p with
  | [] => r
  | a :: p' =>
      match add_row st a q r with
      | [] => []
      | c :: r' => c :: conv st p' q r'
      end
  end.

(** Division of a polynomial by the linear factor [X - r], from the
    highest coefficient down: the head of the result is the remainder,
    the value of the polynomial at [r], and its tail is the quotient. *)
Fixpoint synthetic_division (st : field_state) (r : Z) (p : list Z) : list Z :=
  match p with
  | [] => []
  | c :: p' =>
      let s := synthetic_division st r p' in
      Z.lxor c (gf_mul st (hd 0 s) r) :: s
  end.

(** ** Tactics *)

(** Equalities between sums (XOR) up to associativity and commutativity. *)
Ltac lxor_ac :=
  apply Z.bits_inj'; intros ? _; rewrite ?Z.lxor_spec;
  repeat match goal with
         | |- context [Z.testbit ?a ?n] => destruct (Z.testbit a n)
         end; reflexivity.

(** The same, from one hypothesis of that kind. *)
Ltac lxor_ac_from H :=
  let n := fresh "n" in
  apply Z.bits_inj'; intros n _;
  apply (f_equal (fun z => Z.testbit z n)) in H; cbv beta in H;
  repeat rewrite Z.lxor_spec in H; repeat rewrite Z.lxor_spec;
  repeat match goal with
         | |- context [Z.testbit ?a n] =>
             let b := fresh "b" in
             generalize dependent (Z.testbit a n); intros b
         end;
  repeat match goal with
         | b : bool |- _ => destruct b
         end; (reflexivity || discriminate).

(** * Bit-level facts *)

Lemma pow2_pos (n : Z) : 0 <= n -> 0 < 2 ^ n.
Proof. intros. apply Z.pow_pos_nonneg; lia. Qed.

Lemma testbit_above (a n i : Z) :
  0 <= a < 2 ^ n -> n <= i -> Z.testbit a i = false.
Proof.
  intros [Ha Hlt] Hi.
  destruct (Z.eq_dec a 0) as [->|Hne]; [apply Z.bits_0|].
  apply Z.bits_above_log2; [lia|].
  assert (0 <= n).
  { destruct (Z.le_gt_cases 0 n); [done|].
    rewrite Z.pow_neg_r in Hlt by lia. lia. }
  assert (Z.log2 a < n) by (apply Z.log2_lt_pow2; lia). lia.
Qed.

Lemma lt_pow2_of_bits (a n : Z) :
  0 <= a -> 0 <= n -> (forall i, n <= i -> Z.testbit a i = false) -> a < 2 ^ n.
Proof.
  intros Ha Hn Hb.
  destruct (Z.eq_dec a 0) as [->|Hne]; [by apply pow2_pos|].
  apply Z.log2_lt_pow2; [lia|].
  destruct (Z.lt_ge_cases (Z.log2 a) n) as [|Hge]; [done|].
  specialize (Hb _ Hge). rewrite Z.bit_log2 in Hb by lia. done.
Qed.

Lemma lxor_bound (a b n : Z) :
  0 <= a < 2 ^ n -> 0 <= b < 2 ^ n -> 0 <= Z.lxor a b < 2 ^ n.
Proof.
  intros Ha Hb.
  assert (0 <= n).
  { destruct (Z.le_gt_cases 0 n); [done|].
    rewrite Z.pow_neg_r in Ha by lia. lia. }
  assert (0 <= Z.lxor a b) by (apply Z.lxor_nonneg; lia).
  split; [done|].
  apply lt_pow2_of_bits; [done..|].
  intros i Hi. rewrite Z.lxor_spec.
  by rewrite (testbit_above a n i), (testbit_above b n i).
Qed.

Lemma shiftl_bound (a m k : Z) :
  0 <= a < 2 ^ m -> 0 <= m -> 0 <= k -> 0 <= Z.shiftl a k < 2 ^ (m + k).
Proof.
  intros Ha Hm Hk. rewrite Z.shiftl_mul_pow2 by done.
  rewrite Z.pow_add_r by done.
  pose proof (pow2_pos k Hk). nia.
Qed.

Lemma shiftr_bound (a m k : Z) :
  0 <= a < 2 ^ (m + k) -> 0 <= m -> 0 <= k -> 0 <= Z.shiftr a k < 2 ^ m.
Proof.
  intros Ha Hm Hk. rewrite Z.shiftr_div_pow2 by done.
  pose proof (pow2_pos k Hk).
  split; [apply Z.div_pos; lia|].
  apply Z.div_lt_upper_bound; [done|].
  rewrite <- Z.pow_add_r by done. rewrite (Z.add_comm k m). lia.
Qed.

Lemma pow2_mono (a b : Z) : 0 <= a <= b -> 2 ^ a <= 2 ^ b.
Proof. intros. apply Z.pow_le_mono_r; lia. Qed.

Lemma land_ones_small (a n : Z) : 0 <= a < 2 ^ n -> 0 <= n -> Z.land a (Z.ones n) = a.
Proof. intros. rewrite Z.land_ones by done. by apply Z.mod_small. Qed.

Lemma lxor_cancel_r (a b : Z) : Z.lxor (Z.lxor a b) b = a.
Proof. by rewrite Z.lxor_assoc, Z.lxor_nilpotent, Z.lxor_0_r. Qed.

Lemma lxor_swap (a b c d : Z) :
  Z.lxor (Z.lxor a b) (Z.lxor c d) = Z.lxor (Z.lxor a c) (Z.lxor b d).
Proof.
  rewrite !Z.lxor_assoc. f_equal.
  rewrite <- !Z.lxor_assoc. f_equal. apply Z.lxor_comm.
Qed.

(** Splitting a bit mask at position [n]. *)
Lemma split_at (x n : Z) :
  0 <= n -> Z.lxor x (Z.shiftl (Z.shiftr x n) n) = Z.land x (Z.ones n).
Proof.
  intros Hn. apply Z.bits_inj'. intros i Hi.
  rewrite Z.lxor_spec, Z.land_spec, Z.testbit_ones_nonneg by done.
  destruct (Z.ltb_spec i n).
  - rewrite Z.shiftl_spec_low by done. by rewrite xorb_false_r, andb_true_r.
  - rewrite Z.shiftl_spec, Z.shiftr_spec by lia.
    replace (i - n + n) with i by lia.
    by rewrite xorb_nilpotent, andb_false_r.
Qed.

(** * Carry-less multiplication *)

Lemma clmul_bits_nonneg (n : nat) (a b : Z) : 0 <= b -> 0 <= clmul_bits n a b.
Proof.
  intros Hb. induction n as [|n IH]; simpl; [done|].
  apply Z.lxor_nonneg. split; intros _; [|done].
  destruct (Z.testbit a (Z.of_nat n)); [|done].
  apply Z.shiftl_nonneg. done.
Qed.

Lemma clmul_bits_bound (n : nat) (a b m : Z) :
  0 <= b < 2 ^ m -> 0 <= m ->
  0 <= clmul_bits (S n) a b < 2 ^ (m + Z.of_nat n).
Proof.
  intros Hb Hm. induction n as [|n IH].
  - cbn [clmul_bits]. change (Z.of_nat 0) with 0.
    rewrite Z.lxor_0_l, Z.add_0_r.
    destruct (Z.testbit a 0); [rewrite Z.shiftl_0_r; lia|].
    pose proof (pow2_pos m Hm). lia.
  - change (clmul_bits (S (S n)) a b) with
      (Z.lxor (clmul_bits (S n) a b)
         (if Z.testbit a (Z.of_nat (S n)) then Z.shiftl b (Z.of_nat (S n)) else 0)).
    apply lxor_bound.
    + pose proof (pow2_mono (m + Z.of_nat n) (m + Z.of_nat (S n))). lia.
    + destruct (Z.testbit a (Z.of_nat (S n))).
      * apply shiftl_bound; lia.
      * pose proof (pow2_pos (m + Z.of_nat (S n))). lia.
Qed.

Lemma clmul_bits_0_r (n : nat) (a : Z) : clmul_bits n a 0 = 0.
Proof.
  induction n as [|n IH]; simpl; [done|].
  rewrite IH, Z.shiftl_0_l. by destruct (Z.testbit a (Z.of_nat n)).
Qed.

Lemma clmul_bits_0_l (n : nat) (b : Z) : clmul_bits n 0 b = 0.
Proof.
  induction n as [|n IH]; simpl; [done|].
  by rewrite IH, Z.bits_0.
Qed.

Lemma clmul_bits_lxor_r (n : nat) (a b c : Z) :
  clmul_bits n a (Z.lxor b c) = Z.lxor (clmul_bits n a b) (clmul_bits n a c).
Proof.
  induction n as [|n IH]; simpl; [done|].
  rewrite IH, lxor_swap. f_equal.
  destruct (Z.testbit a (Z.of_nat n)); [|done].
  apply Z.shiftl_lxor.
Qed.

Lemma clmul_bits_lxor_l (n : nat) (a a' b : Z) :
  clmul_bits n (Z.lxor a a') b = Z.lxor (clmul_bits n a b) (clmul_bits n a' b).
Proof.
  induction n as [|n IH]; simpl; [done|].
  rewrite IH, lxor_swap, Z.lxor_spec. f_equal.
  destruct (Z.testbit a (Z.of_nat n)), (Z.testbit a' (Z.of_nat n)); simpl;
    by rewrite ?Z.lxor_nilpotent, ?Z.lxor_0_r, ?Z.lxor_0_l.
Qed.

Lemma clmul_bits_shiftl_r (n : nat) (a b j : Z) :
  0 <= j -> clmul_bits n a (Z.shiftl b j) = Z.shiftl (clmul_bits n a b) j.
Proof.
  intros Hj. induction n as [|n IH]; simpl; [by rewrite Z.shiftl_0_l|].
  rewrite IH, Z.shiftl_lxor. f_equal.
  destruct (Z.testbit a (Z.of_nat n)); [|by rewrite Z.shiftl_0_l].
  rewrite !Z.shiftl_shiftl by lia. f_equal. lia.
Qed.

Lemma clmul_bits_1_r (n : nat) (a : Z) :
  clmul_bits n a 1 = Z.land a (Z.ones (Z.of_nat n)).
Proof.
  induction n as [|n IH]; simpl clmul_bits; [by rewrite Z.land_0_r|].
  rewrite IH. apply Z.bits_inj'. intros i Hi.
  rewrite Z.lxor_spec, !Z.land_spec, !Z.testbit_ones_nonneg by lia.
  destruct (Z.eq_dec i (Z.of_nat n)) as [->|Hne].
  - rewrite (proj2 (Z.ltb_ge _ _)) by lia.
    rewrite (proj2 (Z.ltb_lt _ _)) by lia.
    rewrite andb_false_r, andb_true_r. simpl.
    destruct (Z.testbit a (Z.of_nat n)) eqn:E; [|by rewrite Z.bits_0].
    rewrite Z.shiftl_spec, Z.sub_diag by lia. done.
  - assert (Z.testbit (if Z.testbit a (Z.of_nat n)
                       then Z.shiftl 1 (Z.of_nat n) else 0) i = false) as ->.
    { destruct (Z.testbit a (Z.of_nat n)); [|apply Z.bits_0].
      destruct (Z.lt_ge_cases i (Z.of_nat n)).
      - by rewrite Z.shiftl_spec_low.
      - rewrite Z.shiftl_spec by lia.
        apply (testbit_above 1 1); lia. }
    rewrite xorb_false_r. f_equal.
    destruct (Z.ltb_spec i (Z.of_nat n)), (Z.ltb_spec i (Z.of_nat (S n))); lia || done.
Qed.

(** Coefficients above the fuel do not contribute. *)
Lemma clmul_bits_fuel (n k : nat) (a b : Z) :
  0 <= a < 2 ^ Z.of_nat n -> clmul_bits (n + k) a b = clmul_bits n a b.
Proof.
  intros Ha. induction k as [|k IH].
  - by rewrite Nat.add_0_r.
  - rewrite Nat.add_succ_r. simpl. rewrite IH.
    rewrite (testbit_above a (Z.of_nat n)) by lia.
    apply Z.lxor_0_r.
Qed.

Lemma clmul_lxor_r (a b c : Z) :
  clmul a (Z.lxor b c) = Z.lxor (clmul a b) (clmul a c).
Proof. apply clmul_bits_lxor_r. Qed.

Lemma clmul_lxor_l (a a' b : Z) :
  clmul (Z.lxor a a') b = Z.lxor (clmul a b) (clmul a' b).
Proof. apply clmul_bits_lxor_l. Qed.

Lemma clmul_0_l (b : Z) : clmul 0 b = 0.
Proof. apply clmul_bits_0_l. Qed.

Lemma clmul_0_r (a : Z) : clmul a 0 = 0.
Proof. apply clmul_bits_0_r. Qed.

Lemma clmul_pow2_r (a j : Z) :
  0 <= a < 2 ^ 64 -> 0 <= j -> clmul a (2 ^ j) = Z.shiftl a j.
Proof.
  intros Ha Hj. unfold clmul.
  rewrite <- (Z.shiftl_1_l j), clmul_bits_shiftl_r, clmul_bits_1_r by done.
  f_equal. apply land_ones_small; [done|lia].
Qed.

Lemma clmul_nonneg (a b : Z) : 0 <= b -> 0 <= clmul a b.
Proof. apply clmul_bits_nonneg. Qed.

(** The product of polynomials of degrees below [k] and [m] has degree
    below [k + m - 1]. *)
Lemma clmul_bound (a b k m : Z) :
  0 <= a < 2 ^ k -> 0 <= b < 2 ^ m -> 1 <= k <= 64 -> 0 <= m ->
  0 <= clmul a b < 2 ^ (k + m - 1).
Proof.
  intros Ha Hb Hk Hm. unfold clmul.
  replace 64%nat with (Z.to_nat k + (64 - Z.to_nat k))%nat by lia.
  rewrite clmul_bits_fuel by (rewrite Z2Nat.id; lia).
  replace (Z.to_nat k) with (S (Z.to_nat (k - 1))) by lia.
  replace (k + m - 1) with (m + Z.of_nat (Z.to_nat (k - 1))) by lia.
  by apply clmul_bits_bound.
Qed.

Lemma poly_rem_lxor (k : nat) (n P c d : Z) :
  poly_rem k n P (Z.lxor c d) = Z.lxor (poly_rem k n P c) (poly_rem k n P d).
Proof.
  revert c d. induction k as [|k IH]; intros c d; simpl; [done|].
  rewrite <- IH. f_equal. rewrite Z.lxor_spec.
  destruct (Z.testbit c _), (Z.testbit d _); simpl.
  - rewrite lxor_swap, Z.lxor_nilpotent. by rewrite Z.lxor_0_r.
  - rewrite !Z.lxor_assoc. f_equal. apply Z.lxor_comm.
  - by rewrite Z.lxor_assoc.
  - done.
Qed.

Lemma poly_rem_small (k : nat) (n P c : Z) :
  0 <= c < 2 ^ n -> poly_rem k n P c = c.
Proof.
  intros Hc. induction k as [|k IH]; simpl; [done|].
  rewrite (testbit_above c n) by lia. done.
Qed.

Lemma poly_rem_fuel (k j : nat) (n P c : Z) :
  0 <= c < 2 ^ (n + Z.of_nat k) -> poly_rem (k + j) n P c = poly_rem k n P c.
Proof.
  intros Hc. induction j as [|j IH].
  - by rewrite Nat.add_0_r.
  - rewrite Nat.add_succ_r. simpl.
    rewrite (testbit_above c (n + Z.of_nat k)) by lia. done.
Qed.

Lemma poly_rem_fuel_irrel (k k' : nat) (n P c : Z) :
  0 <= c < 2 ^ (n + Z.of_nat k) -> 0 <= c < 2 ^ (n + Z.of_nat k') ->
  poly_rem k n P c = poly_rem k' n P c.
Proof.
  intros Hk Hk'. destruct (Nat.le_ge_cases k k') as [Hle|Hle].
  - replace k' with (k + (k' - k))%nat by lia. by rewrite poly_rem_fuel.
  - replace k with (k' + (k - k'))%nat by lia. by rewrite poly_rem_fuel.
Qed.

Lemma top_bit (P n : Z) :
  0 <= n -> 2 ^ n <= P < 2 ^ (n + 1) -> Z.testbit P n = true.
Proof.
  intros Hn HP. pose proof (pow2_pos n Hn).
  assert (Z.log2 P = n) as <- by (apply Z.log2_unique; lia).
  apply Z.bit_log2. lia.
Qed.

(** Division by a modulus of degree [n] leaves a remainder of degree
    below [n]. *)
Lemma poly_rem_bound (k : nat) (n P c : Z) :
  0 <= n -> 2 ^ n <= P < 2 ^ (n + 1) ->
  0 <= c < 2 ^ (n + Z.of_nat k) -> 0 <= poly_rem k n P c < 2 ^ n.
Proof.
  intros Hn HP. revert c. induction k as [|k IH]; intros c Hc; simpl.
  - by rewrite Z.add_0_r in Hc.
  - apply IH.
    assert (Z.testbit P n = true) as HPn.
    { by apply top_bit. }
    destruct (Z.testbit c (n + Z.of_nat k)) eqn:E.
    + split; [apply Z.lxor_nonneg; split; intros _; [apply Z.shiftl_nonneg|]; lia|].
      apply lt_pow2_of_bits;
        [apply Z.lxor_nonneg; split; intros _; [apply Z.shiftl_nonneg|]; lia
        |lia|].
      intros i Hi. rewrite Z.lxor_spec, Z.shiftl_spec by lia.
      destruct (Z.eq_dec i (n + Z.of_nat k)) as [->|Hne].
      * rewrite E. replace (n + Z.of_nat k - Z.of_nat k) with n by lia.
        by rewrite HPn.
      * rewrite (testbit_above c (n + Z.of_nat (S k))) by lia.
        rewrite (testbit_above P (n + 1)) by lia. done.
    + split; [lia|].
      apply lt_pow2_of_bits; [lia..|].
      intros i Hi.
      destruct (Z.eq_dec i (n + Z.of_nat k)) as [->|Hne]; [done|].
      apply (testbit_above c (n + Z.of_nat (S k))); lia.
Qed.

(** Multiples of the modulus leave no remainder. *)
Lemma poly_rem_multiple (k : nat) (n P q : Z) :
  0 <= n -> 2 ^ n <= P < 2 ^ (n + 1) ->
  poly_rem k n P (clmul_bits k q P) = 0.
Proof.
  intros Hn HP. induction k as [|k IH]; [done|].
  assert (Z.testbit P n = true) as HPn.
  { by apply top_bit. }
  assert (0 <= clmul_bits k q P < 2 ^ (n + Z.of_nat k)) as Hb.
  { destruct k as [|k]; [simpl; pose proof (pow2_pos (n + 0)); lia|].
    replace (n + Z.of_nat (S k)) with (n + 1 + Z.of_nat k) by lia.
    apply clmul_bits_bound; lia. }
  cbn [poly_rem clmul_bits].
  rewrite Z.lxor_spec, (testbit_above _ _ _ Hb) by lia.
  destruct (Z.testbit q (Z.of_nat k)).
  - rewrite Z.shiftl_spec by lia.
    replace (n + Z.of_nat k - Z.of_nat k) with n by lia.
    rewrite HPn. simpl. by rewrite lxor_cancel_r.
  - rewrite Z.bits_0. simpl. by rewrite Z.lxor_0_r.
Qed.

Lemma gf2_mod_fuel (k : nat) (P c : Z) :
  0 < P -> 0 <= c < 2 ^ (Z.log2 P + Z.of_nat k) ->
  gf2_mod P c = poly_rem k (Z.log2 P) P c.
Proof.
  intros HP Hc. unfold gf2_mod.
  pose proof (Z.log2_nonneg P) as Hn.
  apply poly_rem_fuel_irrel; [|done].
  destruct (Z.eq_dec c 0) as [->|Hne].
  { pose proof (pow2_pos (Z.log2 P
                           + Z.of_nat (Z.to_nat (Z.log2 0 + 1 - Z.log2 P)))).
    lia. }
  split; [lia|].
  destruct (Z.le_gt_cases 0 (Z.log2 c + 1 - Z.log2 P)).
  - rewrite Z2Nat.id by done. apply Z.log2_lt_pow2; lia.
  - replace (Z.to_nat _) with 0%nat by lia. rewrite Z.add_0_r.
    apply Z.log2_lt_pow2; lia.
Qed.

(** A value that differs from [c] by a multiple of the modulus and has
    degree below [n] is the remainder of [c]. *)
Lemma poly_rem_unique (k : nat) (n P c q : Z) :
  0 <= n -> 2 ^ n <= P < 2 ^ (n + 1) ->
  0 <= Z.lxor c (clmul_bits k q P) < 2 ^ n ->
  poly_rem k n P c = Z.lxor c (clmul_bits k q P).
Proof.
  intros Hn HP Hrem.
  rewrite <- (lxor_cancel_r c (clmul_bits k q P)) at 1.
  rewrite poly_rem_lxor, poly_rem_multiple, Z.lxor_0_r by done.
  by apply poly_rem_small.
Qed.

Lemma gf2_mod_unique_bits (w : nat) (n P c q : Z) :
  0 <= n -> 2 ^ n <= P < 2 ^ (n + 1) ->
  0 <= c -> 0 <= q < 2 ^ Z.of_nat w ->
  0 <= Z.lxor c (clmul_bits w q P) < 2 ^ n ->
  gf2_mod P c = Z.lxor c (clmul_bits w q P).
Proof.
  intros Hn HP Hc Hq Hrem.
  pose proof (pow2_pos n Hn).
  assert (Z.log2 P = n) as Hlog by (apply Z.log2_unique; lia).
  unfold gf2_mod. rewrite Hlog.
  set (k := Z.to_nat (Z.log2 c + 1 - n)).
  assert (0 <= c < 2 ^ (n + Z.of_nat k)) as Hck.
  { split; [done|].
    destruct (Z.eq_dec c 0) as [->|Hne]; [apply pow2_pos; lia|].
    apply Z.log2_lt_pow2; lia. }
  rewrite <- (poly_rem_fuel k w n P c Hck).
  rewrite <- (clmul_bits_fuel w k q P Hq) in *.
  rewrite (Nat.add_comm w k) in *.
  by apply poly_rem_unique.
Qed.

Lemma gf2_mod_unique (n P c q : Z) :
  0 <= n -> 2 ^ n <= P < 2 ^ (n + 1) ->
  0 <= c -> 0 <= q < 2 ^ 64 ->
  0 <= Z.lxor c (clmul q P) < 2 ^ n ->
  gf2_mod P c = Z.lxor c (clmul q P).
Proof. exact (gf2_mod_unique_bits 64 n P c q). Qed.

(** * Barrett reduction

    For a modulus [P = x^n + r] with [r] of degree below [d] and
    [2 * d <= n], the quotient of [x^(2n)] by [P] is [P] itself, and two
    multiplications by [P] give the exact remainder. *)

Section Barrett.

Variables n d r : Z.
Hypothesis Hd : 0 < d.
Hypothesis Hdn : 2 * d <= n.
Hypothesis Hn : n <= 64.
Hypothesis Hr : 0 <= r < 2 ^ d.

Local Abbreviation P := (Z.lxor (2 ^ n) r).

Lemma barrett_modulus_range : 2 ^ n <= P < 2 ^ (n + 1).
Proof.
  assert (P = 2 ^ n + r) as ->.
  { rewrite <- Z.add_nocarry_lxor; [done|].
    apply Z.bits_inj'. intros i Hi. rewrite Z.land_spec, Z.bits_0.
    destruct (Z.lt_ge_cases i d).
    - rewrite Z.pow2_bits_false by lia. done.
    - rewrite (testbit_above r d) by lia. apply andb_false_r. }
  pose proof (pow2_mono d n). rewrite Z.pow_add_r, Z.pow_1_r by lia. lia.
Qed.

Lemma barrett_log2 : Z.log2 P = n.
Proof. pose proof barrett_modulus_range. apply Z.log2_unique; lia. Qed.

Lemma clmul_modulus (h : Z) :
  0 <= h < 2 ^ 64 -> clmul h P = Z.lxor (Z.shiftl h n) (clmul h r).
Proof.
  intros Hh. rewrite clmul_lxor_r.
  assert (0 <= n) as Hn0 by lia.
  by rewrite (clmul_pow2_r h n Hh Hn0).
Qed.

Lemma barrett_fold (c : Z) :
  0 <= c < 2 ^ (2 * n - 1) ->
  let h := Z.shiftr c n in
  let q := Z.shiftr (clmul h P) n in
  0 <= h < 2 ^ (n - 1) /\ 0 <= q < 2 ^ (n - 1) /\
  0 <= Z.lxor c (clmul q P) < 2 ^ n /\
  Z.lxor c (clmul q P) = gf2_mod P c.
Proof.
  intros Hc h q.
  assert (0 <= h < 2 ^ (n - 1)) as Hh.
  { apply shiftr_bound; [|lia..]. by replace (n - 1 + n) with (2 * n - 1) by lia. }
  assert (2 ^ (n - 1) <= 2 ^ 64) as Hle by (apply pow2_mono; lia).
  pose proof (clmul_bound h r (n - 1) d) as Hhr.
  set (hr := clmul h r) in *.
  set (h2 := Z.shiftr hr n).
  assert (0 <= h2 < 2 ^ d) as Hh2.
  { apply shiftr_bound; [|lia..].
    assert (2 ^ (n - 1 + d - 1) <= 2 ^ (d + n)) by (apply pow2_mono; lia). lia. }
  assert (2 ^ d <= 2 ^ (n - 1)) as Hle' by (apply pow2_mono; lia).
  assert (q = Z.lxor h h2) as Hq.
  { unfold q. rewrite clmul_modulus by lia.
    rewrite Z.shiftr_lxor, Z.shiftr_shiftl_l, Z.sub_diag by lia. done. }
  assert (0 <= q < 2 ^ (n - 1)) as Hqb.
  { rewrite Hq. apply lxor_bound; lia. }
  assert (Z.lxor c (clmul q P)
          = Z.lxor (Z.lxor (Z.land c (Z.ones n)) (Z.land hr (Z.ones n)))
              (clmul h2 r)) as Hrem.
  { rewrite clmul_modulus by lia.
    rewrite Hq at 1. rewrite Hq, Z.shiftl_lxor, clmul_lxor_l.
    fold hr. rewrite <- !split_at by lia. fold h h2.
    rewrite <- !Z.lxor_assoc. f_equal.
    rewrite !Z.lxor_assoc. f_equal. f_equal. apply Z.lxor_comm. }
  assert (0 <= Z.lxor c (clmul q P) < 2 ^ n) as Hb.
  { rewrite Hrem. apply lxor_bound; [apply lxor_bound|].
    - rewrite Z.land_ones by lia. apply Z.mod_pos_bound, pow2_pos. lia.
    - rewrite Z.land_ones by lia. apply Z.mod_pos_bound, pow2_pos. lia.
    - pose proof (clmul_bound h2 r d d).
      assert (2 ^ (d + d - 1) <= 2 ^ n) by (apply pow2_mono; lia). lia. }
  split; [exact Hh|]. split; [exact Hqb|]. split; [exact Hb|].
  symmetry.
  apply (gf2_mod_unique n); [lia|apply barrett_modulus_range|lia|lia|exact Hb].
Qed.

(** Bit 63 of the quotient estimate [clmul h P] is bit 63 of the
    accumulator. *)
Lemma quotient_estimate_sign (c : Z) :
  n + d <= 65 -> n < 64 -> 0 <= c < 2 ^ (2 * n - 1) ->
  Z.testbit (clmul (Z.shiftr c n) P) 63 = Z.testbit c 63.
Proof.
  intros Hnd Hn' Hc.
  assert (0 <= Z.shiftr c n < 2 ^ (n - 1)) as Hh.
  { apply shiftr_bound; [|lia..]. by replace (n - 1 + n) with (2 * n - 1) by lia. }
  assert (2 ^ (n - 1) <= 2 ^ 64) as Hle by (apply pow2_mono; lia).
  rewrite clmul_modulus by lia.
  rewrite Z.lxor_spec, Z.shiftl_spec, Z.shiftr_spec by lia.
  replace (63 - n + n) with 63 by lia.
  pose proof (clmul_bound (Z.shiftr c n) r (n - 1) d Hh Hr ltac:(lia) ltac:(lia)).
  assert (2 ^ (n - 1 + d - 1) <= 2 ^ 63) by (apply pow2_mono; lia).
  rewrite (testbit_above (clmul (Z.shiftr c n) r) 63) by lia.
  apply xorb_false_r.
Qed.

End Barrett.

(** * The reduction routines and the remainder *)

Lemma lane64_range (v lane : Z) : 0 <= lane64 v lane < 2 ^ 64.
Proof.
  unfold lane64. rewrite Z.land_ones by lia.
  apply Z.mod_pos_bound. lia.
Qed.

Lemma uint64_of_small (u : Z) : 0 <= u < 2 ^ 64 -> uint64_of u = u.
Proof. intros. unfold uint64_of. apply Z.mod_small. lia. Qed.

Lemma uint64_of_int64 (u : Z) :
  0 <= u < 2 ^ 64 -> uint64_of (int64_of_bits u) = u.
Proof.
  intros Hu. unfold uint64_of, int64_of_bits.
  destruct (2 ^ 63 <=? u).
  - replace (u - 2 ^ 64) with (u + (-1) * 2 ^ 64) by lia.
    rewrite Z.mod_add by lia. apply Z.mod_small. lia.
  - apply Z.mod_small. lia.
Qed.

(** A lane stored in a [uint64_t] is the unsigned value of its bits. *)
Lemma extract_uint64 (v lane : Z) :
  uint64_of (_mm_extract_epi64 v lane) = lane64 v lane.
Proof. apply uint64_of_int64, lane64_range. Qed.

(** A lane whose bit 63 is clear is the same number as a [long long] and
    as a [uint64_t]; one whose bit 63 is set is negative. *)
Lemma extract_nonneg (v lane : Z) :
  lane64 v lane < 2 ^ 63 -> _mm_extract_epi64 v lane = lane64 v lane.
Proof.
  intros H. unfold _mm_extract_epi64, int64_of_bits.
  by rewrite (proj2 (Z.leb_gt _ _)) by lia.
Qed.

Lemma extract_negative (v lane : Z) :
  2 ^ 63 <= lane64 v lane ->
  _mm_extract_epi64 v lane = lane64 v lane - 2 ^ 64.
Proof.
  intros H. unfold _mm_extract_epi64, int64_of_bits.
  by rewrite (proj2 (Z.leb_le _ _)) by lia.
Qed.

Lemma extract_lo (v : Z) : lane64 v 0 = Z.land v (Z.ones 64).
Proof. unfold lane64. by rewrite Z.mul_0_r, Z.shiftr_0_r. Qed.

Lemma extract_lo_small (v : Z) : 0 <= v < 2 ^ 64 -> lane64 v 0 = v.
Proof. intros. rewrite extract_lo. apply land_ones_small; lia. Qed.

Lemma land_lxor_ones (a b k : Z) :
  Z.lxor (Z.land a (Z.ones k)) (Z.land b (Z.ones k)) = Z.land (Z.lxor a b) (Z.ones k).
Proof.
  apply Z.bits_inj'. intros i Hi.
  rewrite Z.lxor_spec, !Z.land_spec, Z.lxor_spec.
  by destruct (Z.testbit a i), (Z.testbit b i), (Z.testbit (Z.ones k) i).
Qed.

(** The bits from position [n] on of a register holding fewer than
    [64 + w] bits, gathered from its two lanes. *)
Lemma extract_shift (v n w : Z) :
  0 < n < 64 -> 0 <= w <= n -> 0 <= v < 2 ^ (64 + w) ->
  Z.lor (shl64 (Z.land (lane64 v 1) (Z.ones w)) (64 - n))
        (Z.shiftr (lane64 v 0) n)
  = Z.shiftr v n.
Proof.
  intros Hn Hw Hv. unfold shl64, lane64.
  rewrite Z.mul_0_r, Z.mul_1_r, Z.shiftr_0_r.
  apply Z.bits_inj'. intros i Hi.
  rewrite Z.lor_spec, Z.land_spec, !Z.shiftr_spec, Z.land_spec by lia.
  rewrite !Z.testbit_ones_nonneg by lia.
  destruct (Z.lt_ge_cases i (64 - n)) as [Hlo|Hhi].
  - rewrite Z.shiftl_spec_low by done.
    rewrite (proj2 (Z.ltb_lt (i + n) 64)) by lia.
    by rewrite andb_true_r.
  - rewrite Z.shiftl_spec, !Z.land_spec, Z.shiftr_spec by lia.
    rewrite !Z.testbit_ones_nonneg by lia.
    replace (i - (64 - n) + 64) with (i + n) by lia.
    rewrite (proj2 (Z.ltb_ge (i + n) 64)) by lia.
    rewrite andb_false_r, orb_false_r.
    destruct (Z.testbit v (i + n)) eqn:E; [|done].
    assert (i + n < 64 + w).
    { destruct (Z.lt_ge_cases (i + n) (64 + w)); [done|].
      rewrite (testbit_above v (64 + w)) in E by lia. done. }
    rewrite !(proj2 (Z.ltb_lt _ _)) by lia. done.
Qed.

Lemma P_GF2_32_eq : P_GF2_32 = Z.lxor (2 ^ 32) 141.
Proof. reflexivity. Qed.
Lemma P_GF2_40_eq : P_GF2_40 = Z.lxor (2 ^ 40) 57.
Proof. reflexivity. Qed.
Lemma P_GF2_48_eq : P_GF2_48 = Z.lxor (2 ^ 48) 45.
Proof. reflexivity. Qed.

(** Whether the low lane of a register is negative as a [long long] is
    decided by bit 63 of the register. *)
Lemma lane_lo_sign (t : Z) :
  Z.testbit t 63 = false -> lane64 t 0 < 2 ^ 63.
Proof.
  intros Ht. pose proof (lane64_range t 0) as Hr.
  destruct (Z.lt_ge_cases (lane64 t 0) (2 ^ 63)) as [|Hge]; [done|].
  assert (Z.testbit (lane64 t 0) 63 = true) as Hb.
  { apply Z.testbit_true; [lia|].
    assert (lane64 t 0 / 2 ^ 63 = 1) as ->; [|done].
    symmetry. apply (Z.div_unique _ _ 1 (lane64 t 0 - 2 ^ 63)); lia. }
  rewrite extract_lo, Z.land_spec, Ht in Hb. done.
Qed.

(** With bit 63 clear the arithmetic shift of the low lane is the logical
    one. *)
Lemma extract_lo_shiftr (t k : Z) :
  0 <= k -> Z.testbit t 63 = false ->
  uint64_of (Z.shiftr (_mm_extract_epi64 t 0) k) = Z.shiftr (lane64 t 0) k.
Proof.
  intros Hk Ht. rewrite extract_nonneg by (by apply lane_lo_sign).
  pose proof (lane64_range t 0) as Hr.
  apply uint64_of_small. rewrite Z.shiftr_div_pow2 by done.
  pose proof (pow2_pos k Hk).
  split; [apply Z.div_pos; lia|].
  apply Z.div_lt_upper_bound; nia.
Qed.

(** With bit 63 set the arithmetic shift fills the upper [k] bits of the
    shifted lane with copies of the sign bit. *)
Lemma extract_lo_shiftr_negative (t k : Z) :
  0 <= k <= 64 -> Z.testbit t 63 = true ->
  uint64_of (Z.shiftr (_mm_extract_epi64 t 0) k)
  = Z.lor (Z.shiftr (lane64 t 0) k) (Z.shiftl (Z.ones k) (64 - k)).
Proof.
  intros Hk Ht. pose proof (lane64_range t 0) as Hr.
  assert (Z.testbit (lane64 t 0) 63 = true) as Hb.
  { by rewrite extract_lo, Z.land_spec, Ht. }
  assert (2 ^ 63 <= lane64 t 0) as Hge.
  { destruct (Z.lt_ge_cases (lane64 t 0) (2 ^ 63)) as [Hlt|]; [|done].
    rewrite (testbit_above (lane64 t 0) 63) in Hb by lia. done. }
  rewrite extract_negative by done.
  unfold uint64_of. rewrite <- Z.land_ones by lia.
  apply Z.bits_inj'. intros i Hi.
  rewrite Z.land_spec, Z.lor_spec, !Z.shiftr_spec by lia.
  rewrite Z.testbit_ones_nonneg by lia.
  destruct (Z.lt_ge_cases i 64) as [Hlo|Hhi].
  - rewrite (proj2 (Z.ltb_lt i 64)) by lia. rewrite andb_true_r.
    replace (lane64 t 0 - 2 ^ 64) with (lane64 t 0 + (-1) * 2 ^ 64) by lia.
    destruct (Z.lt_ge_cases (i + k) 64) as [Hin|Hout].
    + rewrite Z.shiftl_spec_low by lia. rewrite orb_false_r.
      rewrite <- (Z.mod_pow2_bits_low (lane64 t 0 + -1 * 2 ^ 64) 64 (i + k))
        by lia.
      rewrite Z.mod_add by lia. by rewrite Z.mod_pow2_bits_low by lia.
    + rewrite Z.shiftl_spec by lia.
      rewrite Z.testbit_ones_nonneg by lia.
      rewrite (proj2 (Z.ltb_lt (i - (64 - k)) k)) by lia.
      rewrite orb_true_r.
      rewrite Z.bits_above_log2_neg; [done|lia|].
      set (y := Z.pred (- (lane64 t 0 + -1 * 2 ^ 64))).
      assert (0 <= y < 2 ^ 63) as Hy by (unfold y; lia).
      destruct (Z.eq_dec y 0) as [->|Hy0]; [simpl; lia|].
      assert (Z.log2 y < 63) by (apply Z.log2_lt_pow2; lia). lia.
  - rewrite (proj2 (Z.ltb_ge i 64)) by lia. rewrite andb_false_r.
    rewrite (testbit_above (lane64 t 0) 64) by lia.
    rewrite Z.shiftl_spec by lia.
    rewrite Z.testbit_ones_nonneg by lia.
    rewrite (proj2 (Z.ltb_ge (i - (64 - k)) k)) by lia. done.
Qed.

Lemma reduce_GF2_32_correct (c : Z) :
  0 <= c < 2 ^ 63 ->
  reduce_GF2_32 c = gf2_mod P_GF2_32 c
  /\ 0 <= reduce_GF2_32 c < 2 ^ 32
  /\ exists q, 0 <= q < 2 ^ 63 /\ reduce_GF2_32 c = Z.lxor c (clmul q P_GF2_32).
Proof.
  intros Hc.
  destruct (barrett_fold 32 8 141 ltac:(lia) ltac:(lia) ltac:(lia) ltac:(lia) c
              ltac:(lia)) as (Hh & Hq & Hb & Heq).
  rewrite <- P_GF2_32_eq in *.
  cbv zeta in *.
  assert (reduce_GF2_32 c
          = Z.lxor c (clmul (Z.shiftr (clmul (Z.shiftr c 32) P_GF2_32) 32)
                       P_GF2_32)) as ->;
    [|rewrite <- Heq; split; [reflexivity|]; split; [exact Hb|];
      eexists; split; [|reflexivity]; lia].
  unfold reduce_GF2_32. cbv zeta. rewrite !extract_uint64.
  rewrite (extract_lo_small c) by lia.
  assert (0 <= P_GF2_32 < 2 ^ 33) as HP by (by vm_compute).
  pose proof (clmul_bound (Z.shiftr c 32) P_GF2_32 31 33 ltac:(lia) HP
                ltac:(lia) ltac:(lia)) as HT1.
  rewrite (extract_lo_small (clmul (Z.shiftr c 32) P_GF2_32)) by lia.
  pose proof (clmul_bound _ P_GF2_32 31 33 Hq HP ltac:(lia) ltac:(lia)) as HT2.
  rewrite extract_lo_small by lia.
  change 0xFFFFFFFF with (Z.ones 32). rewrite Z.land_comm.
  apply land_ones_small; lia.
Qed.

(** [reduce_GF2_40] and [reduce_GF2_48] compute the remainder of every
    accumulator whose bit 63 is clear. *)
Lemma reduce_GF2_40_correct (c : Z) :
  0 <= c < 2 ^ 79 -> Z.testbit c 63 = false ->
  reduce_GF2_40 c = gf2_mod P_GF2_40 c
  /\ 0 <= reduce_GF2_40 c < 2 ^ 40
  /\ exists q, 0 <= q < 2 ^ 63 /\ reduce_GF2_40 c = Z.lxor c (clmul q P_GF2_40).
Proof.
  intros Hc Hsign.
  destruct (barrett_fold 40 6 57 ltac:(lia) ltac:(lia) ltac:(lia) ltac:(lia) c
              ltac:(lia)) as (Hh & Hq & Hb & Heq).
  assert (Z.testbit (clmul (Z.shiftr c 40) (Z.lxor (2 ^ 40) 57)) 63
          = Z.testbit c 63) as HT1s
    by (apply (quotient_estimate_sign 40 6 57); lia).
  rewrite Hsign in HT1s.
  rewrite <- P_GF2_40_eq in *.
  cbv zeta in *.
  assert (reduce_GF2_40 c
          = Z.lxor c (clmul (Z.shiftr (clmul (Z.shiftr c 40) P_GF2_40) 40)
                       P_GF2_40)) as ->;
    [|rewrite <- Heq; split; [reflexivity|]; split; [exact Hb|];
      eexists; split; [|reflexivity]; lia].
  unfold reduce_GF2_40. cbv zeta. rewrite !extract_uint64.
  change 0xFFFF with (Z.ones 16). change 24 with (64 - 40).
  rewrite (extract_shift c 40 16) by lia.
  assert (0 <= P_GF2_40 < 2 ^ 41) as HP by (by vm_compute).
  pose proof (clmul_bound (Z.shiftr c 40) P_GF2_40 39 41 ltac:(lia) HP
                ltac:(lia) ltac:(lia)) as HT1.
  rewrite extract_lo_shiftr by (done || lia).
  rewrite (extract_shift _ 40 16) by lia.
  rewrite !extract_lo, land_lxor_ones.
  change 0xFFFFFFFFFF with (Z.ones 40). rewrite Z.land_comm.
  rewrite (land_ones_small _ 64) by lia.
  apply land_ones_small; lia.
Qed.

Lemma reduce_GF2_48_correct (c : Z) :
  0 <= c < 2 ^ 95 -> Z.testbit c 63 = false ->
  reduce_GF2_48 c = gf2_mod P_GF2_48 c
  /\ 0 <= reduce_GF2_48 c < 2 ^ 48
  /\ exists q, 0 <= q < 2 ^ 63 /\ reduce_GF2_48 c = Z.lxor c (clmul q P_GF2_48).
Proof.
  intros Hc Hsign.
  destruct (barrett_fold 48 6 45 ltac:(lia) ltac:(lia) ltac:(lia) ltac:(lia) c
              ltac:(lia)) as (Hh & Hq & Hb & Heq).
  assert (Z.testbit (clmul (Z.shiftr c 48) (Z.lxor (2 ^ 48) 45)) 63
          = Z.testbit c 63) as HT1s
    by (apply (quotient_estimate_sign 48 6 45); lia).
  rewrite Hsign in HT1s.
  rewrite <- P_GF2_48_eq in *.
  cbv zeta in *.
  assert (reduce_GF2_48 c
          = Z.lxor c (clmul (Z.shiftr (clmul (Z.shiftr c 48) P_GF2_48) 48)
                       P_GF2_48)) as ->;
    [|rewrite <- Heq; split; [reflexivity|]; split; [exact Hb|];
      eexists; split; [|reflexivity]; lia].
  unfold reduce_GF2_48. cbv zeta. rewrite !extract_uint64.
  change 0xFFFFFFFF with (Z.ones 32). change 16 with (64 - 48).
  rewrite (extract_shift c 48 32) by lia.
  assert (0 <= P_GF2_48 < 2 ^ 49) as HP by (by vm_compute).
  pose proof (clmul_bound (Z.shiftr c 48) P_GF2_48 47 49 ltac:(lia) HP
                ltac:(lia) ltac:(lia)) as HT1.
  rewrite extract_lo_shiftr by (done || lia).
  rewrite (extract_shift _ 48 32) by lia.
  rewrite !extract_lo, land_lxor_ones.
  change 0xFFFFFFFFFFFFFF with (Z.ones 56). rewrite Z.land_comm.
  rewrite (land_ones_small _ 64) by lia.
  apply land_ones_small; lia.
Qed.

(** * The field configuration *)

Lemma lut_copy_half_app (pow : Z) (tbl rest : list Z) (j : nat) :
  (j <= length tbl)%nat -> (j <= length rest)%nat ->
  foldl (fun lut idx => <[(length tbl + idx)%nat := gf_add (lut !!! idx) pow]> lut)
    (tbl ++ rest) (seq 0 j)
  = tbl ++ map (fun v => Z.lxor v pow) (take j tbl) ++ drop j rest.
Proof.
  induction j as [|j IH]; intros Hj Hr.
  - by rewrite take_0, drop_0.
  - rewrite seq_S, foldl_app, IH by lia. simpl.
    destruct (lookup_lt_is_Some_2 tbl j ltac:(lia)) as [x Hx].
    destruct (lookup_lt_is_Some_2 rest j ltac:(lia)) as [y Hy].
    rewrite (take_S_r _ _ _ Hx), (drop_S _ _ _ Hy), map_app. simpl.
    rewrite lookup_total_app_l by lia.
    rewrite (list_lookup_total_correct _ _ _ Hx).
    rewrite insert_app_r, <- app_assoc. f_equal.
    replace j with (length (map (fun v => Z.lxor v pow) (take j tbl)) + 0)%nat at 1
      by (rewrite length_map, length_take; lia).
    rewrite insert_app_r. done.
Qed.

Lemma lut_copy_half_spec (pow : Z) (tbl rest : list Z) :
  (length tbl <= length rest)%nat ->
  lut_copy_half (length tbl) pow (tbl ++ rest)
  = tbl ++ map (fun v => Z.lxor v pow) tbl ++ drop (length tbl) rest.
Proof.
  intros Hr. unfold lut_copy_half.
  rewrite lut_copy_half_app by lia. by rewrite firstn_all.
Qed.

Lemma foldl_cons {A B : Type} (f : A -> B -> A) (a : A) (x : B) (l : list B) :
  foldl f a (x :: l) = foldl f (f a x) l.
Proof. reflexivity. Qed.

Lemma lut_fill_outer (st : field_state) (g : Z) (lut0 : list Z) (cnt b : nat)
    (tbl : list Z) (pow : Z) :
  length tbl = (2 ^ b)%nat -> (2 ^ (b + cnt) <= length lut0)%nat ->
  foldl (fun '(lut, pow) bit =>
           (lut_copy_half (2 ^ bit) pow lut, gf_mul st pow g))
        (tbl ++ drop (2 ^ b) lut0, pow) (seq b cnt)
  = (fst (foldl (fun '(tbl, pow) (_ : nat) =>
                   (tbl ++ map (fun v => Z.lxor v pow) tbl,
                    reduce st (clmul pow g)))
                (tbl, pow) (seq b cnt))
       ++ drop (2 ^ (b + cnt)) lut0,
     snd (foldl (fun '(tbl, pow) (_ : nat) =>
                   (tbl ++ map (fun v => Z.lxor v pow) tbl,
                    reduce st (clmul pow g)))
                (tbl, pow) (seq b cnt))).
Proof.
  revert b tbl pow. induction cnt as [|cnt IH]; intros b tbl pow Hlen Hle.
  - by rewrite Nat.add_0_r.
  - change (seq b (S cnt)) with (b :: seq (S b) cnt).
    rewrite !foldl_cons. cbv beta iota zeta.
    assert (2 ^ S b = 2 ^ b + 2 ^ b)%nat as Hpow by (cbn [Nat.pow]; lia).
    assert (2 ^ S b <= 2 ^ (b + S cnt))%nat as Hmono
      by (apply Nat.pow_le_mono_r; lia).
    rewrite <- Hlen.
    rewrite lut_copy_half_spec by (rewrite length_drop; lia).
    rewrite drop_drop, Hlen, <- Hpow, app_assoc.
    unfold gf_mul at 1.
    rewrite IH; cycle 1.
    { rewrite length_app, length_map. lia. }
    { by replace (S b + cnt)%nat with (b + S cnt)%nat by lia. }
    by replace (S b + cnt)%nat with (b + S cnt)%nat by lia.
Qed.

(** The table built by [init_lifting_lut] does not depend on the previous
    contents of the array. *)
Lemma init_lifting_lut_table (st : field_state) (g : Z) :
  wf_state st ->
  lifting_lut (init_lifting_lut st g) = lift_table (reduce st) g.
Proof.
  unfold wf_state. intros Hwf. unfold init_lifting_lut, lift_table.
  destruct (lifting_lut st) as [|x0 [|x1 lut]] eqn:E; [done..|].
  cbn [length] in Hwf.
  change (<[1%nat:=1]> (<[0%nat:=0]> (x0 :: x1 :: lut)))
    with ([0; 1] ++ drop (2 ^ 1) (x0 :: x1 :: lut)).
  rewrite (lut_fill_outer st g (x0 :: x1 :: lut) 7 1 [0; 1] g);
    [|done|cbn [length]; rewrite Hwf; done].
  cbn [lifting_lut fst].
  rewrite drop_ge, app_nil_r; [done|].
  cbn [length]. rewrite Hwf. done.
Qed.

Lemma init_lifting_lut_reduce (st : field_state) (g : Z) :
  reduce (init_lifting_lut st g) = reduce st.
Proof. unfold init_lifting_lut. by destruct (foldl _ _ _). Qed.

Lemma init_lifting_lut_byte_size (st : field_state) (g : Z) :
  byte_size (init_lifting_lut st g) = byte_size st.
Proof. unfold init_lifting_lut. by destruct (foldl _ _ _). Qed.

Lemma field_state_eq (s1 s2 : field_state) :
  reduce s1 = reduce s2 -> byte_size s1 = byte_size s2 ->
  lifting_lut s1 = lifting_lut s2 -> s1 = s2.
Proof. destruct s1, s2. simpl. by intros -> -> ->. Qed.

Lemma init_extension_field_ok (instance : banquet_instance_t) (st0 : field_state) :
  wf_state st0 ->
  lambda instance = 4 \/ lambda instance = 5 \/ lambda instance = 6 ->
  init_extension_field instance st0 = Ok (config (lambda instance)).
Proof.
  intros Hwf Hlam. unfold init_extension_field.
  destruct Hlam as [-> | [-> | ->]]; f_equal; apply field_state_eq;
    rewrite ?init_lifting_lut_reduce, ?init_lifting_lut_byte_size,
      ?init_lifting_lut_table; done.
Qed.

Lemma init_extension_field_throw (instance : banquet_instance_t) (st0 : field_state) :
  lambda instance <> 4 -> lambda instance <> 5 -> lambda instance <> 6 ->
  init_extension_field instance st0
  = Throw (runtime_error "modulus for that specific lambda not implemented.").
Proof.
  intros H4 H5 H6. unfold init_extension_field.
  destruct (lambda instance) as [|p|p]; [done| |done].
  do 3 (destruct p as [p|p|]; try done).
Qed.

Lemma active_config (lam : Z) (st : field_state) :
  active lam st -> (lam = 4 \/ lam = 5 \/ lam = 6) /\ st = config lam.
Proof.
  intros (instance & st0 & Hwf & <- & Hinit).
  destruct (Z.eq_dec (lambda instance) 4) as [H4|H4];
    [|destruct (Z.eq_dec (lambda instance) 5) as [H5|H5];
      [|destruct (Z.eq_dec (lambda instance) 6) as [H6|H6]]].
  4: { by rewrite init_extension_field_throw in Hinit. }
  all: rewrite init_extension_field_ok in Hinit by tauto.
  all: split; [tauto|congruence].
Qed.

Lemma config_active (lam : Z) :
  lam = 4 \/ lam = 5 \/ lam = 6 -> active lam (config lam).
Proof.
  intros Hlam.
  exists (mk_instance AES128_PARAMS 32 16 31 64 10 20 lam Banquet_L1_Param1),
    initial_state.
  split; [done|]. split; [done|].
  by apply init_extension_field_ok.
Qed.

Lemma fits_config (lam a : Z) :
  lam = 4 \/ lam = 5 \/ lam = 6 ->
  fits (config lam) a <-> 0 <= a < 2 ^ (8 * lam).
Proof. intros [-> | [-> | ->]]; reflexivity. Qed.

(** * The reference field

    The field of each [lambda] the laws of the arithmetic are proved in.
    Under [lambda = 4] it is the configuration of the program. *)

Lemma config_field_of (lam : Z) : lam = 4 -> config lam = field_of lam.
Proof. by intros ->. Qed.

Lemma byte_size_field_of (lam : Z) :
  lam = 4 \/ lam = 5 \/ lam = 6 -> byte_size (field_of lam) = lam.
Proof. by intros [-> | [-> | ->]]. Qed.

Lemma fits_field_of (lam a : Z) :
  lam = 4 \/ lam = 5 \/ lam = 6 ->
  fits (field_of lam) a <-> 0 <= a < 2 ^ (8 * lam).
Proof. intros [-> | [-> | ->]]; reflexivity. Qed.

Lemma fits_config_field_of (lam a : Z) :
  lam = 4 \/ lam = 5 \/ lam = 6 ->
  fits (config lam) a <-> fits (field_of lam) a.
Proof. intros [-> | [-> | ->]]; reflexivity. Qed.

(** The remainder of an accumulator below [2^(16 lam - 1)] fits, and
    differs from the accumulator by a multiple of the modulus. *)
Lemma fits_to_field_of (lam : Z) :
  lam = 4 \/ lam = 5 \/ lam = 6 ->
  forall a, fits (config lam) a -> fits (field_of lam) a.
Proof. intros [-> | [-> | ->]] a H; exact H. Qed.

Lemma fits_to_config (lam : Z) :
  lam = 4 \/ lam = 5 \/ lam = 6 ->
  forall a, fits (field_of lam) a -> fits (config lam) a.
Proof. intros [-> | [-> | ->]] a H; exact H. Qed.

Lemma Forall_fits_to_field_of (lam : Z) (l : list Z) :
  lam = 4 \/ lam = 5 \/ lam = 6 ->
  Forall (fits (config lam)) l -> Forall (fits (field_of lam)) l.
Proof.
  intros Hlam Hl. eapply Forall_impl; [exact Hl|].
  intros a. by apply fits_to_field_of.
Qed.

Lemma Forall_fits_to_config (lam : Z) (l : list Z) :
  lam = 4 \/ lam = 5 \/ lam = 6 ->
  Forall (fits (field_of lam)) l -> Forall (fits (config lam)) l.
Proof.
  intros Hlam Hl. eapply Forall_impl; [exact Hl|].
  intros a. by apply fits_to_config.
Qed.

Lemma gf2_mod_modulus (lam c : Z) :
  lam = 4 \/ lam = 5 \/ lam = 6 ->
  0 <= c < 2 ^ (16 * lam - 1) ->
  0 <= gf2_mod (modulus lam) c < 2 ^ (8 * lam)
  /\ exists q, 0 <= q < 2 ^ 63
              /\ gf2_mod (modulus lam) c = Z.lxor c (clmul q (modulus lam)).
Proof.
  intros [-> | [-> | ->]] Hc.
  - change (modulus 4) with (Z.lxor (2 ^ 32) 141). change (8 * 4) with 32.
    destruct (barrett_fold 32 8 141 ltac:(lia) ltac:(lia) ltac:(lia) ltac:(lia)
                c ltac:(lia)) as (_ & Hq & Hb & Heq).
    cbv zeta in *. rewrite <- Heq. split; [exact Hb|].
    eexists; split; [|reflexivity]. lia.
  - change (modulus 5) with (Z.lxor (2 ^ 40) 57). change (8 * 5) with 40.
    destruct (barrett_fold 40 6 57 ltac:(lia) ltac:(lia) ltac:(lia) ltac:(lia)
                c ltac:(lia)) as (_ & Hq & Hb & Heq).
    cbv zeta in *. rewrite <- Heq. split; [exact Hb|].
    eexists; split; [|reflexivity]. lia.
  - change (modulus 6) with (Z.lxor (2 ^ 48) 45). change (8 * 6) with 48.
    destruct (barrett_fold 48 6 45 ltac:(lia) ltac:(lia) ltac:(lia) ltac:(lia)
                c ltac:(lia)) as (_ & Hq & Hb & Heq).
    cbv zeta in *. rewrite <- Heq. split; [exact Hb|].
    eexists; split; [|reflexivity]. lia.
Qed.

Lemma reduce_field_of (lam c : Z) :
  lam = 4 \/ lam = 5 \/ lam = 6 ->
  0 <= c < 2 ^ (16 * lam - 1) ->
  reduce (field_of lam) c = gf2_mod (modulus lam) c.
Proof.
  intros [-> | [-> | ->]] Hc; [|reflexivity..].
  change (modulus 4) with P_GF2_32.
  change (reduce (field_of 4)) with reduce_GF2_32.
  apply reduce_GF2_32_correct. lia.
Qed.

Lemma gf_mul_field_of (lam a b : Z) :
  lam = 4 \/ lam = 5 \/ lam = 6 ->
  fits (field_of lam) a -> fits (field_of lam) b ->
  gf_mul (field_of lam) a b = gf2_mod (modulus lam) (clmul a b)
  /\ fits (field_of lam) (gf_mul (field_of lam) a b)
  /\ exists q,
       0 <= q < 2 ^ 63
       /\ gf_mul (field_of lam) a b = Z.lxor (clmul a b) (clmul q (modulus lam)).
Proof.
  intros Hlam Ha Hb.
  rewrite !fits_field_of in * by done.
  unfold gf_mul.
  assert (0 <= clmul a b < 2 ^ (16 * lam - 1)) as Hc.
  { pose proof (clmul_bound a b (8 * lam) (8 * lam) Ha Hb ltac:(lia) ltac:(lia)).
    by replace (16 * lam - 1) with (8 * lam + 8 * lam - 1) by lia. }
  rewrite reduce_field_of by done.
  split; [done|]. by apply gf2_mod_modulus.
Qed.

(** * Multiplication under an active configuration

    The product of the program is the product of the reference field
    whenever the reduction routine is [reduce_GF2_32], or bit 63 of the
    carry-less product is clear. *)

Lemma reduce_config_exact (lam c : Z) :
  lam = 4 \/ lam = 5 \/ lam = 6 ->
  0 <= c < 2 ^ (16 * lam - 1) ->
  lam = 4 \/ Z.testbit c 63 = false ->
  reduce (config lam) c = gf2_mod (modulus lam) c.
Proof.
  intros [-> | [-> | ->]] Hc Hsign.
  - change (modulus 4) with P_GF2_32.
    change (reduce (config 4)) with reduce_GF2_32.
    apply reduce_GF2_32_correct. lia.
  - change (modulus 5) with P_GF2_40.
    change (reduce (config 5)) with reduce_GF2_40.
    destruct Hsign as [?|Hsign]; [lia|].
    apply reduce_GF2_40_correct; [lia|done].
  - change (modulus 6) with P_GF2_48.
    change (reduce (config 6)) with reduce_GF2_48.
    destruct Hsign as [?|Hsign]; [lia|].
    apply reduce_GF2_48_correct; [lia|done].
Qed.

Lemma gf_mul_config_exact (lam a b : Z) :
  lam = 4 \/ lam = 5 \/ lam = 6 ->
  fits (config lam) a -> fits (config lam) b ->
  lam = 4 \/ Z.testbit (clmul a b) 63 = false ->
  gf_mul (config lam) a b = gf_mul (field_of lam) a b.
Proof.
  intros Hlam Ha Hb Hsign.
  rewrite !fits_config in * by done.
  assert (0 <= clmul a b < 2 ^ (16 * lam - 1)) as Hc.
  { pose proof (clmul_bound a b (8 * lam) (8 * lam) Ha Hb ltac:(lia) ltac:(lia)).
    by replace (16 * lam - 1) with (8 * lam + 8 * lam - 1) by lia. }
  unfold gf_mul.
  by rewrite reduce_config_exact, reduce_field_of.
Qed.

(** The product of two field elements under the program's configuration:
    the carry-less product modulo the modulus, whenever [lambda] is 4 or
    bit 63 of the carry-less product is clear. *)
Lemma gf_mul_config (lam a b : Z) :
  lam = 4 \/ lam = 5 \/ lam = 6 ->
  fits (config lam) a -> fits (config lam) b ->
  lam = 4 \/ Z.testbit (clmul a b) 63 = false ->
  gf_mul (config lam) a b = gf2_mod (modulus lam) (clmul a b)
  /\ fits (config lam) (gf_mul (config lam) a b)
  /\ exists q,
       0 <= q < 2 ^ 63
       /\ gf_mul (config lam) a b = Z.lxor (clmul a b) (clmul q (modulus lam)).
Proof.
  intros Hlam Ha Hb Hsign.
  rewrite gf_mul_config_exact by done.
  destruct (gf_mul_field_of lam a b Hlam (fits_to_field_of lam Hlam a Ha)
              (fits_to_field_of lam Hlam b Hb)) as (Heq & Hf & Hq).
  split; [done|]. split; [by apply fits_to_config|done].
Qed.

(** C1: [multiply(a, b)] is not the carry-less product modulo the modulus
    under [lambda] 5 and 6.  The low lane of the quotient estimate is
    shifted as a signed number in [reduce_GF2_40] and [reduce_GF2_48], and
    a product whose bit 63 is set is reduced to another value than its
    remainder: under [lambda = 5] the product of [x^39] and [x^24] comes
    out as 192937984, the remainder of [x^63] is 478150656; under
    [lambda = 6] a product of two elements that fit in 48 bits can have
    bits set at positions 48 and above. *)
Theorem multiply_sign_extension :
  active 5 (config 5)
  /\ fits (config 5) (2 ^ 39) /\ fits (config 5) (2 ^ 24)
  /\ clmul (2 ^ 39) (2 ^ 24) = 2 ^ 63
  /\ gf_mul (config 5) (2 ^ 39) (2 ^ 24) = 192937984
  /\ gf2_mod (modulus 5) (clmul (2 ^ 39) (2 ^ 24)) = 478150656
  /\ active 6 (config 6)
  /\ fits (config 6) 235477299530035 /\ fits (config 6) 45350311783564
  /\ gf_mul (config 6) 235477299530035 45350311783564 = 892130402956130
  /\ gf2_mod (modulus 6) (clmul 235477299530035 45350311783564)
     <> 892130402956130
  /\ ~ fits (config 6) (gf_mul (config 6) 235477299530035 45350311783564).
Proof.
  split; [apply config_active; lia|].
  do 5 (split; [by vm_compute|]).
  split; [apply config_active; lia|].
  do 4 (split; [by vm_compute|]).
  unfold fits. vm_compute. intros [_ H]. done.
Qed.

(** * The placeholder inverse *)

(** C6: [inverse] returns its argument unchanged; it is not the
    multiplicative inverse: under every active configuration there is an
    element [a] with [a * a <> a] for which [inverse(a) * a <> 1]. *)
Theorem inverse_is_identity :
  (forall a : Z, inverse a = a)
  /\ (forall lam st, active lam st ->
        exists a, fits st a /\ gf_mul st a a <> a /\ gf_mul st (inverse a) a <> 1).
Proof.
  split; [done|].
  intros lam st Hact. destruct (active_config lam st Hact) as [Hlam ->].
  exists 2. destruct Hlam as [-> | [-> | ->]]; by vm_compute.
Qed.

Lemma inverse_is_identity_witness :
  exists a, fits (config 5) a /\ gf_mul (config 5) a a <> a
            /\ gf_mul (config 5) (inverse a) a <> 1.
Proof.
  apply (proj2 inverse_is_identity 5 (config 5)).
  apply config_active. lia.
Defined.

(** * Configuration *)

Lemma lift_table_length (lam : Z) :
  lam = 4 \/ lam = 5 \/ lam = 6 -> length (lifting_lut (config lam)) = 256%nat.
Proof. intros [-> | [-> | ->]]; by vm_compute. Qed.

Lemma lift_table_length_field_of (lam : Z) :
  lam = 4 \/ lam = 5 \/ lam = 6 -> length (lifting_lut (field_of lam)) = 256%nat.
Proof. intros [-> | [-> | ->]]; by vm_compute. Qed.

(** C7: [init_extension_field] throws the runtime error for an unsupported
    [lambda] whenever [lambda] is not 4, 5 or 6; for [lambda] 4, 5 or 6 it
    succeeds, sets [byte_size] to [lambda], selects the reduction routine
    of that [lambda] and rebuilds the lifting table of 256 entries from
    the generator of that [lambda]. *)
Theorem init_extension_field_spec
    (instance : banquet_instance_t) (st0 : field_state) :
  wf_state st0 ->
  (lambda instance <> 4 /\ lambda instance <> 5 /\ lambda instance <> 6 ->
   init_extension_field instance st0
   = Throw (runtime_error "modulus for that specific lambda not implemented."))
  /\ (lambda instance = 4 \/ lambda instance = 5 \/ lambda instance = 6 ->
      exists st,
        init_extension_field instance st0 = Ok st
        /\ byte_size st = lambda instance
        /\ reduce st = match lambda instance with
                       | 4 => reduce_GF2_32
                       | 5 => reduce_GF2_40
                       | _ => reduce_GF2_48
                       end
        /\ length (lifting_lut st) = 256%nat
        /\ lifting_lut st = lift_table (reduce st) (generator (lambda instance))).
Proof.
  intros Hwf. split.
  - intros (H4 & H5 & H6). by apply init_extension_field_throw.
  - intros Hlam. exists (config (lambda instance)).
    split; [by apply init_extension_field_ok|].
    pose proof (lift_table_length _ Hlam).
    destruct Hlam as [-> | [-> | ->]]; done.
Qed.

Lemma init_extension_field_spec_witness :
  (lambda (mk_instance AES128_PARAMS 32 16 29 64 10 20 5 Banquet_L1_Param3) <> 4
   /\ lambda (mk_instance AES128_PARAMS 32 16 29 64 10 20 5 Banquet_L1_Param3) <> 5
   /\ lambda (mk_instance AES128_PARAMS 32 16 29 64 10 20 5 Banquet_L1_Param3) <> 6 ->
   init_extension_field
     (mk_instance AES128_PARAMS 32 16 29 64 10 20 5 Banquet_L1_Param3)
     initial_state
   = Throw (runtime_error "modulus for that specific lambda not implemented."))
  /\ (lambda (mk_instance AES128_PARAMS 32 16 29 64 10 20 5 Banquet_L1_Param3) = 4
      \/ lambda (mk_instance AES128_PARAMS 32 16 29 64 10 20 5 Banquet_L1_Param3) = 5
      \/ lambda (mk_instance AES128_PARAMS 32 16 29 64 10 20 5 Banquet_L1_Param3) = 6 ->
      exists st,
        init_extension_field
          (mk_instance AES128_PARAMS 32 16 29 64 10 20 5 Banquet_L1_Param3)
          initial_state = Ok st
        /\ byte_size st
           = lambda (mk_instance AES128_PARAMS 32 16 29 64 10 20 5 Banquet_L1_Param3)
        /\ reduce st
           = match lambda (mk_instance AES128_PARAMS 32 16 29 64 10 20 5
                             Banquet_L1_Param3) with
             | 4 => reduce_GF2_32
             | 5 => reduce_GF2_40
             | _ => reduce_GF2_48
             end
        /\ length (lifting_lut st) = 256%nat
        /\ lifting_lut st
           = lift_table (reduce st)
               (generator
                  (lambda (mk_instance AES128_PARAMS 32 16 29 64 10 20 5
                             Banquet_L1_Param3)))).
Proof.
  apply (init_extension_field_spec
           (mk_instance AES128_PARAMS 32 16 29 64 10 20 5 Banquet_L1_Param3)
           initial_state).
  reflexivity.
Defined.

(** * Parameter sets *)

(** C9: [banquet_instance_get] throws the runtime error for an invalid
    parameter set for every identifier outside the enumerated range, the
    reserved identifier 0 and every identifier from the maximum index on
    included; for every identifier strictly between the two bounds it
    returns the entry of the table at that index, which is the record of
    that parameter set. *)
Theorem banquet_instance_get_spec (param : banquet_params_t) :
  (param <= PARAMETER_SET_INVALID \/ PARAMETER_SET_MAX_INDEX <= param ->
   banquet_instance_get param = Throw (runtime_error "invalid parameter set"))
  /\ (PARAMETER_SET_INVALID < param < PARAMETER_SET_MAX_INDEX ->
      exists instance,
        banquet_instance_get param = Ok instance
        /\ instances !! Z.to_nat param = Some instance
        /\ params instance = param
        /\ (lambda instance = 4 \/ lambda instance = 5 \/ lambda instance = 6)).
Proof.
  unfold banquet_instance_get, PARAMETER_SET_INVALID, PARAMETER_SET_MAX_INDEX.
  split.
  - intros H.
    destruct (Z.leb_spec param 0); [done|].
    destruct (Z.geb_spec param 13); [done|lia].
  - intros H.
    destruct (Z.leb_spec param 0); [lia|].
    destruct (Z.geb_spec param 13); [lia|].
    cbn [orb].
    assert (param = 1 \/ param = 2 \/ param = 3 \/ param = 4 \/ param = 5
            \/ param = 6 \/ param = 7 \/ param = 8 \/ param = 9 \/ param = 10
            \/ param = 11 \/ param = 12) as Hcases by lia.
    repeat (destruct Hcases as [-> | Hcases]); [..|subst param];
      (eexists; split; [reflexivity|]; split; [reflexivity|];
       split; [reflexivity|]; cbn; tauto).
Qed.

Lemma banquet_instance_get_spec_witness :
  (Banquet_L1_Param3 <= PARAMETER_SET_INVALID
   \/ PARAMETER_SET_MAX_INDEX <= Banquet_L1_Param3 ->
   banquet_instance_get Banquet_L1_Param3
   = Throw (runtime_error "invalid parameter set"))
  /\ (PARAMETER_SET_INVALID < Banquet_L1_Param3 < PARAMETER_SET_MAX_INDEX ->
      exists instance,
        banquet_instance_get Banquet_L1_Param3 = Ok instance
        /\ instances !! Z.to_nat Banquet_L1_Param3 = Some instance
        /\ params instance = Banquet_L1_Param3
        /\ (lambda instance = 4 \/ lambda instance = 5 \/ lambda instance = 6)).
Proof. apply (banquet_instance_get_spec Banquet_L1_Param3). Defined.

(** * Root polynomials: the empty case *)

(** C10: [build_from_roots] on an empty list of roots does not fail: it
    returns the one-element coefficient vector [1], the constant
    polynomial 1, which is the empty product of linear factors. *)
Theorem build_from_roots_empty (st : field_state) :
  build_from_roots st [] = [1]
  /\ build_from_roots st [] = monic_product st [].
Proof. split; reflexivity. Qed.

(** * Linear maps over GF(2)

    A map that is additive on the bit masks below [2^N] is determined by
    its values on the powers of two. *)

Lemma split_top_bit (a : Z) (k : Z) :
  0 <= k -> 0 <= a < 2 ^ (k + 1) ->
  a = Z.lxor (Z.land a (Z.ones k)) (if Z.testbit a k then 2 ^ k else 0).
Proof.
  intros Hk Ha. apply Z.bits_inj'. intros i Hi.
  rewrite Z.lxor_spec, Z.land_spec, Z.testbit_ones_nonneg by lia.
  destruct (Z.ltb_spec i k).
  - rewrite andb_true_r.
    destruct (Z.testbit a k); [|by rewrite Z.bits_0, xorb_false_r].
    rewrite Z.pow2_bits_false by lia. by rewrite xorb_false_r.
  - rewrite andb_false_r. simpl.
    destruct (Z.eq_dec i k) as [->|Hne].
    + destruct (Z.testbit a k); [|by rewrite Z.bits_0].
      by rewrite Z.pow2_bits_true.
    + rewrite (testbit_above a (k + 1)) by lia.
      destruct (Z.testbit a k); [|by rewrite Z.bits_0].
      rewrite Z.pow2_bits_false by lia. done.
Qed.

Lemma land_ones_bound (a k : Z) : 0 <= k -> 0 <= Z.land a (Z.ones k) < 2 ^ k.
Proof.
  intros Hk. rewrite Z.land_ones by done.
  apply Z.mod_pos_bound. by apply pow2_pos.
Qed.

Section LinearExt.

Variable N : Z.
Variables f g : Z -> Z.
Hypothesis HN : 0 <= N.
Hypothesis f_add : forall a b,
  0 <= a < 2 ^ N -> 0 <= b < 2 ^ N -> f (Z.lxor a b) = Z.lxor (f a) (f b).
Hypothesis g_add : forall a b,
  0 <= a < 2 ^ N -> 0 <= b < 2 ^ N -> g (Z.lxor a b) = Z.lxor (g a) (g b).
Hypothesis basis : forall i, 0 <= i < N -> f (2 ^ i) = g (2 ^ i).

Lemma additive_0 (h : Z -> Z) :
  (forall a b, 0 <= a < 2 ^ N -> 0 <= b < 2 ^ N ->
               h (Z.lxor a b) = Z.lxor (h a) (h b)) ->
  h 0 = 0.
Proof.
  intros Hadd. pose proof (pow2_pos N HN).
  specialize (Hadd 0 0 ltac:(lia) ltac:(lia)).
  rewrite Z.lxor_0_l in Hadd. rewrite Hadd at 1. apply Z.lxor_nilpotent.
Qed.

Lemma linear_ext_upto (k : nat) (a : Z) :
  Z.of_nat k <= N -> 0 <= a < 2 ^ Z.of_nat k -> f a = g a.
Proof.
  revert a. induction k as [|k IH]; intros a Hk Ha.
  - assert (a = 0) as -> by (simpl in Ha; lia).
    by rewrite (additive_0 f), (additive_0 g).
  - rewrite Nat2Z.inj_succ, <- Z.add_1_r in Ha.
    rewrite (split_top_bit a (Z.of_nat k)) by lia.
    pose proof (land_ones_bound a (Z.of_nat k) ltac:(lia)) as Hlo.
    assert (2 ^ Z.of_nat k < 2 ^ N) as Hlt by (apply Z.pow_lt_mono_r; lia).
    assert (0 <= (if Z.testbit a (Z.of_nat k) then 2 ^ Z.of_nat k else 0) < 2 ^ N)
      as Hhi by (destruct (Z.testbit a (Z.of_nat k)); lia).
    rewrite f_add, g_add by lia. f_equal.
    + apply IH; lia.
    + destruct (Z.testbit a (Z.of_nat k)).
      * apply basis. lia.
      * by rewrite (additive_0 f), (additive_0 g).
Qed.

Lemma linear_ext (a : Z) : 0 <= a < 2 ^ N -> f a = g a.
Proof.
  intros Ha. apply (linear_ext_upto (Z.to_nat N)); rewrite Z2Nat.id; lia.
Qed.

End LinearExt.

(** * Commutativity of the carry-less product *)

Lemma clmul_bits_pow2_l (n : nat) (i b : Z) :
  0 <= i ->
  clmul_bits n (2 ^ i) b = if i <? Z.of_nat n then Z.shiftl b i else 0.
Proof.
  intros Hi. induction n as [|n IH].
  - cbn [clmul_bits]. by destruct (Z.ltb_spec i (Z.of_nat 0)); [lia|].
  - cbn [clmul_bits]. rewrite IH, Z.pow2_bits_eqb by done.
    destruct (Z.eqb_spec i (Z.of_nat n)) as [->|Hne].
    + rewrite Z.ltb_irrefl, Z.lxor_0_l.
      by destruct (Z.ltb_spec (Z.of_nat n) (Z.of_nat (S n))); [|lia].
    + rewrite Z.lxor_0_r.
      destruct (Z.ltb_spec i (Z.of_nat n)), (Z.ltb_spec i (Z.of_nat (S n)));
        lia || done.
Qed.

Lemma clmul_pow2_l (i b : Z) : 0 <= i < 64 -> clmul (2 ^ i) b = Z.shiftl b i.
Proof.
  intros Hi. unfold clmul. rewrite clmul_bits_pow2_l by lia.
  by destruct (Z.ltb_spec i (Z.of_nat 64)); [|lia].
Qed.

Lemma clmul_comm (a b : Z) :
  0 <= a < 2 ^ 64 -> 0 <= b < 2 ^ 64 -> clmul a b = clmul b a.
Proof.
  intros Ha Hb.
  apply (linear_ext 64 (fun a => clmul a b) (fun a => clmul b a)); [lia| | | |done].
  - intros. apply clmul_lxor_l.
  - intros. apply clmul_lxor_r.
  - intros i Hi. rewrite clmul_pow2_l, clmul_pow2_r by lia. done.
Qed.

Lemma clmul_1_l (b : Z) : clmul 1 b = b.
Proof.
  change 1 with (2 ^ 0). rewrite (clmul_pow2_l 0 b) by lia. apply Z.shiftl_0_r.
Qed.

(** * Linearity of the remainder *)

Lemma gf2_mod_lxor (P u v : Z) :
  0 < P -> 0 <= u -> 0 <= v ->
  gf2_mod P (Z.lxor u v) = Z.lxor (gf2_mod P u) (gf2_mod P v).
Proof.
  intros HP Hu Hv.
  set (m := Z.max (Z.log2 u) (Z.log2 v) + 1).
  pose proof (Z.log2_nonneg P). pose proof (Z.log2_nonneg u).
  pose proof (Z.log2_nonneg v).
  assert (forall x, 0 <= x -> Z.log2 x < m ->
                    0 <= x < 2 ^ (Z.log2 P + Z.of_nat (Z.to_nat m))) as Hfit.
  { intros x Hx Hlog. split; [done|].
    destruct (Z.eq_dec x 0) as [->|Hne]; [apply pow2_pos; lia|].
    apply Z.log2_lt_pow2; lia. }
  assert (0 <= Z.lxor u v) by (apply Z.lxor_nonneg; lia).
  pose proof (Z.log2_lxor u v Hu Hv).
  rewrite !(gf2_mod_fuel (Z.to_nat m)) by (done || apply Hfit; lia).
  apply poly_rem_lxor.
Qed.

Lemma gf2_mod_small (P c : Z) :
  0 < P -> 0 <= c < 2 ^ Z.log2 P -> gf2_mod P c = c.
Proof.
  intros HP Hc. rewrite (gf2_mod_fuel 0) by (done || rewrite Z.add_0_r; lia).
  done.
Qed.

(** * Ring laws of the field multiplication *)

(** Closure facts ("this value is a field element") are collected in a
    hint database and discharged by [auto with field]. *)
Create HintDb field.

Lemma modulus_range (lam : Z) :
  lam = 4 \/ lam = 5 \/ lam = 6 ->
  2 ^ (8 * lam) <= modulus lam < 2 ^ (8 * lam + 1).
Proof. intros [-> | [-> | ->]]; by vm_compute. Qed.

Lemma modulus_log2 (lam : Z) :
  lam = 4 \/ lam = 5 \/ lam = 6 -> Z.log2 (modulus lam) = 8 * lam.
Proof.
  intros Hlam. pose proof (modulus_range lam Hlam).
  apply Z.log2_unique; lia.
Qed.

Section RingLaws.

Variable lam : Z.
Hypothesis Hlam : lam = 4 \/ lam = 5 \/ lam = 6.

Local Abbreviation st := (field_of lam).
Local Abbreviation F := (fits (field_of lam)).
Local Abbreviation mul := (gf_mul (field_of lam)).

Lemma fits_range (a : Z) : F a <-> 0 <= a < 2 ^ (8 * lam).
Proof. by apply fits_field_of. Qed.

Lemma fits_64 (a : Z) : F a -> 0 <= a < 2 ^ 64.
Proof.
  rewrite fits_range. intros Ha.
  assert (2 ^ (8 * lam) <= 2 ^ 64) by (apply pow2_mono; lia). lia.
Qed.

Lemma fits_lxor (a b : Z) : F a -> F b -> F (Z.lxor a b).
Proof. rewrite !fits_range. apply lxor_bound. Qed.

Lemma fits_0 : F 0.
Proof. rewrite fits_range. pose proof (pow2_pos (8 * lam)). lia. Qed.

Lemma fits_pow2 (i : Z) : 0 <= i < 8 * lam -> F (2 ^ i).
Proof.
  intros Hi. rewrite fits_range. split; [apply Z.pow_nonneg; lia|].
  apply Z.pow_lt_mono_r; lia.
Qed.

Lemma fits_1 : F 1.
Proof. apply (fits_pow2 0). lia. Qed.

Lemma fits_2 : F 2.
Proof. apply (fits_pow2 1). lia. Qed.

Lemma mul_fits (a b : Z) : F a -> F b -> F (mul a b).
Proof. intros Ha Hb. by apply gf_mul_field_of. Qed.

Lemma mul_eq (a b : Z) :
  F a -> F b -> mul a b = gf2_mod (modulus lam) (clmul a b).
Proof. intros Ha Hb. by apply gf_mul_field_of. Qed.

Lemma mul_comm (a b : Z) : F a -> F b -> mul a b = mul b a.
Proof.
  intros Ha Hb. rewrite !mul_eq by done.
  by rewrite (clmul_comm a b) by by apply fits_64.
Qed.

Lemma mul_lxor_r (a b c : Z) :
  F a -> F b -> F c -> mul a (Z.lxor b c) = Z.lxor (mul a b) (mul a c).
Proof.
  intros Ha Hb Hc. rewrite !mul_eq by (done || by apply fits_lxor).
  pose proof (modulus_range lam Hlam). pose proof (pow2_pos (8 * lam)).
  rewrite clmul_lxor_r.
  apply gf2_mod_lxor; [lia|apply clmul_nonneg..]; by apply fits_64.
Qed.

Lemma mul_lxor_l (a b c : Z) :
  F a -> F b -> F c -> mul (Z.lxor a b) c = Z.lxor (mul a c) (mul b c).
Proof.
  intros Ha Hb Hc.
  rewrite (mul_comm (Z.lxor a b) c), (mul_comm a c), (mul_comm b c)
    by (done || by apply fits_lxor).
  by apply mul_lxor_r.
Qed.

Lemma mul_1_l (a : Z) : F a -> mul 1 a = a.
Proof.
  intros Ha. rewrite mul_eq by (done || apply fits_1).
  rewrite clmul_1_l. pose proof (modulus_range lam Hlam).
  pose proof (pow2_pos (8 * lam)).
  apply gf2_mod_small; [lia|]. rewrite modulus_log2 by done.
  by apply fits_range.
Qed.

Lemma mul_1_r (a : Z) : F a -> mul a 1 = a.
Proof. intros Ha. rewrite mul_comm by (done || apply fits_1). by apply mul_1_l. Qed.

Lemma mul_0_l (a : Z) : F a -> mul 0 a = 0.
Proof.
  intros Ha. rewrite mul_eq by (done || apply fits_0).
  rewrite clmul_0_l. pose proof (modulus_range lam Hlam).
  pose proof (pow2_pos (8 * lam)).
  apply gf2_mod_small; [lia|]. rewrite modulus_log2 by done. lia.
Qed.

Lemma mul_0_r (a : Z) : F a -> mul a 0 = 0.
Proof. intros Ha. rewrite mul_comm by (done || apply fits_0). by apply mul_0_l. Qed.

End RingLaws.

(** * Certificates checked by evaluation *)

(** Squaring [x] as many times as the field has bits gives [x] back. *)
Lemma frobenius_x_ok (lam : Z) :
  lam = 4 \/ lam = 5 \/ lam = 6 ->
  Nat.iter (Z.to_nat (8 * lam)) (gf_sqr (field_of lam)) 2 = 2.
Proof. intros [-> | [-> | ->]]; vm_compute; reflexivity. Qed.

Lemma idempotent_cert_ok (lam : Z) :
  lam = 4 \/ lam = 5 \/ lam = 6 ->
  idempotent_cert_check (field_of lam) (frobenius_cert lam) (Z.to_nat (8 * lam))
  = true.
Proof. intros [-> | [-> | ->]]; vm_compute; reflexivity. Qed.

Lemma forallb_seq (p : nat -> bool) (n : nat) (i : Z) :
  forallb p (seq 0 n) = true -> 0 <= i < Z.of_nat n -> p (Z.to_nat i) = true.
Proof.
  intros Hall Hi. rewrite forallb_forall in Hall. apply Hall.
  apply in_seq. lia.
Qed.

(** Multiples of the modulus reduce to zero. *)
Lemma gf2_mod_multiple (n P q : Z) :
  0 <= n -> 2 ^ n <= P < 2 ^ (n + 1) -> 0 <= q < 2 ^ 64 ->
  gf2_mod P (clmul q P) = 0.
Proof.
  intros Hn HP Hq. pose proof (pow2_pos n Hn).
  pose proof (clmul_nonneg q P ltac:(lia)).
  rewrite (gf2_mod_unique n P (clmul q P) q) by (rewrite ?Z.lxor_nilpotent; lia).
  apply Z.lxor_nilpotent.
Qed.

Lemma clmul_shiftl_l (a b j : Z) :
  0 <= j -> 0 <= a -> Z.shiftl a j < 2 ^ 64 -> 0 <= b < 2 ^ 64 ->
  clmul (Z.shiftl a j) b = Z.shiftl (clmul a b) j.
Proof.
  intros Hj Ha Haj Hb.
  assert (a <= Z.shiftl a j).
  { rewrite Z.shiftl_mul_pow2 by done. pose proof (pow2_pos j Hj). nia. }
  pose proof (Z.shiftl_nonneg a j).
  rewrite (clmul_comm (Z.shiftl a j) b), (clmul_comm a b) by lia.
  unfold clmul. by apply clmul_bits_shiftl_r.
Qed.

Section Associativity.

Variable lam : Z.
Hypothesis Hlam : lam = 4 \/ lam = 5 \/ lam = 6.

Local Abbreviation st := (field_of lam).
Local Abbreviation F := (fits (field_of lam)).
Local Abbreviation mul := (gf_mul (field_of lam)).

Lemma mul_2_shift (u : Z) :
  F u -> mul 2 u = gf2_mod (modulus lam) (Z.shiftl u 1).
Proof.
  intros Hu. rewrite mul_eq by (done || by apply fits_2).
  change 2 with (2 ^ 1) at 1. by rewrite clmul_pow2_l by lia.
Qed.

(** Multiplication by [x] shifts by one position and subtracts the
    modulus when the top coefficient was set. *)
Lemma mul_2_xtime (b : Z) :
  F b ->
  exists e, (e = 0 \/ e = modulus lam) /\ mul 2 b = Z.lxor (Z.shiftl b 1) e.
Proof.
  intros Hb. pose proof (modulus_range lam Hlam) as HP.
  apply (fits_range lam Hlam) in Hb.
  exists (clmul (if Z.testbit b (8 * lam - 1) then 1 else 0) (modulus lam)).
  split.
  { destruct (Z.testbit b (8 * lam - 1));
      [right; apply clmul_1_l|left; apply clmul_0_l]. }
  rewrite mul_2_shift by (by apply fits_range).
  apply (gf2_mod_unique (8 * lam)); [lia|done| | |].
  - apply Z.shiftl_nonneg. lia.
  - destruct (Z.testbit b (8 * lam - 1)); lia.
  - assert (0 <= Z.lxor (Z.shiftl b 1)
                   (clmul (if Z.testbit b (8 * lam - 1) then 1 else 0)
                      (modulus lam))) as Hnn.
    { apply Z.lxor_nonneg. split; intros _.
      - apply clmul_nonneg. lia.
      - apply Z.shiftl_nonneg. lia. }
    split; [exact Hnn|].
    apply lt_pow2_of_bits; [exact Hnn|lia|].
    intros i Hi. rewrite Z.lxor_spec, Z.shiftl_spec by lia.
    destruct (Z.eq_dec i (8 * lam)) as [->|Hne].
    + destruct (Z.testbit b (8 * lam - 1)) eqn:E.
      * rewrite clmul_1_l, top_bit by (lia || done). done.
      * by rewrite clmul_0_l, Z.bits_0.
    + rewrite (testbit_above b (8 * lam)) by lia.
      destruct (Z.testbit b (8 * lam - 1)).
      * rewrite clmul_1_l.
        by rewrite (testbit_above (modulus lam) (8 * lam + 1)) by lia.
      * by rewrite clmul_0_l, Z.bits_0.
Qed.

Lemma gf2_mod_shift_mul (b c : Z) :
  F b -> F c ->
  gf2_mod (modulus lam) (Z.shiftl (mul b c) 1)
  = gf2_mod (modulus lam) (Z.shiftl (clmul b c) 1).
Proof.
  intros Hb Hc. pose proof (modulus_range lam Hlam) as HP.
  pose proof (pow2_pos (8 * lam)) as Hpos.
  assert (2 ^ (8 * lam + 1) <= 2 ^ 64) as Hle by (apply pow2_mono; lia).
  destruct (gf_mul_field_of lam b c Hlam Hb Hc) as (_ & _ & q & Hq & ->).
  pose proof (clmul_nonneg b c ltac:(apply (fits_64 lam Hlam c Hc))) as Hbc.
  pose proof (clmul_nonneg q (modulus lam) ltac:(lia)) as HqP.
  rewrite Z.shiftl_lxor.
  rewrite gf2_mod_lxor by (lia || apply Z.shiftl_nonneg; lia).
  pose proof (shiftl_bound q 63 1 Hq ltac:(lia) ltac:(lia)) as Hq1.
  rewrite <- (clmul_shiftl_l q (modulus lam) 1) by lia.
  rewrite (gf2_mod_multiple (8 * lam)) by lia.
  apply Z.lxor_0_r.
Qed.

Lemma mul_2_assoc (b c : Z) : F b -> F c -> mul 2 (mul b c) = mul (mul 2 b) c.
Proof.
  intros Hb Hc. pose proof (modulus_range lam Hlam) as HP.
  pose proof (pow2_pos (8 * lam)) as Hpos.
  assert (2 ^ (8 * lam + 1) <= 2 ^ 64) as Hle by (apply pow2_mono; lia).
  pose proof (fits_2 lam Hlam) as H2.
  pose proof (fits_64 lam Hlam c Hc) as Hc64.
  pose proof (proj1 (fits_range lam Hlam b) Hb) as Hbr.
  pose proof (shiftl_bound b (8 * lam) 1 Hbr ltac:(lia) ltac:(lia)) as Hb1.
  rewrite mul_2_shift, gf2_mod_shift_mul by (done || by apply mul_fits).
  rewrite (mul_eq lam Hlam (mul 2 b) c) by (done || by apply mul_fits).
  destruct (mul_2_xtime b Hb) as (e & He & ->).
  rewrite clmul_lxor_l.
  rewrite gf2_mod_lxor by (lia || apply clmul_nonneg; lia).
  rewrite clmul_shiftl_l by lia.
  assert (gf2_mod (modulus lam) (clmul e c) = 0) as ->.
  { destruct He as [-> | ->].
    - rewrite clmul_0_l. apply gf2_mod_small; [lia|].
      rewrite modulus_log2 by done. lia.
    - rewrite clmul_comm by lia.
      apply (gf2_mod_multiple (8 * lam)); lia. }
  by rewrite Z.lxor_0_r.
Qed.

Lemma mul_2_pow2 (i : Z) :
  0 <= i -> i + 1 < 8 * lam -> mul 2 (2 ^ i) = 2 ^ (i + 1).
Proof.
  intros Hi Hlt.
  rewrite mul_eq by (done || apply fits_2 || apply fits_pow2; done || lia).
  change 2 with (2 ^ 1) at 1. rewrite clmul_pow2_l by lia.
  rewrite Z.shiftl_mul_pow2, <- Z.pow_add_r by lia.
  pose proof (modulus_range lam Hlam). pose proof (pow2_pos (8 * lam)).
  apply gf2_mod_small; [lia|]. rewrite modulus_log2 by done.
  split; [apply Z.pow_nonneg; lia|apply Z.pow_lt_mono_r; lia].
Qed.

Lemma mul_pow2_assoc (i : nat) (b c : Z) :
  Z.of_nat i < 8 * lam -> F b -> F c ->
  mul (2 ^ Z.of_nat i) (mul b c) = mul (mul (2 ^ Z.of_nat i) b) c.
Proof.
  intros Hi Hb Hc. induction i as [|i IH].
  - change (2 ^ Z.of_nat 0) with 1.
    rewrite !mul_1_l by (done || by apply mul_fits). done.
  - rewrite Nat2Z.inj_succ, <- Z.add_1_r in *.
    assert (F (2 ^ Z.of_nat i)) as Hp by (apply fits_pow2; [done|lia]).
    pose proof (fits_2 lam Hlam) as H2.
    rewrite <- mul_2_pow2 by lia.
    rewrite <- !mul_2_assoc by (done || by apply mul_fits).
    rewrite IH by lia. done.
Qed.

Lemma mul_assoc (a b c : Z) :
  F a -> F b -> F c -> mul (mul a b) c = mul a (mul b c).
Proof.
  intros Ha Hb Hc.
  apply (linear_ext (8 * lam)
           (fun a => mul (mul a b) c) (fun a => mul a (mul b c))); [lia|..].
  - intros x y Hx Hy. rewrite <- !(fits_range lam Hlam) in *.
    cbv beta. rewrite !mul_lxor_l by (done || by apply mul_fits). done.
  - intros x y Hx Hy. rewrite <- !(fits_range lam Hlam) in *.
    cbv beta. rewrite !mul_lxor_l by (done || by apply mul_fits). done.
  - intros i Hi. rewrite <- (Z2Nat.id i) by lia.
    symmetry. apply mul_pow2_assoc; [lia|done..].
  - by apply fits_range.
Qed.

End Associativity.

(** * Every non-zero element is invertible *)

Lemma ntl_inv_nonzero (st : field_state) (d : Z) :
  d <> 0 -> ntl_inv st d = Ok (field_inverse st d).
Proof. intros Hd. unfold ntl_inv. by destruct (Z.eqb_spec d 0). Qed.

Lemma lin_comb_lxor (tbl : list Z) (i a b : Z) :
  lin_comb tbl i (Z.lxor a b) = Z.lxor (lin_comb tbl i a) (lin_comb tbl i b).
Proof.
  revert i. induction tbl as [|t tbl IH]; intros i; cbn [lin_comb]; [done|].
  rewrite IH, Z.lxor_spec, lxor_swap. f_equal.
  destruct (Z.testbit a i), (Z.testbit b i); simpl;
    by rewrite ?Z.lxor_nilpotent, ?Z.lxor_0_r, ?Z.lxor_0_l.
Qed.

Lemma lin_comb_0 (tbl : list Z) (i : Z) : lin_comb tbl i 0 = 0.
Proof.
  revert i. induction tbl as [|t tbl IH]; intros i; cbn [lin_comb]; [done|].
  by rewrite IH, Z.bits_0.
Qed.

Lemma lxor_cancel_mid (x y z : Z) :
  Z.lxor (Z.lxor x y) (Z.lxor y z) = Z.lxor x z.
Proof.
  rewrite Z.lxor_assoc, <- (Z.lxor_assoc y y z), Z.lxor_nilpotent.
  by rewrite Z.lxor_0_l.
Qed.

Section Inverse.

Variable lam : Z.
Hypothesis Hlam : lam = 4 \/ lam = 5 \/ lam = 6.

Local Abbreviation st := (field_of lam).
Local Abbreviation F := (fits (field_of lam)).
Local Abbreviation mul := (gf_mul (field_of lam)).
Local Abbreviation sq := (gf_sqr (field_of lam)).
Local Abbreviation cp k s acc := (conjugate_product k (field_of lam) s acc).

Lemma sq_fits (a : Z) : F a -> F (sq a).
Proof. intros Ha. by apply mul_fits. Qed.

Local Hint Resolve mul_fits sq_fits fits_0 fits_1 fits_2 fits_lxor : field.

Lemma sq_lxor (a b : Z) :
  F a -> F b -> sq (Z.lxor a b) = Z.lxor (sq a) (sq b).
Proof.
  intros Ha Hb. unfold gf_sqr.
  rewrite mul_lxor_l, !mul_lxor_r by auto with field.
  rewrite (mul_comm lam Hlam b a) by done.
  apply lxor_cancel_mid.
Qed.

Lemma iter_sq_fits (k : nat) (a : Z) : F a -> F (Nat.iter k sq a).
Proof.
  intros Ha. induction k as [|k IH]; [done|].
  rewrite Nat.iter_succ. auto with field.
Qed.

Lemma iter_sq_lxor (k : nat) (a b : Z) :
  F a -> F b ->
  Nat.iter k sq (Z.lxor a b) = Z.lxor (Nat.iter k sq a) (Nat.iter k sq b).
Proof.
  intros Ha Hb. induction k as [|k IH]; [done|].
  rewrite !Nat.iter_succ, IH. apply sq_lxor; by apply iter_sq_fits.
Qed.

Lemma sq_mul (a b : Z) : F a -> F b -> sq (mul a b) = mul (sq a) (sq b).
Proof.
  intros Ha Hb. unfold gf_sqr.
  rewrite (mul_assoc lam Hlam a b (mul a b)) by auto with field.
  rewrite <- (mul_assoc lam Hlam b a b) by auto with field.
  rewrite (mul_comm lam Hlam b a) by done.
  rewrite (mul_assoc lam Hlam a b b) by auto with field.
  rewrite <- (mul_assoc lam Hlam a a (mul b b)) by auto with field.
  done.
Qed.

Lemma iter_sq_mul (k : nat) (a b : Z) :
  F a -> F b ->
  Nat.iter k sq (mul a b) = mul (Nat.iter k sq a) (Nat.iter k sq b).
Proof.
  intros Ha Hb. induction k as [|k IH]; [done|].
  rewrite !Nat.iter_succ, IH. apply sq_mul; by apply iter_sq_fits.
Qed.

Lemma iter_sq_1 (k : nat) : Nat.iter k sq 1 = 1.
Proof.
  induction k as [|k IH]; [done|].
  rewrite Nat.iter_succ, IH. unfold gf_sqr. apply mul_1_l; auto with field.
Qed.

(** The Frobenius map iterated over the degree of the field fixes every
    power of [x], since it is multiplicative and fixes [x]. *)
Lemma frobenius_pow2 (i : nat) :
  Z.of_nat i < 8 * lam ->
  Nat.iter (Z.to_nat (8 * lam)) sq (2 ^ Z.of_nat i) = 2 ^ Z.of_nat i.
Proof.
  induction i as [|i IH]; intros Hi.
  - apply iter_sq_1.
  - rewrite Nat2Z.inj_succ, <- Z.add_1_r in *.
    rewrite <- (mul_2_pow2 lam Hlam) by lia.
    rewrite iter_sq_mul by (auto with field || apply fits_pow2; lia).
    by rewrite frobenius_x_ok, IH by (done || lia).
Qed.

Lemma frobenius (a : Z) : F a -> Nat.iter (Z.to_nat (8 * lam)) sq a = a.
Proof.
  intros Ha.
  apply (linear_ext (8 * lam) (Nat.iter (Z.to_nat (8 * lam)) sq) (fun a => a));
    [lia| | | |by apply fits_range].
  - intros x y Hx Hy. rewrite <- !(fits_range lam Hlam) in *.
    by apply iter_sq_lxor.
  - done.
  - intros i Hi. rewrite <- (Z2Nat.id i) by lia.
    apply frobenius_pow2. lia.
Qed.

Lemma idempotent_trivial (e : Z) : F e -> sq e = e -> e = 0 \/ e = 1.
Proof.
  intros He Hsq.
  assert (lin_comb (frobenius_cert lam) 0 (Z.lxor (sq e) e)
          = Z.shiftl (Z.shiftr e 1) 1) as Hcert.
  { apply (linear_ext (8 * lam)
             (fun a => lin_comb (frobenius_cert lam) 0 (Z.lxor (sq a) a))
             (fun a => Z.shiftl (Z.shiftr a 1) 1));
      [lia| | | |by apply fits_range].
    - intros x y Hx Hy. rewrite <- !(fits_range lam Hlam) in *.
      rewrite sq_lxor by done.
      rewrite lxor_swap. apply lin_comb_lxor.
    - intros x y Hx Hy. by rewrite Z.shiftr_lxor, Z.shiftl_lxor.
    - intros i Hi. pose proof (idempotent_cert_ok lam Hlam) as Hall.
      unfold idempotent_cert_check in Hall.
      apply (forallb_seq _ _ i) in Hall; [|lia].
      cbv beta in Hall.
      rewrite !Z2Nat.id in Hall by lia. apply Z.eqb_eq in Hall.
      cbv beta. exact Hall. }
  rewrite Hsq, Z.lxor_nilpotent, lin_comb_0 in Hcert.
  apply (fits_range lam Hlam) in He.
  rewrite Z.shiftl_mul_pow2, Z.shiftr_div_pow2 in Hcert by lia.
  change (2 ^ 1) with 2 in Hcert.
  assert (e / 2 = 0) as Hdiv by lia.
  apply Z.div_small_iff in Hdiv; lia.
Qed.

Lemma cp_fits (k : nat) (s acc : Z) : F s -> F acc -> F (cp k s acc).
Proof.
  revert s acc. induction k as [|k IH]; intros s acc Hs Hacc; [done|].
  cbn [conjugate_product]. apply IH; auto with field.
Qed.

Lemma field_inverse_cp (d : Z) :
  field_inverse st d = cp (Z.to_nat (8 * lam) - 1) d 1.
Proof. unfold field_inverse. by rewrite (byte_size_field_of lam Hlam). Qed.

Lemma field_inverse_fits (d : Z) : F d -> F (field_inverse st d).
Proof. intros Hd. rewrite field_inverse_cp. apply cp_fits; [done|by apply fits_1]. Qed.

Lemma cp_last (k : nat) (s acc : Z) :
  cp (S k) s acc = mul (cp k s acc) (Nat.iter (S k) sq s).
Proof.
  revert s acc. induction k as [|k IH]; intros s acc; [done|].
  change (conjugate_product (S (S k)) st s acc)
    with (conjugate_product (S k) st (sq s) (mul acc (sq s))).
  rewrite IH. rewrite <- Nat.iter_succ_r. done.
Qed.

Lemma cp_acc (k : nat) (s acc : Z) :
  F s -> F acc -> cp k s acc = mul acc (cp k s 1).
Proof.
  revert s acc. induction k as [|k IH]; intros s acc Hs Hacc.
  - cbn [conjugate_product]. by rewrite mul_1_r.
  - cbn [conjugate_product].
    rewrite (IH (sq s) (mul acc (sq s))) by auto with field.
    rewrite (IH (sq s) (mul 1 (sq s))) by auto with field.
    rewrite mul_1_l by auto with field.
    apply mul_assoc; auto using cp_fits with field.
Qed.

Lemma sq_cp (k : nat) (s : Z) : F s -> sq (cp k s 1) = cp k (sq s) 1.
Proof.
  revert s. induction k as [|k IH]; intros s Hs.
  - cbn [conjugate_product]. apply mul_1_l; auto with field.
  - cbn [conjugate_product].
    rewrite !mul_1_l by auto with field.
    rewrite (cp_acc k (sq s) (sq s)) by auto with field.
    rewrite (cp_acc k (sq (sq s)) (sq (sq s))) by auto with field.
    rewrite sq_mul by auto using cp_fits with field.
    by rewrite (IH (sq s)) by auto with field.
Qed.

Lemma sq_times_cp (k : nat) (a : Z) :
  F a -> mul (sq a) (cp k a 1) = Nat.iter (S k) sq a.
Proof.
  intros Ha. induction k as [|k IH].
  - cbn [conjugate_product]. change (Nat.iter 1 sq a) with (sq a).
    apply mul_1_r; auto with field.
  - rewrite cp_last.
    rewrite <- mul_assoc by auto using cp_fits, iter_sq_fits with field.
    rewrite IH. by rewrite (Nat.iter_succ (S k)).
Qed.

Lemma mul_inv_r (a : Z) :
  F a -> a <> 0 -> mul a (cp (Z.to_nat (8 * lam) - 1) a 1) = 1.
Proof.
  intros Ha Hne.
  set (k := (Z.to_nat (8 * lam) - 1)%nat).
  assert (Z.to_nat (8 * lam) = S k) as Hn by lia.
  pose proof (cp_fits k a 1 Ha (fits_1 lam Hlam)) as Hc.
  set (c := conjugate_product k st a 1) in *.
  assert (sq (mul a c) = mul a c) as Hidem.
  { rewrite sq_mul by done. unfold c at 1.
    rewrite (sq_cp k a Ha).
    rewrite <- (cp_acc k (sq a) (sq a)) by auto with field.
    rewrite <- (mul_1_l lam Hlam (sq a)) at 2 by auto with field.
    change (conjugate_product k st (sq a) (mul 1 (sq a)))
      with (cp (S k) a 1).
    rewrite cp_last, <- Hn, frobenius by done.
    apply mul_comm; done. }
  destruct (idempotent_trivial (mul a c)) as [H0|H1];
    [auto with field|done| |done].
  exfalso. apply Hne.
  rewrite <- (frobenius a Ha), Hn, <- sq_times_cp by done.
  fold c.
  unfold gf_sqr at 1.
  rewrite (mul_assoc lam Hlam a a c), (mul_comm lam Hlam a (mul a c)),
    H0 by auto with field.
  by apply mul_0_l.
Qed.

Lemma ntl_inv_correct (a : Z) :
  F a -> a <> 0 ->
  exists v, ntl_inv st a = Ok v /\ F v /\ mul a v = 1.
Proof.
  intros Ha Hne. unfold ntl_inv, field_inverse.
  destruct (Z.eqb_spec a 0) as [|_]; [done|].
  assert (byte_size st = lam) as -> by (by destruct Hlam as [-> | [-> | ->]]).
  eexists. split; [done|]. split.
  - apply cp_fits; [done|by apply fits_1].
  - by apply mul_inv_r.
Qed.

(** The inverse is unique: any element [v] with [a * v = 1] is the one
    computed by [field_inverse], so the model of the library inverse loses
    no generality. *)
Lemma field_inverse_unique (a v : Z) :
  F a -> F v -> mul a v = 1 -> v = field_inverse st a.
Proof.
  intros Ha Hv Hav.
  assert (a <> 0) as Hne.
  { intros ->. rewrite mul_0_l in Hav by done. done. }
  destruct (ntl_inv_correct a Ha Hne) as (w & Hw & Hfw & Haw).
  rewrite (ntl_inv_nonzero _ _ Hne) in Hw. injection Hw as <-.
  rewrite <- (mul_1_l lam Hlam v Hv), <- Haw.
  rewrite (mul_comm lam Hlam a (field_inverse st a)) by done.
  rewrite (mul_assoc lam Hlam _ a v), Hav by done.
  by apply mul_1_r.
Qed.

(** A field has no zero divisors. *)
Lemma mul_eq_0 (a b : Z) : F a -> F b -> mul a b = 0 -> a = 0 \/ b = 0.
Proof.
  intros Ha Hb Hab.
  destruct (Z.eq_dec a 0) as [|Hne]; [by left|right].
  destruct (ntl_inv_correct a Ha Hne) as (v & _ & Hv & Hav).
  rewrite <- (mul_1_l lam Hlam b Hb), <- Hav.
  rewrite (mul_comm lam Hlam a v), mul_assoc, Hab by done.
  by apply mul_0_r.
Qed.

End Inverse.

(** * Lazy reduction in the dot product *)

Lemma clmul_fits_bound (lam a b : Z) :
  lam = 4 \/ lam = 5 \/ lam = 6 ->
  fits (field_of lam) a -> fits (field_of lam) b ->
  0 <= clmul a b < 2 ^ (16 * lam - 1).
Proof.
  intros Hlam Ha Hb. rewrite !fits_field_of in * by done.
  replace (16 * lam - 1) with (8 * lam + 8 * lam - 1) by lia.
  apply clmul_bound; lia.
Qed.

Lemma reduce_lxor (lam x y : Z) :
  lam = 4 \/ lam = 5 \/ lam = 6 ->
  0 <= x < 2 ^ (16 * lam - 1) -> 0 <= y < 2 ^ (16 * lam - 1) ->
  reduce (field_of lam) (Z.lxor x y)
  = Z.lxor (reduce (field_of lam) x) (reduce (field_of lam) y).
Proof.
  intros Hlam Hx Hy.
  rewrite !reduce_field_of by (done || by apply lxor_bound).
  pose proof (modulus_range lam Hlam). pose proof (pow2_pos (8 * lam)).
  apply gf2_mod_lxor; lia.
Qed.

Lemma reduce_0 (lam : Z) :
  lam = 4 \/ lam = 5 \/ lam = 6 -> reduce (field_of lam) 0 = 0.
Proof. intros [-> | [-> | ->]]; by vm_compute. Qed.

Lemma lookup_total_fits (st : field_state) (l : list Z) (i : nat) :
  Forall (fits st) l -> (i < length l)%nat -> fits st (l !!! i).
Proof.
  intros Hall Hi.
  destruct (lookup_lt_is_Some_2 l i Hi) as [x Hx].
  rewrite (list_lookup_total_correct _ _ _ Hx).
  by eapply Forall_lookup_1.
Qed.

Lemma lazy_accumulate (lam : Z) (u v : list Z) (idxs : list nat) (acc : Z) :
  lam = 4 \/ lam = 5 \/ lam = 6 ->
  Forall (fits (field_of lam)) u -> Forall (fits (field_of lam)) v ->
  Forall (fun i => (i < length u)%nat /\ (i < length v)%nat) idxs ->
  0 <= acc < 2 ^ (16 * lam - 1) ->
  reduce (field_of lam)
    (foldl (fun accum i => _mm_xor_si128 accum (clmul (u !!! i) (v !!! i)))
       acc idxs)
  = foldl (fun acc i => gf_add acc (gf_mul (field_of lam) (u !!! i) (v !!! i)))
      (reduce (field_of lam) acc) idxs.
Proof.
  intros Hlam Hu Hv Hidx. revert acc.
  induction Hidx as [|i idxs [Hiu Hiv] _ IH]; intros acc Hacc; [done|].
  cbn [foldl].
  pose proof (clmul_fits_bound lam (u !!! i) (v !!! i) Hlam
                (lookup_total_fits _ u i Hu Hiu)
                (lookup_total_fits _ v i Hv Hiv)) as Hprod.
  rewrite IH by (by apply lxor_bound).
  unfold _mm_xor_si128, gf_add, gf_mul.
  by rewrite reduce_lxor.
Qed.

(** In the reference field lazy reduction matches eager reduction. *)
Lemma dot_product_eager (lam : Z) (u v : list Z) :
  lam = 4 \/ lam = 5 \/ lam = 6 ->
  Forall (fits (field_of lam)) u -> Forall (fits (field_of lam)) v ->
  length u = length v ->
  dot_product (field_of lam) u v = Ok (eager_dot_product (field_of lam) u v).
Proof.
  intros Hlam Hu Hv Hlen.
  unfold dot_product, eager_dot_product.
  destruct (decide (length u <> length v)) as [|_]; [done|].
  f_equal. unfold _mm_setzero_si128, GF2E_default.
  rewrite <- (reduce_0 lam Hlam) at 2.
  apply lazy_accumulate; [done..| |].
  - apply Forall_forall. intros i Hi%list_elem_of_In%in_seq. lia.
  - pose proof (pow2_pos (16 * lam - 1)). lia.
Qed.

(** C2: under [lambda = 5] lazy reduction does not match eager reduction.
    [reduce_GF2_40] shifts the low lane of the quotient estimate as a
    signed number, so it is not additive on accumulators whose bit 63 is
    set: for [u = [x^39; x^39]] and [v = [x^24; x^39]] the one reduction of
    [dot_product] yields 192938334, the sum of the two products reduced by
    the field multiplication is 275070845278, and the sum of the two
    remainders is 275356057950. *)
Theorem dot_product_lazy_differs_from_eager :
  active 5 (config 5)
  /\ Forall (fits (config 5)) [2 ^ 39; 2 ^ 39]
  /\ Forall (fits (config 5)) [2 ^ 24; 2 ^ 39]
  /\ dot_product (config 5) [2 ^ 39; 2 ^ 39] [2 ^ 24; 2 ^ 39] = Ok 192938334
  /\ eager_dot_product (config 5) [2 ^ 39; 2 ^ 39] [2 ^ 24; 2 ^ 39]
     = 275070845278
  /\ Z.lxor (gf2_mod (modulus 5) (clmul (2 ^ 39) (2 ^ 24)))
       (gf2_mod (modulus 5) (clmul (2 ^ 39) (2 ^ 39)))
     = 275356057950.
Proof.
  split; [apply config_active; lia|].
  split; [repeat constructor; unfold fits; simpl; lia|].
  split; [repeat constructor; unfold fits; simpl; lia|].
  repeat split; by vm_compute.
Qed.

(** * The lifting table *)

Lemma doubling_ok (lam : Z) :
  lam = 4 \/ lam = 5 \/ lam = 6 ->
  doubling_check (field_of lam) (generator lam) = true.
Proof. intros [-> | [-> | ->]]; vm_compute; reflexivity. Qed.

Lemma lift_linear_ok (lam : Z) :
  lam = 4 \/ lam = 5 \/ lam = 6 ->
  lift_linear_check (field_of lam) (generator lam) = true.
Proof. intros [-> | [-> | ->]]; vm_compute; reflexivity. Qed.

Lemma lift_doubling (lam : Z) (b idx : Z) :
  lam = 4 \/ lam = 5 \/ lam = 6 ->
  1 <= b <= 7 -> 0 <= idx < 2 ^ b ->
  lift_uint8_t (field_of lam) (2 ^ b + idx)
  = gf_add (lift_uint8_t (field_of lam) idx)
      (gen_pow (field_of lam) (generator lam) (Z.to_nat b)).
Proof.
  intros Hlam Hb Hidx. pose proof (doubling_ok lam Hlam) as Hall.
  unfold doubling_check in Hall. rewrite forallb_forall in Hall.
  specialize (Hall (Z.to_nat b)). rewrite in_seq in Hall.
  specialize (Hall ltac:(lia)). cbv zeta in Hall.
  apply (forallb_seq _ _ idx) in Hall.
  - cbv beta in Hall. rewrite !Z2Nat.id in Hall by lia. by apply Z.eqb_eq in Hall.
  - rewrite Nat2Z.inj_pow, Z2Nat.id by lia. done.
Qed.

Lemma lift_linear (lam : Z) (p : Z) :
  lam = 4 \/ lam = 5 \/ lam = 6 -> 0 <= p < 256 ->
  lift_uint8_t (field_of lam) p
  = lin_comb (map (gen_pow (field_of lam) (generator lam)) (seq 0 8)) 0 p.
Proof.
  intros Hlam Hp. pose proof (lift_linear_ok lam Hlam) as Hall.
  unfold lift_linear_check in Hall. cbv zeta in Hall.
  apply (forallb_seq _ _ p) in Hall; [|lia].
  cbv beta in Hall. rewrite !Z2Nat.id in Hall by lia. by apply Z.eqb_eq in Hall.
Qed.

(** The table of the program has the same structure, with the powers of
    the generator as the program accumulates them. *)
Lemma doubling_config_ok (lam : Z) :
  lam = 4 \/ lam = 5 \/ lam = 6 ->
  doubling_check (config lam) (generator lam) = true.
Proof. intros [-> | [-> | ->]]; vm_compute; reflexivity. Qed.

Lemma lift_linear_config_ok (lam : Z) :
  lam = 4 \/ lam = 5 \/ lam = 6 ->
  lift_linear_check (config lam) (generator lam) = true.
Proof. intros [-> | [-> | ->]]; vm_compute; reflexivity. Qed.

Lemma lift_doubling_config (lam : Z) (b idx : Z) :
  lam = 4 \/ lam = 5 \/ lam = 6 ->
  1 <= b <= 7 -> 0 <= idx < 2 ^ b ->
  lift_uint8_t (config lam) (2 ^ b + idx)
  = gf_add (lift_uint8_t (config lam) idx)
      (gen_pow (config lam) (generator lam) (Z.to_nat b)).
Proof.
  intros Hlam Hb Hidx. pose proof (doubling_config_ok lam Hlam) as Hall.
  unfold doubling_check in Hall. rewrite forallb_forall in Hall.
  specialize (Hall (Z.to_nat b)). rewrite in_seq in Hall.
  specialize (Hall ltac:(lia)). cbv zeta in Hall.
  apply (forallb_seq _ _ idx) in Hall.
  - cbv beta in Hall. rewrite !Z2Nat.id in Hall by lia. by apply Z.eqb_eq in Hall.
  - rewrite Nat2Z.inj_pow, Z2Nat.id by lia. done.
Qed.

Lemma lift_linear_config (lam : Z) (p : Z) :
  lam = 4 \/ lam = 5 \/ lam = 6 -> 0 <= p < 256 ->
  lift_uint8_t (config lam) p
  = lin_comb (map (gen_pow (config lam) (generator lam)) (seq 0 8)) 0 p.
Proof.
  intros Hlam Hp. pose proof (lift_linear_config_ok lam Hlam) as Hall.
  unfold lift_linear_check in Hall. cbv zeta in Hall.
  apply (forallb_seq _ _ p) in Hall; [|lia].
  cbv beta in Hall. rewrite !Z2Nat.id in Hall by lia. by apply Z.eqb_eq in Hall.
Qed.


(** * Loops over the indices of a vector *)

(** A loop that replaces every entry [i] by a function of [i] and of the
    entry itself is [imap]. *)
Lemma update_loop_upto (f : nat -> Z -> Z) (l : list Z) (j : nat) :
  (j <= length l)%nat ->
  foldl (fun res i => <[i := f i (res !!! i)]> res) l (seq 0 j)
  = imap f (take j l) ++ drop j l.
Proof.
  induction j as [|j IH]; intros Hj.
  - by rewrite take_0, drop_0.
  - rewrite seq_S, foldl_app, IH by lia. cbn [foldl Nat.add].
    destruct (lookup_lt_is_Some_2 l j ltac:(lia)) as [x Hx].
    rewrite (take_S_r _ _ _ Hx), (drop_S _ _ _ Hx), imap_app.
    assert (length (imap f (take j l)) = j) as Hlen
      by (rewrite length_imap, length_take; lia).
    rewrite lookup_total_app_r by lia.
    rewrite Hlen, Nat.sub_diag. cbn [lookup_total list_lookup_total].
    rewrite <- Hlen at 1. rewrite <- (Nat.add_0_r (length (imap f (take j l)))).
    rewrite insert_app_r. cbn [imap]. rewrite <- app_assoc.
    rewrite length_take, Nat.min_l, Nat.add_0_r by lia. done.
Qed.

Lemma update_loop (f : nat -> Z -> Z) (l : list Z) :
  foldl (fun res i => <[i := f i (res !!! i)]> res) l (seq 0 (length l))
  = imap f l.
Proof.
  rewrite update_loop_upto by done.
  by rewrite firstn_all, drop_all, app_nil_r.
Qed.

Lemma imap_lookup_zip_with (g : Z -> Z -> Z) (u v : list Z) :
  length u = length v ->
  imap (fun i x => g x (v !!! i)) u = zip_with g u v.
Proof.
  revert v. induction u as [|x u IH]; intros [|y v] Hlen; try done.
  cbn [imap zip_with]. f_equal. rewrite <- IH by (simpl in Hlen; lia).
  by apply imap_ext.
Qed.

Lemma vec_add_ok (lhs rhs : list Z) :
  length lhs = length rhs -> vec_add lhs rhs = Ok (zip_with Z.lxor lhs rhs).
Proof.
  intros Hlen. unfold vec_add.
  destruct (decide (length lhs <> length rhs)) as [|_]; [done|].
  f_equal.
  rewrite (update_loop (fun i x => gf_add x (rhs !!! i))).
  by apply imap_lookup_zip_with.
Qed.

Lemma vec_add_assign_ok (lhs rhs : list Z) :
  length lhs = length rhs -> vec_add_assign lhs rhs = Ok (zip_with Z.lxor lhs rhs).
Proof.
  intros Hlen. unfold vec_add_assign.
  destruct (decide (length lhs <> length rhs)) as [|_]; [done|].
  f_equal.
  rewrite (update_loop (fun i x => gf_add x (rhs !!! i))).
  by apply imap_lookup_zip_with.
Qed.

Lemma vec_add_throw (lhs rhs : list Z) :
  length lhs <> length rhs ->
  vec_add lhs rhs = Throw (runtime_error "adding vectors of different sizes").
Proof.
  intros Hlen. unfold vec_add.
  by destruct (decide (length lhs <> length rhs)).
Qed.

Lemma vec_add_assign_throw (lhs rhs : list Z) :
  length lhs <> length rhs ->
  vec_add_assign lhs rhs
  = Throw (runtime_error "adding vectors of different sizes").
Proof.
  intros Hlen. unfold vec_add_assign.
  by destruct (decide (length lhs <> length rhs)).
Qed.

Lemma vec_scale_map (st : field_state) (lhs : list Z) (rhs : Z) :
  vec_scale st lhs rhs = map (fun a => gf_mul st a rhs) lhs.
Proof.
  unfold vec_scale.
  rewrite (update_loop (fun _ x => gf_mul st x rhs)).
  apply (imap_const (fun a => gf_mul st a rhs)).
Qed.

(** * Horner evaluation *)

Lemma eval_horner (st : field_state) (poly : list Z) (point : Z) :
  eval st poly point = horner st poly point.
Proof.
  unfold eval. induction poly as [|c poly IH]; [done|].
  cbn [length horner].
  rewrite <- cons_seq, <- fmap_S_seq. cbn [rev].
  rewrite foldl_app. cbn [foldl]. f_equal.
  by rewrite <- IH, <- map_rev, foldl_fmap.
Qed.

(** * Size checks *)

Lemma interpolate_throw (st : field_state) (basis : list (list Z)) (ys : list Z) :
  length basis <> length ys \/ basis = [] \/ ys = [] ->
  interpolate_with_precomputation st basis ys
  = Throw (runtime_error "invalid sizes for interpolation").
Proof.
  intros Hbad. unfold interpolate_with_precomputation.
  destruct (bool_decide (length basis <> length ys)) eqn:E1; [done|].
  destruct (bool_decide (length ys = 0%nat)) eqn:E2; [done|].
  apply bool_decide_eq_false in E1, E2.
  destruct Hbad as [H | [-> | ->]]; [done| |done].
  destruct ys; [done|]. exfalso. apply E1. by intros [=].
Qed.

Lemma interpolate_loop (st : field_state) (basis : list (list Z)) (ys : list Z)
    (idxs : list nat) (res : list Z) :
  Forall (fun k => length (basis !!! k) = length res) idxs ->
  foldl (fun acc k =>
           res ← acc;
           vec_add_assign res (vec_scale st (basis !!! k) (ys !!! k)))
        (Ok res) idxs
  = Ok (foldl (fun res k =>
                 zip_with Z.lxor res
                   (map (fun a => gf_mul st a (ys !!! k)) (basis !!! k)))
              res idxs)
  /\ length (foldl (fun res k =>
                      zip_with Z.lxor res
                        (map (fun a => gf_mul st a (ys !!! k)) (basis !!! k)))
                   res idxs) = length res.
Proof.
  intros Hall. revert res Hall.
  induction idxs as [|k idxs IH]; intros res Hall; [done|].
  apply Forall_cons in Hall as [Hk Hall].
  cbn [foldl]. unfold mbind at 2. unfold result_bind at 2.
  rewrite vec_add_assign_ok by (by rewrite vec_scale_map, length_map).
  rewrite vec_scale_map.
  assert (length (zip_with Z.lxor res
                    (map (fun a => gf_mul st a (ys !!! k)) (basis !!! k)))
          = length res) as Hlen.
  { rewrite length_zip_with, length_map. lia. }
  destruct (IH _ ltac:(by rewrite Hlen)) as [-> ->]. done.
Qed.

Lemma interpolate_ok (st : field_state) (basis : list (list Z)) (ys : list Z) :
  length basis = length ys -> ys <> [] ->
  Forall (fun p => length p = length (basis !!! 0%nat)) basis ->
  interpolate_with_precomputation st basis ys = Ok (weighted_sum st basis ys)
  /\ length (weighted_sum st basis ys) = length (basis !!! 0%nat).
Proof.
  intros Hlen Hne Hall. unfold interpolate_with_precomputation, weighted_sum.
  rewrite bool_decide_eq_false_2 by (by intros ?).
  rewrite bool_decide_eq_false_2 by (by destruct ys).
  cbn [orb]. unfold GF2E_default.
  pose proof (interpolate_loop st basis ys (seq 0 (length ys))
                (replicate (length (basis !!! 0%nat)) 0)) as Hloop.
  rewrite length_replicate in Hloop.
  apply Hloop. apply Forall_forall. intros k Hk%list_elem_of_In%in_seq.
  destruct (lookup_lt_is_Some_2 basis k ltac:(lia)) as [p Hp].
  rewrite (list_lookup_total_correct _ _ _ Hp).
  rewrite Forall_lookup in Hall. by eapply Hall.
Qed.

(** The claim of C8 as stated fails: with a basis set and a vector of
    values of equal non-empty lengths, interpolation still fails when the
    basis polynomials differ in length. *)
Lemma interpolate_equal_lengths_fails :
  length [[1]; [1; 2]] = length [1; 1]
  /\ [1; 1] <> []
  /\ interpolate_with_precomputation (config 4) [[1]; [1; 2]] [1; 1]
     = Throw (runtime_error "adding vectors of different sizes").
Proof. split; [done|]. split; [done|]. by vm_compute. Qed.

(** C8 (amended): adding two vectors of different lengths throws the
    runtime error for different sizes, and interpolation throws the runtime
    error for invalid sizes whenever the number of basis polynomials
    differs from the number of values or either is empty.  With equal
    lengths the addition succeeds; with equal non-empty lengths the
    interpolation succeeds provided all basis polynomials have the same
    length. *)
Theorem size_mismatch_rejection (st : field_state) (lhs rhs : list Z)
    (basis : list (list Z)) (ys : list Z) :
  (length lhs <> length rhs ->
   vec_add lhs rhs = Throw (runtime_error "adding vectors of different sizes")
   /\ vec_add_assign lhs rhs
      = Throw (runtime_error "adding vectors of different sizes"))
  /\ (length lhs = length rhs ->
      vec_add lhs rhs = Ok (zip_with Z.lxor lhs rhs)
      /\ length (zip_with Z.lxor lhs rhs) = length lhs)
  /\ (length basis <> length ys \/ basis = [] \/ ys = [] ->
      interpolate_with_precomputation st basis ys
      = Throw (runtime_error "invalid sizes for interpolation"))
  /\ (length basis = length ys -> ys <> [] ->
      Forall (fun p => length p = length (basis !!! 0%nat)) basis ->
      exists res,
        interpolate_with_precomputation st basis ys = Ok res
        /\ length res = length (basis !!! 0%nat)).
Proof.
  split; [|split; [|split]].
  - intros Hlen. split; [by apply vec_add_throw|by apply vec_add_assign_throw].
  - intros Hlen. split; [by apply vec_add_ok|].
    rewrite length_zip_with. lia.
  - apply interpolate_throw.
  - intros Hlen Hne Hall. exists (weighted_sum st basis ys).
    by apply interpolate_ok.
Qed.

Lemma size_mismatch_rejection_witness :
  (length [1; 2] <> length [3; 4] ->
   vec_add [1; 2] [3; 4]
   = Throw (runtime_error "adding vectors of different sizes")
   /\ vec_add_assign [1; 2] [3; 4]
      = Throw (runtime_error "adding vectors of different sizes"))
  /\ (length [1; 2] = length [3; 4] ->
      vec_add [1; 2] [3; 4] = Ok (zip_with Z.lxor [1; 2] [3; 4])
      /\ length (zip_with Z.lxor [1; 2] [3; 4]) = length [1; 2])
  /\ (length [[1; 0]; [0; 1]] <> length [5; 6] \/ [[1; 0]; [0; 1]] = []
      \/ [5; 6] = [] ->
      interpolate_with_precomputation (config 4) [[1; 0]; [0; 1]] [5; 6]
      = Throw (runtime_error "invalid sizes for interpolation"))
  /\ (length [[1; 0]; [0; 1]] = length [5; 6] -> [5; 6] <> [] ->
      Forall (fun p => length p = length ([[1; 0]; [0; 1]] !!! 0%nat))
        [[1; 0]; [0; 1]] ->
      exists res,
        interpolate_with_precomputation (config 4) [[1; 0]; [0; 1]] [5; 6]
        = Ok res
        /\ length res = length ([[1; 0]; [0; 1]] !!! 0%nat)).
Proof. apply (size_mismatch_rejection (config 4)). Defined.

(** * Multiplication of a polynomial by a linear factor *)

Lemma list_eq_total (l1 l2 : list Z) :
  length l1 = length l2 ->
  (forall i, (i < length l1)%nat -> l1 !!! i = l2 !!! i) -> l1 = l2.
Proof.
  intros Hlen Hi. apply (list_eq_same_length _ _ (length l1)); [done..|].
  intros i x y Hlt Hx Hy. specialize (Hi i Hlt).
  by rewrite (list_lookup_total_correct _ _ _ Hx),
    (list_lookup_total_correct _ _ _ Hy) in Hi.
Qed.

Lemma tlf_length (st : field_state) (r prev : Z) (p : list Z) :
  length (times_linear_from st r prev p) = S (length p).
Proof.
  revert prev. induction p as [|c p IH]; intros prev; [done|].
  cbn [times_linear_from length]. by rewrite IH.
Qed.

Lemma tlf_lookup (st : field_state) (r : Z) (p : list Z) (prev : Z) (i : nat) :
  (i < length p)%nat ->
  times_linear_from st r prev p !!! i
  = gf_add (gf_mul st (p !!! i) r) ((prev :: p) !!! i).
Proof.
  revert prev i. induction p as [|c p IH]; intros prev [|i] Hi;
    cbn [length] in Hi; try lia; [done|].
  cbn [times_linear_from].
  change ((gf_add (gf_mul st c r) prev :: times_linear_from st r c p) !!! S i)
    with (times_linear_from st r c p !!! i).
  rewrite IH by lia. done.
Qed.

Lemma tlf_last (st : field_state) (r : Z) (p : list Z) (prev : Z) :
  times_linear_from st r prev p !!! length p = (prev :: p) !!! length p.
Proof.
  revert prev. induction p as [|c p IH]; intros prev; [done|].
  cbn [times_linear_from length].
  change ((gf_add (gf_mul st c r) prev :: times_linear_from st r c p)
            !!! S (length p))
    with (times_linear_from st r c p !!! length p).
  by rewrite IH.
Qed.

(** * The in-place sweep of [build_from_roots] *)

Lemma root_sweep_spec (st : field_state) (tmp : Z) (j : nat) (poly : list Z) :
  (j < length poly)%nat ->
  length (foldl (fun poly i =>
                   <[i := gf_add (gf_mul st (poly !!! i) tmp)
                                 (poly !!! (i - 1)%nat)]> poly)
                poly (rev (seq 1 j))) = length poly
  /\ forall i,
       foldl (fun poly i =>
                <[i := gf_add (gf_mul st (poly !!! i) tmp)
                              (poly !!! (i - 1)%nat)]> poly)
             poly (rev (seq 1 j)) !!! i
       = if decide (1 <= i <= j)%nat
         then gf_add (gf_mul st (poly !!! i) tmp) (poly !!! (i - 1)%nat)
         else poly !!! i.
Proof.
  revert poly. induction j as [|j IH]; intros poly Hj.
  - cbn [seq rev foldl]. split; [done|]. intros i.
    destruct (decide _); [lia|done].
  - rewrite seq_S, rev_unit. cbn [foldl].
    change (1 + j)%nat with (S j).
    set (poly' := <[S j := _]> poly).
    assert (length poly' = length poly) as Hlen' by apply length_insert.
    destruct (IH poly' ltac:(lia)) as [Hlen Hlook].
    split; [by rewrite Hlen|].
    intros i. rewrite Hlook. unfold poly'.
    destruct (decide (1 <= i <= j)%nat), (decide (1 <= i <= S j)%nat); try lia.
    + by rewrite !list_lookup_total_insert_ne by lia.
    + assert (i = S j) as -> by lia.
      by rewrite list_lookup_total_insert_eq by lia.
    + by rewrite list_lookup_total_insert_ne by lia.
Qed.

Section RootPolynomial.

Variable lam : Z.
Hypothesis Hlam : lam = 4 \/ lam = 5 \/ lam = 6.

Local Abbreviation st := (field_of lam).
Local Abbreviation F := (fits (field_of lam)).
Local Abbreviation mul := (gf_mul (field_of lam)).

Local Hint Resolve mul_fits fits_0 fits_1 fits_lxor : field.

Lemma root_step_spec (C : list Z) (r : Z) (rest : list Z) :
  C <> [] -> F r ->
  root_step st (C ++ r :: rest) (length C)
  = take (S (length C)) (times_linear st (C ++ [1]) r) ++ rest.
Proof.
  intros HC Hr.
  assert (1 <= length C)%nat as Hk by (destruct C; [done|cbn [length]; lia]).
  assert ((C ++ r :: rest) !!! length C = r) as Htmp.
  { by rewrite lookup_total_app_r, Nat.sub_diag by lia. }
  unfold root_step, root_sweep. cbv zeta. rewrite !Htmp.
  set (poly := C ++ r :: rest).
  set (poly1 := <[length C := gf_add r (poly !!! (length C - 1)%nat)]> poly).
  assert (length poly = (length C + S (length rest))%nat) as Hlp
    by (unfold poly; by rewrite length_app).
  assert (length poly1 = length poly) as Hlp1 by apply length_insert.
  destruct (root_sweep_spec st r (length C - 1) poly1 ltac:(lia))
    as [Hlen Hlook].
  set (sw := foldl _ poly1 _) in *.
  pose proof (tlf_length st r 0 (C ++ [1])) as Hltl.
  rewrite length_app in Hltl. cbn [length] in Hltl.
  apply list_eq_total.
  { rewrite length_insert, Hlen, Hlp1, Hlp, length_app, length_take.
    unfold times_linear. lia. }
  intros i Hi. rewrite length_insert, Hlen, Hlp1, Hlp in Hi.
  destruct (decide (i <= length C)%nat) as [Hle|Hgt].
  - rewrite lookup_total_app_l
      by (rewrite length_take; unfold times_linear; lia).
    rewrite lookup_total_take_lt by lia.
    unfold times_linear.
    rewrite tlf_lookup by (rewrite length_app; cbn [length]; lia).
    destruct (decide (i = 0%nat)) as [->|Hne0].
    + rewrite list_lookup_total_insert_eq by lia.
      rewrite Hlook. destruct (decide _) as [|_]; [lia|].
      unfold poly1. rewrite list_lookup_total_insert_ne by lia.
      unfold poly. rewrite !lookup_total_app_l by lia.
      unfold gf_add. cbn [lookup_total list_lookup_total].
      by rewrite Z.lxor_0_r.
    + rewrite list_lookup_total_insert_ne by lia.
      rewrite lookup_total_cons_ne_0 by done.
      rewrite Hlook.
      destruct (decide (1 <= i <= length C - 1)%nat) as [Hmid|Hend].
      * unfold poly1. rewrite !list_lookup_total_insert_ne by lia.
        unfold poly. rewrite !lookup_total_app_l by lia.
        by replace (Nat.pred i) with (i - 1)%nat by lia.
      * assert (i = length C) as -> by lia.
        unfold poly1. rewrite list_lookup_total_insert_eq by lia.
        unfold poly.
        rewrite lookup_total_app_l by lia.
        rewrite (lookup_total_app_r C [1]), Nat.sub_diag by lia.
        rewrite (lookup_total_app_l C [1]) by lia.
        change ([1] !!! 0%nat) with 1.
        rewrite mul_1_l by done.
        by replace (Nat.pred (length C)) with (length C - 1)%nat by lia.
  - rewrite list_lookup_total_insert_ne by lia.
    rewrite Hlook. destruct (decide _) as [|_]; [lia|].
    unfold poly1. rewrite list_lookup_total_insert_ne by lia.
    unfold poly.
    rewrite !lookup_total_app_r
      by (rewrite ?length_take; unfold times_linear; lia).
    rewrite length_take, Nat.min_l by (unfold times_linear; lia).
    rewrite lookup_total_cons_ne_0 by lia.
    f_equal. lia.
Qed.

Lemma times_linear_monic (C : list Z) (r : Z) :
  times_linear st (C ++ [1]) r
  = take (S (length C)) (times_linear st (C ++ [1]) r) ++ [1].
Proof.
  pose proof (tlf_length st r 0 (C ++ [1])) as Hltl.
  rewrite length_app in Hltl. cbn [length] in Hltl.
  pose proof (tlf_last st r (C ++ [1]) 0) as Hlast.
  rewrite length_app in Hlast. cbn [length] in Hlast.
  replace (length C + 1)%nat with (S (length C)) in Hlast by lia.
  rewrite lookup_total_cons_ne_0 in Hlast by lia.
  cbn [Nat.pred] in Hlast.
  rewrite lookup_total_app_r, Nat.sub_diag in Hlast by lia.
  change ([1] !!! 0%nat) with 1 in Hlast.
  unfold times_linear.
  set (tl := times_linear_from st r 0 (C ++ [1])) in *.
  destruct (lookup_lt_is_Some_2 tl (S (length C)) ltac:(lia)) as [x Hx].
  rewrite (list_lookup_total_correct _ _ _ Hx) in Hlast. subst x.
  rewrite <- (take_S_r _ _ _ Hx).
  by rewrite take_ge by lia.
Qed.

Lemma tlf_fits (r prev : Z) (p : list Z) :
  F r -> F prev -> Forall F p -> Forall F (times_linear_from st r prev p).
Proof.
  intros Hr Hprev Hp. revert prev Hprev.
  induction Hp as [|c p Hc Hp IH]; intros prev Hprev; cbn [times_linear_from].
  - by apply Forall_singleton.
  - apply Forall_cons. split; [unfold gf_add; auto with field|by apply IH].
Qed.

Lemma times_linear_fits (p : list Z) (r : Z) :
  F r -> Forall F p -> Forall F (times_linear st p r).
Proof. intros Hr Hp. apply tlf_fits; [done|apply fits_0; done|done]. Qed.

Lemma monic_fits (C : list Z) : Forall F C -> Forall F (C ++ [1]).
Proof.
  intros HC. apply Forall_app. split; [done|].
  apply Forall_singleton. by apply fits_1.
Qed.

Lemma foldl_times_linear_length (p rs : list Z) :
  length (foldl (times_linear st) p rs) = (length p + length rs)%nat.
Proof.
  revert p. induction rs as [|r rs IH]; intros p; cbn [foldl length]; [lia|].
  rewrite IH. unfold times_linear. rewrite tlf_length. lia.
Qed.

Lemma foldl_times_linear_fits (p rs : list Z) :
  Forall F p -> Forall F rs -> Forall F (foldl (times_linear st) p rs).
Proof.
  intros Hp Hrs. revert p Hp.
  induction Hrs as [|r rs Hr Hrs IH]; intros p Hp; cbn [foldl]; [done|].
  apply IH. by apply times_linear_fits.
Qed.

(** The outer loop of [build_from_roots], started after [length C] roots
    with the low coefficients [C] of their monic product in place. *)
Lemma root_loop (rs : list Z) (C : list Z) :
  C <> [] -> Forall F C -> Forall F rs ->
  exists Cf,
    foldl (root_step st) (C ++ rs ++ [0]) (seq (length C) (length rs))
    = Cf ++ [0]
    /\ Cf ++ [1] = foldl (times_linear st) (C ++ [1]) rs.
Proof.
  revert C. induction rs as [|r rs IH]; intros C HC HF Hrs.
  - by exists C.
  - apply Forall_cons in Hrs as [Hr Hrs].
    cbn [length seq foldl].
    change ((r :: rs) ++ [0]) with (r :: (rs ++ [0])).
    rewrite root_step_spec by done.
    set (C' := take (S (length C)) (times_linear st (C ++ [1]) r)).
    assert (length C' = S (length C)) as Hlen.
    { unfold C', times_linear.
      rewrite length_take, tlf_length, length_app. cbn [length]. lia. }
    destruct (IH C') as (Cf & Hloop & Hprod).
    { intros HC'. rewrite HC' in Hlen. done. }
    { apply Forall_take, times_linear_fits; [done|by apply monic_fits]. }
    { done. }
    exists Cf. rewrite <- Hlen. split; [done|].
    rewrite Hprod. f_equal. symmetry. apply times_linear_monic.
Qed.

Lemma build_from_roots_monic (roots : list Z) :
  Forall F roots -> build_from_roots st roots = monic_product st roots.
Proof.
  intros Hroots. destruct roots as [|r0 rs]; [done|].
  apply Forall_cons in Hroots as [Hr0 Hrs].
  unfold build_from_roots, monic_product. cbn [length foldl].
  replace (S (length rs) - 1)%nat with (length rs) by lia.
  change ((r0 :: rs) ++ [0]) with ([r0] ++ rs ++ [0]).
  destruct (root_loop rs [r0]) as (Cf & Hloop & Hprod);
    [done|by apply Forall_singleton|done|].
  change 1%nat with (length [r0]) at 1. rewrite Hloop.
  assert (length Cf = S (length rs)) as Hlen.
  { pose proof (f_equal length Hprod) as Hl.
    rewrite foldl_times_linear_length, !length_app in Hl.
    cbn [length] in Hl. lia. }
  rewrite <- Hlen, <- (Nat.add_0_r (length Cf)), insert_app_r.
  cbn [insert list_insert]. rewrite Hprod. f_equal.
  unfold times_linear. cbn [app times_linear_from].
  unfold gf_add. by rewrite mul_1_l, Z.lxor_0_r.
Qed.

(** * Evaluation of products of linear factors *)

Lemma horner_fits (p : list Z) (x : Z) :
  Forall F p -> F x -> F (horner st p x).
Proof.
  intros Hp Hx. induction Hp as [|c p Hc Hp IH]; cbn [horner].
  - by apply fits_0.
  - unfold gf_add. auto with field.
Qed.

Lemma horner_tlf (r prev x : Z) (p : list Z) :
  F r -> F prev -> F x -> Forall F p ->
  horner st (times_linear_from st r prev p) x
  = Z.lxor (mul (horner st p x) (Z.lxor x r)) prev.
Proof.
  intros Hr Hprev Hx Hp. revert prev Hprev.
  induction Hp as [|c p Hc Hp IH]; intros prev Hprev;
    cbn [times_linear_from horner]; unfold gf_add.
  - by rewrite !mul_0_l by auto with field.
  - rewrite IH by done.
    pose proof (horner_fits p x Hp Hx) as Hh.
    repeat first [ rewrite mul_lxor_r by (auto 10 with field)
                 | rewrite mul_lxor_l by (auto 10 with field) ].
    rewrite (mul_assoc lam Hlam (horner st p x) r x),
      (mul_comm lam Hlam r x),
      <- (mul_assoc lam Hlam (horner st p x) x r) by auto with field.
    rewrite !Z.lxor_assoc. f_equal.
    by rewrite <- Z.lxor_assoc, (Z.lxor_comm (mul _ r)), Z.lxor_assoc.
Qed.

Lemma horner_times_linear (p : list Z) (r x : Z) :
  F r -> F x -> Forall F p ->
  horner st (times_linear st p r) x = mul (horner st p x) (gf_sub x r).
Proof.
  intros Hr Hx Hp. unfold times_linear.
  rewrite horner_tlf by (done || by apply fits_0). apply Z.lxor_0_r.
Qed.

Lemma horner_foldl_times_linear (p rs : list Z) (x : Z) :
  F x -> Forall F p -> Forall F rs ->
  horner st (foldl (times_linear st) p rs) x
  = foldl (fun acc r => mul acc (gf_sub x r)) (horner st p x) rs.
Proof.
  intros Hx Hp Hrs. revert p Hp.
  induction Hrs as [|r rs Hr Hrs IH]; intros p Hp; cbn [foldl]; [done|].
  rewrite IH by (by apply times_linear_fits).
  by rewrite horner_times_linear.
Qed.

Lemma horner_monic_product (roots : list Z) (x : Z) :
  F x -> Forall F roots ->
  horner st (monic_product st roots) x = product_of_differences st x roots.
Proof.
  intros Hx Hroots. unfold monic_product, product_of_differences.
  rewrite horner_foldl_times_linear
    by (done || by apply Forall_singleton, fits_1).
  f_equal. cbn [horner]. unfold gf_add.
  by rewrite mul_0_l, Z.lxor_0_l.
Qed.

Lemma product_from_0 (x : Z) (rs : list Z) :
  F x -> Forall F rs ->
  foldl (fun acc r => mul acc (gf_sub x r)) 0 rs = 0.
Proof.
  intros Hx Hrs. induction Hrs as [|r rs Hr Hrs IH]; cbn [foldl]; [done|].
  unfold gf_sub at 2. by rewrite mul_0_l by auto with field.
Qed.

Lemma product_of_differences_fits (x acc : Z) (rs : list Z) :
  F x -> F acc -> Forall F rs ->
  F (foldl (fun acc r => mul acc (gf_sub x r)) acc rs).
Proof.
  intros Hx Hacc Hrs. revert acc Hacc.
  induction Hrs as [|r rs Hr Hrs IH]; intros acc Hacc; cbn [foldl]; [done|].
  apply IH. unfold gf_sub. auto with field.
Qed.

Lemma product_at_root (x acc : Z) (rs : list Z) :
  F x -> F acc -> Forall F rs -> x ∈ rs ->
  foldl (fun acc r => mul acc (gf_sub x r)) acc rs = 0.
Proof.
  intros Hx Hacc Hrs Hin. revert acc Hacc.
  induction Hrs as [|r rs Hr Hrs IH]; intros acc Hacc;
    [by apply not_elem_of_nil in Hin|].
  cbn [foldl]. apply elem_of_cons in Hin as [->|Hin].
  - unfold gf_sub at 2. rewrite Z.lxor_nilpotent, mul_0_r by done.
    by apply product_from_0.
  - apply IH; [done|]. unfold gf_sub. auto with field.
Qed.

End RootPolynomial.

(** In the reference field [build_from_roots] returns the coefficients of
    the product of the linear factors. *)
Lemma build_from_roots_product (lam : Z) (roots : list Z) :
  lam = 4 \/ lam = 5 \/ lam = 6 -> roots <> [] ->
  Forall (fits (field_of lam)) roots ->
  build_from_roots (field_of lam) roots = monic_product (field_of lam) roots
  /\ length (build_from_roots (field_of lam) roots) = S (length roots)
  /\ last (build_from_roots (field_of lam) roots) = Some 1
  /\ (forall x, fits (field_of lam) x ->
        eval (field_of lam) (build_from_roots (field_of lam) roots) x
        = product_of_differences (field_of lam) x roots)
  /\ (forall r, r ∈ roots ->
        eval (field_of lam) (build_from_roots (field_of lam) roots) r = 0).
Proof.
  intros Hlam Hne Hroots.
  rewrite build_from_roots_monic by done.
  split; [done|]. split; [|split; [|split]].
  - unfold monic_product. rewrite foldl_times_linear_length. simpl. lia.
  - rewrite <- (build_from_roots_monic lam Hlam roots Hroots).
    unfold build_from_roots.
    assert (length (foldl (root_step (field_of lam)) (roots ++ [0])
                      (seq 1 (length roots - 1))) = S (length roots)) as Hlen.
    { pose proof (f_equal length (build_from_roots_monic lam Hlam roots Hroots))
        as Hl.
      unfold build_from_roots, monic_product in Hl.
      rewrite length_insert, foldl_times_linear_length in Hl.
      simpl in Hl. lia. }
    rewrite last_lookup, length_insert, Hlen. cbn [Nat.pred].
    apply list_lookup_insert_eq. lia.
  - intros x Hx. rewrite eval_horner. by apply horner_monic_product.
  - intros r Hr.
    assert (fits (field_of lam) r) as Hfr
      by (rewrite Forall_forall in Hroots; by apply Hroots).
    rewrite eval_horner, horner_monic_product by done.
    apply product_at_root; [done..|by apply fits_1|done|done].
Qed.

(** C4: under [lambda = 5] [build_from_roots] does not return the product
    of the linear factors.  Its coefficients are computed with the field
    multiplication of the program, which goes wrong when bit 63 of a
    carry-less product is set.  For the roots [x^39], [x^24] and [x + 1]
    the result is monic of length 4, but its two lowest coefficients are
    not those of the product in the field, and its evaluation at the
    first two roots is not zero. *)
Theorem build_from_roots_misses_roots :
  active 5 (config 5)
  /\ Forall (fits (config 5)) [2 ^ 39; 2 ^ 24; 3]
  /\ build_from_roots (config 5) [2 ^ 39; 2 ^ 24; 3]
     = [478150656; 549898420281; 549772591107; 1]
  /\ monic_product (field_of 5) [2 ^ 39; 2 ^ 24; 3]
     = [629145600; 550284296249; 549772591107; 1]
  /\ eval (config 5) (build_from_roots (config 5) [2 ^ 39; 2 ^ 24; 3]) (2 ^ 39)
     = 385875968
  /\ eval (config 5) (build_from_roots (config 5) [2 ^ 39; 2 ^ 24; 3]) (2 ^ 24)
     = 771751936
  /\ eval (field_of 5) (build_from_roots (config 5) [2 ^ 39; 2 ^ 24; 3]) (2 ^ 39)
     = 7088373760.
Proof.
  split; [apply config_active; lia|].
  split; [repeat constructor; unfold fits; simpl; lia|].
  repeat split; by vm_compute.
Qed.

(** * Lagrange interpolation *)

Lemma bind_Ok {A B : Type} (a : A) (k : A -> result B) : (Ok a ≫= k) = k a.
Proof. reflexivity. Qed.


Section Interpolation.

Variable lam : Z.
Hypothesis Hlam : lam = 4 \/ lam = 5 \/ lam = 6.

Local Abbreviation st := (field_of lam).
Local Abbreviation F := (fits (field_of lam)).
Local Abbreviation mul := (gf_mul (field_of lam)).

Local Hint Resolve mul_fits fits_0 fits_1 fits_lxor : field.

(** The inner loop of [precompute_lagrange_polynomials] over a range of
    indices that does not contain [k]. *)
Lemma skip_loop (xs : list Z) (k n s : nat) (d : Z) (acc : list Z) :
  (k < s \/ s + n <= k)%nat -> (s + n <= length xs)%nat ->
  foldl (fun '(denominator, x_except_k) j =>
           if decide (k <> j)
           then (mul denominator (gf_sub (xs !!! k) (xs !!! j)),
                 x_except_k ++ [xs !!! j])
           else (denominator, x_except_k))
        (d, acc) (seq s n)
  = (foldl (fun acc r => mul acc (gf_sub (xs !!! k) r)) d (take n (drop s xs)),
     acc ++ take n (drop s xs)).
Proof.
  revert s d acc. induction n as [|n IH]; intros s d acc Hk Hlen.
  - cbn [seq foldl take]. by rewrite app_nil_r.
  - cbn [seq foldl].
    destruct (decide (k <> s)) as [_|Heq]; [|lia].
    destruct (lookup_lt_is_Some_2 xs s ltac:(lia)) as [x Hx].
    rewrite (drop_S _ _ _ Hx), (list_lookup_total_correct _ _ _ Hx).
    cbn [take foldl]. rewrite IH by lia.
    by rewrite <- app_assoc.
Qed.

Lemma inner_loop (xs : list Z) (k : nat) :
  (k < length xs)%nat ->
  foldl (fun '(denominator, x_except_k) j =>
           if decide (k <> j)
           then (mul denominator (gf_sub (xs !!! k) (xs !!! j)),
                 x_except_k ++ [xs !!! j])
           else (denominator, x_except_k))
        (1, []) (seq 0 (length xs))
  = (product_of_differences st (xs !!! k) (delete k xs), delete k xs).
Proof.
  intros Hk.
  replace (length xs) with (k + S (length xs - S k))%nat at 1 by lia.
  rewrite seq_app, foldl_app, skip_loop by lia.
  cbn [seq foldl Nat.add].
  destruct (decide (k <> k)) as [|_]; [done|].
  rewrite skip_loop by lia.
  rewrite drop_0, (take_ge (drop (S k) xs)) by (rewrite length_drop; lia).
  unfold product_of_differences.
  by rewrite delete_take_drop, foldl_app.
Qed.

Lemma elem_of_delete_of_ne (xs : list Z) (j k : nat) (x : Z) :
  xs !! j = Some x -> j <> k -> x ∈ delete k xs.
Proof.
  intros Hj Hne. apply list_elem_of_lookup.
  destruct (decide (j < k)%nat).
  - exists j. by rewrite list_lookup_delete_lt.
  - exists (j - 1)%nat. rewrite list_lookup_delete_ge by lia.
    by replace (S (j - 1)) with j by lia.
Qed.

Lemma not_elem_of_delete (xs : list Z) (k : nat) (x : Z) :
  NoDup xs -> xs !! k = Some x -> x ∉ delete k xs.
Proof.
  intros Hnd Hk Hin.
  apply list_elem_of_lookup in Hin as [i Hi].
  destruct (decide (i < k)%nat).
  - rewrite list_lookup_delete_lt in Hi by done.
    pose proof (NoDup_lookup _ _ _ _ Hnd Hi Hk). lia.
  - rewrite list_lookup_delete_ge in Hi by lia.
    pose proof (NoDup_lookup _ _ _ _ Hnd Hi Hk). lia.
Qed.

Lemma delete_fits (xs : list Z) (k : nat) :
  Forall F xs -> Forall F (delete k xs).
Proof.
  intros Hxs. apply Forall_forall. intros x Hx%list_elem_of_delete_inv.
  rewrite Forall_forall in Hxs. by apply Hxs.
Qed.

(** Distinct points give a non-zero denominator. *)
Lemma product_nonzero (x acc : Z) (rs : list Z) :
  F x -> F acc -> acc <> 0 -> Forall F rs -> x ∉ rs ->
  foldl (fun acc r => mul acc (gf_sub x r)) acc rs <> 0.
Proof.
  intros Hx Hacc Hne Hrs Hnin. revert acc Hacc Hne.
  induction Hrs as [|r rs Hr Hrs IH]; intros acc Hacc Hne; cbn [foldl]; [done|].
  apply not_elem_of_cons in Hnin as [Hxr Hnin].
  apply IH; [done|unfold gf_sub; auto with field|].
  intros Hzero. apply mul_eq_0 in Hzero as [?|Hzero];
    [done|by apply Z.lxor_eq in Hzero|done|done|unfold gf_sub; auto with field].
Qed.

Lemma lagrange_basis_fits (xs : list Z) (k : nat) :
  Forall F xs -> (k < length xs)%nat -> Forall F (lagrange_basis st xs k).
Proof.
  intros Hxs Hk. unfold lagrange_basis. cbv zeta.
  assert (Forall F (monic_product st (delete k xs))) as Hmp.
  { apply foldl_times_linear_fits; [done| |by apply delete_fits].
    by apply Forall_singleton, fits_1. }
  apply Forall_fmap. eapply Forall_impl; [exact Hmp|].
  intros a Ha. unfold compose.
  apply (mul_fits lam Hlam); [exact Ha|].
  apply (field_inverse_fits lam Hlam).
  apply (product_of_differences_fits lam Hlam);
    [|by apply fits_1|by apply delete_fits].
  by apply (lookup_total_fits st).
Qed.

Lemma lagrange_basis_length (xs : list Z) (k : nat) :
  (k < length xs)%nat -> length (lagrange_basis st xs k) = length xs.
Proof.
  intros Hk. unfold lagrange_basis, monic_product. cbv zeta.
  rewrite length_map, foldl_times_linear_length, length_delete
    by (by apply lookup_lt_is_Some_2).
  cbn [length]. lia.
Qed.

Lemma precompute_loop (xs : list Z) (idxs : list nat) (pre : list (list Z)) :
  NoDup xs -> Forall F xs -> Forall (fun k => (k < length xs)%nat) idxs ->
  foldl (fun acc k =>
           precomputed ← acc;
           let '(denominator, x_except_k) :=
             foldl (fun '(denominator, x_except_k) j =>
                      if decide (k <> j)
                      then (mul denominator (gf_sub (xs !!! k) (xs !!! j)),
                            x_except_k ++ [xs !!! j])
                      else (denominator, x_except_k))
                   (1, []) (seq 0 (length xs)) in
           let numerator := build_from_roots st x_except_k in
           d ← ntl_inv st denominator;
           let numerator := vec_scale st numerator d in
           Ok (precomputed ++ [numerator]))
        (Ok pre) idxs
  = Ok (pre ++ map (lagrange_basis st xs) idxs).
Proof.
  intros Hnd Hxs Hidx.
  match goal with |- foldl ?f _ _ = _ => set (body := f) end.
  revert pre.
  induction Hidx as [|k idxs Hk Hidx IH]; intros pre.
  - cbn [foldl map]. by rewrite app_nil_r.
  - rewrite foldl_cons. unfold body at 2. cbv beta.
    rewrite bind_Ok, inner_loop by done. cbv beta iota zeta.
    destruct (lookup_lt_is_Some_2 xs k Hk) as [x Hx].
    assert (F (xs !!! k)) as Hfx by (by apply (lookup_total_fits st)).
    pose proof (delete_fits xs k Hxs) as Hdel.
    assert (product_of_differences st (xs !!! k) (delete k xs) <> 0) as Hne.
    { apply (product_nonzero (xs !!! k) 1 (delete k xs) Hfx (fits_1 lam Hlam));
        [lia|exact Hdel|].
      rewrite (list_lookup_total_correct _ _ _ Hx).
      by apply not_elem_of_delete. }
    rewrite (ntl_inv_nonzero _ _ Hne), bind_Ok.
    rewrite (build_from_roots_monic lam Hlam _ Hdel), vec_scale_map.
    change (map (fun a => mul a (field_inverse st
              (product_of_differences st (xs !!! k) (delete k xs))))
              (monic_product st (delete k xs)))
      with (lagrange_basis st xs k).
    rewrite IH. cbn [map]. by rewrite <- app_assoc.
Qed.

Lemma precompute_ok (xs : list Z) :
  NoDup xs -> Forall F xs ->
  precompute_lagrange_polynomials st xs
  = Ok (map (lagrange_basis st xs) (seq 0 (length xs))).
Proof.
  intros Hnd Hxs. unfold precompute_lagrange_polynomials. cbv zeta.
  rewrite precompute_loop; [done..|].
  apply Forall_forall. intros k Hk%list_elem_of_In%in_seq. lia.
Qed.

(** * Evaluation of the interpolant *)

Lemma horner_scale (p : list Z) (s x : Z) :
  F s -> F x -> Forall F p ->
  horner st (map (fun a => mul a s) p) x = mul (horner st p x) s.
Proof.
  intros Hs Hx Hp. induction Hp as [|c p Hc Hp IH]; cbn [map horner].
  - by rewrite mul_0_l.
  - pose proof (horner_fits lam Hlam p x Hp Hx) as Hh.
    unfold gf_add. rewrite IH, mul_lxor_l by auto with field.
    f_equal.
    rewrite (mul_assoc lam Hlam _ s x), (mul_comm lam Hlam s x),
      <- (mul_assoc lam Hlam _ x s) by auto with field.
    done.
Qed.

Lemma horner_zip_lxor (p q : list Z) (x : Z) :
  F x -> Forall F p -> Forall F q -> length p = length q ->
  horner st (zip_with Z.lxor p q) x
  = Z.lxor (horner st p x) (horner st q x).
Proof.
  intros Hx Hp. revert q.
  induction Hp as [|c p Hc Hp IH]; intros [|e q] Hq Hlen; try done.
  apply Forall_cons in Hq as [He Hq].
  cbn [zip_with horner]. unfold gf_add.
  rewrite IH by (done || (cbn [length] in Hlen; lia)).
  rewrite mul_lxor_l by auto using horner_fits with field.
  apply lxor_swap.
Qed.

Lemma horner_zeros (n : nat) (x : Z) :
  F x -> horner st (replicate n 0) x = 0.
Proof.
  intros Hx. induction n as [|n IH]; cbn [replicate horner]; [done|].
  unfold gf_add. by rewrite IH, mul_0_l, Z.lxor_0_l.
Qed.

Lemma zip_lxor_fits (p q : list Z) :
  Forall F p -> Forall F q -> Forall F (zip_with Z.lxor p q).
Proof.
  intros Hp. revert q. induction Hp as [|c p Hc Hp IH]; intros [|e q] Hq;
    cbn [zip_with]; try done.
  apply Forall_cons in Hq as [He Hq].
  apply Forall_cons. split; [auto with field|by apply IH].
Qed.

(** The value of the weighted sum at a point is the weighted sum of the
    values of the basis polynomials. *)
Lemma horner_weighted (basis : list (list Z)) (ys : list Z) (x : Z)
    (idxs : list nat) (res : list Z) :
  F x -> Forall F res -> Forall F ys ->
  Forall (fun k => (k < length ys)%nat /\ Forall F (basis !!! k)
                   /\ length (basis !!! k) = length res) idxs ->
  horner st
    (foldl (fun res k =>
              zip_with Z.lxor res (map (fun a => mul a (ys !!! k)) (basis !!! k)))
           res idxs) x
  = foldl (fun acc k => Z.lxor acc (mul (horner st (basis !!! k) x) (ys !!! k)))
      (horner st res x) idxs.
Proof.
  intros Hx Hres Hys Hidx. revert res Hres Hidx.
  induction idxs as [|k idxs IH]; intros res Hres Hidx; [done|].
  apply Forall_cons in Hidx as [(Hk & Hbk & Hlk) Hidx].
  cbn [foldl].
  pose proof (lookup_total_fits st ys k Hys Hk) as Hyk.
  assert (Forall F (map (fun a => mul a (ys !!! k)) (basis !!! k))) as Hscaled.
  { apply Forall_fmap. eapply Forall_impl; [exact Hbk|].
    intros a Ha. cbv beta. auto with field. }
  rewrite IH; cycle 1.
  { by apply zip_lxor_fits. }
  { eapply Forall_impl; [exact Hidx|]. intros j (? & ? & Hlj).
    split; [done|]. split; [done|].
    rewrite length_zip_with, length_map. lia. }
  f_equal.
  rewrite horner_zip_lxor, horner_scale by (done || by rewrite length_map).
  done.
Qed.

(** A sum in which only the term of index [j] is present. *)
Lemma kronecker_sum (e : nat -> Z) (ys : list Z) (j n : nat) :
  Forall F ys -> (n <= length ys)%nat ->
  (forall k, (k < n)%nat -> e k = if decide (k = j) then 1 else 0) ->
  foldl (fun acc k => Z.lxor acc (mul (e k) (ys !!! k))) 0 (seq 0 n)
  = if decide (j < n)%nat then ys !!! j else 0.
Proof.
  intros Hys. induction n as [|n IH]; intros Hn He.
  - cbn [seq foldl]. by destruct (decide _); [lia|].
  - rewrite seq_S, foldl_app, IH by (lia || intros; apply He; lia).
    cbn [foldl Nat.add]. rewrite He by lia.
    pose proof (lookup_total_fits st ys n Hys ltac:(lia)) as Hyn.
    destruct (decide (n = j)) as [->|Hne].
    + rewrite mul_1_l by done.
      destruct (decide (j < j)%nat), (decide (j < S j)%nat); try lia.
      apply Z.lxor_0_l.
    + rewrite mul_0_l, Z.lxor_0_r by done.
      destruct (decide (j < n)%nat), (decide (j < S n)%nat); lia || done.
Qed.

Lemma lagrange_basis_at (xs : list Z) (j k : nat) :
  NoDup xs -> Forall F xs -> (j < length xs)%nat -> (k < length xs)%nat ->
  horner st (lagrange_basis st xs k) (xs !!! j)
  = if decide (k = j) then 1 else 0.
Proof.
  intros Hnd Hxs Hj Hk.
  destruct (lookup_lt_is_Some_2 xs j Hj) as [xj Hxj].
  destruct (lookup_lt_is_Some_2 xs k Hk) as [xk Hxk].
  pose proof (delete_fits xs k Hxs) as Hdel.
  pose proof (lookup_total_fits st xs j Hxs Hj) as Hfj.
  pose proof (lookup_total_fits st xs k Hxs Hk) as Hfk.
  assert (F (product_of_differences st (xs !!! k) (delete k xs))) as Hden.
  { apply product_of_differences_fits; [done| |by apply fits_1|done]. done. }
  assert (product_of_differences st (xs !!! k) (delete k xs) <> 0) as Hne.
  { apply product_nonzero; [done|by apply fits_1|done|done|].
    rewrite (list_lookup_total_correct _ _ _ Hxk).
    by apply not_elem_of_delete. }
  unfold lagrange_basis. cbv zeta.
  rewrite horner_scale; cycle 1.
  { apply field_inverse_fits; done. }
  { done. }
  { apply foldl_times_linear_fits; [done| |done].
    by apply Forall_singleton, fits_1. }
  rewrite horner_monic_product by done.
  destruct (decide (k = j)) as [->|Hkj].
  - replace (field_inverse st (product_of_differences st (xs !!! j) (delete j xs)))
      with (conjugate_product (Z.to_nat (8 * lam) - 1) st
              (product_of_differences st (xs !!! j) (delete j xs)) 1).
    + by apply mul_inv_r.
    + symmetry. by apply field_inverse_cp.
  - unfold product_of_differences at 1.
    rewrite product_at_root; [|done..|by apply fits_1|done|].
    + apply mul_0_l; [done|].
      apply field_inverse_fits; done.
    + rewrite (list_lookup_total_correct _ _ _ Hxj).
      by apply (elem_of_delete_of_ne xs j k).
Qed.

End Interpolation.

(** In the reference field interpolation recovers the values. *)
Lemma interpolation_field_of (lam : Z) (x_values y_values : list Z) :
  lam = 4 \/ lam = 5 \/ lam = 6 ->
  x_values <> [] -> NoDup x_values ->
  Forall (fits (field_of lam)) x_values ->
  Forall (fits (field_of lam)) y_values ->
  length y_values = length x_values ->
  exists basis poly,
    precompute_lagrange_polynomials (field_of lam) x_values = Ok basis
    /\ interpolate_with_precomputation (field_of lam) basis y_values = Ok poly
    /\ forall k, (k < length x_values)%nat ->
         eval (field_of lam) poly (x_values !!! k) = y_values !!! k.
Proof.
  intros Hlam Hne Hnd Hxs Hys Hlen.
  set (m := length x_values) in *.
  set (basis := map (lagrange_basis (field_of lam) x_values) (seq 0 m)).
  assert (length basis = m) as Hlb by (unfold basis; by rewrite length_map, length_seq).
  assert (0 < m)%nat as Hm by (unfold m; destruct x_values; [done|cbn [length]; lia]).
  assert (forall k, (k < m)%nat ->
            basis !!! k = lagrange_basis (field_of lam) x_values k) as Hbk.
  { intros k Hk. unfold basis. apply list_lookup_total_correct.
    rewrite list_lookup_fmap, lookup_seq_lt by lia. done. }
  assert (forall k, (k < m)%nat -> length (basis !!! k) = m) as Hlk.
  { intros k Hk. rewrite Hbk by done. by apply lagrange_basis_length. }
  exists basis, (weighted_sum (field_of lam) basis y_values).
  split; [by apply precompute_ok|].
  destruct (interpolate_ok (field_of lam) basis y_values) as [Hok Hlw].
  { lia. }
  { intros ->. cbn [length] in Hlen. lia. }
  { apply Forall_forall. intros p Hp.
    apply list_elem_of_lookup in Hp as [k Hk].
    pose proof (lookup_lt_Some _ _ _ Hk) as Hkm.
    rewrite <- (list_lookup_total_correct _ _ _ Hk).
    rewrite !Hlk by lia. done. }
  split; [exact Hok|].
  intros j Hj. rewrite eval_horner. unfold weighted_sum.
  pose proof (lookup_total_fits _ x_values j Hxs Hj) as Hfj.
  rewrite (horner_weighted lam Hlam); cycle 1.
  { exact Hfj. }
  { apply Forall_replicate. by apply fits_0. }
  { exact Hys. }
  { apply Forall_forall. intros k Hk%list_elem_of_In%in_seq.
    split; [lia|]. rewrite length_replicate, !Hlk, Hbk by lia.
    split; [|done]. apply lagrange_basis_fits; [done..|lia]. }
  rewrite horner_zeros by done.
  rewrite (kronecker_sum lam Hlam
             (fun k => horner (field_of lam) (basis !!! k) (x_values !!! j))
             y_values j (length y_values)); [|done|lia|].
  - destruct (decide (j < length y_values)%nat); [done|lia].
  - intros k Hk. cbv beta. rewrite Hbk by lia.
    apply lagrange_basis_at; [done..|lia].
Qed.

(** C3: under [lambda] 5 and 6 interpolation does not recover the values.
    The Lagrange polynomials and the interpolant are computed with the
    field multiplication of the program, which goes wrong when bit 63 of a
    carry-less product is set.  Under [lambda = 5], for the two points
    [x^39] and [x^39 + 1] (both denominators are 1, and so are their
    inverses) and the values [x^39] and [x^24], the precomputation and the
    interpolation succeed, and the interpolant evaluates to 824633720832
    and 274894684160 at the two points.  Under [lambda = 6], for the
    points [x], [x^2], [x^3] and the values 11, 22 and [x^47], the
    interpolant evaluates to 1055531164500049 at the first point. *)
Theorem interpolation_misses_values :
  active 5 (config 5)
  /\ NoDup [2 ^ 39; 2 ^ 39 + 1]
  /\ Forall (fits (config 5)) [2 ^ 39; 2 ^ 39 + 1]
  /\ Forall (fits (config 5)) [2 ^ 39; 2 ^ 24]
  /\ precompute_lagrange_polynomials (config 5) [2 ^ 39; 2 ^ 39 + 1]
     = Ok [[2 ^ 39 + 1; 1]; [2 ^ 39; 1]]
  /\ interpolate_with_precomputation (config 5)
       [[2 ^ 39 + 1; 1]; [2 ^ 39; 1]] [2 ^ 39; 2 ^ 24]
     = Ok [824826659166; 549772591104]
  /\ eval (config 5) [824826659166; 549772591104] (2 ^ 39) = 824633720832
  /\ eval (config 5) [824826659166; 549772591104] (2 ^ 39 + 1) = 274894684160
  /\ active 6 (config 6)
  /\ precompute_lagrange_polynomials (config 6) [2; 4; 8]
     = Ok [[168884986026381; 93824992236892; 14073748835533];
           [187649984473784; 70368744177675; 152465612384957];
           [56294995342132; 23456248059223; 147774362773104]]
  /\ interpolate_with_precomputation (config 6)
       [[168884986026381; 93824992236892; 14073748835533];
        [187649984473784; 70368744177675; 152465612384957];
        [56294995342132; 23456248059223; 147774362773104]] [11; 22; 2 ^ 47]
     = Ok [900719926129446; 375299969406303; 235735292995193]
  /\ eval (config 6) [900719926129446; 375299969406303; 235735292995193] 2
     = 1055531164500049.
Proof.
  split; [apply config_active; lia|].
  split; [repeat constructor; rewrite ?elem_of_cons, ?elem_of_nil; intuition lia|].
  split; [repeat constructor; unfold fits; simpl; lia|].
  split; [repeat constructor; unfold fits; simpl; lia|].
  do 4 (split; [vm_compute; reflexivity|]).
  split; [apply config_active; lia|].
  split; [vm_compute; reflexivity|].
  split; vm_compute; reflexivity.
Qed.

(** * The arithmetic of the program

    What the field multiplication of the program shares with the
    reference field under every [lambda]: it is commutative, and it is the
    product of the reference field on squares and whenever the degrees of
    the two operands add up to less than 64, which covers the products
    with 0, 1 and [x].  On these bit 63 of the carry-less product is
    clear. *)

Lemma land_pow2_pow2 (i j : Z) :
  0 <= i -> 0 <= j -> i <> j -> Z.land (2 ^ i) (2 ^ j) = 0.
Proof.
  intros Hi Hj Hne. apply Z.bits_inj'. intros k Hk.
  rewrite Z.land_spec, Z.bits_0, !Z.pow2_bits_eqb by lia.
  destruct (Z.eqb_spec i k), (Z.eqb_spec j k); try done. lia.
Qed.

Lemma land_lxor_distr_l (a b m : Z) :
  Z.land (Z.lxor a b) m = Z.lxor (Z.land a m) (Z.land b m).
Proof.
  apply Z.bits_inj'. intros k Hk.
  rewrite Z.land_spec, !Z.lxor_spec, !Z.land_spec.
  by destruct (Z.testbit a k), (Z.testbit b k), (Z.testbit m k).
Qed.

(** The carry-less square of a polynomial has its coefficients at even
    positions only. *)
Lemma clmul_sq_sign (a : Z) :
  0 <= a < 2 ^ 64 -> Z.testbit (clmul a a) 63 = false.
Proof.
  intros Ha.
  assert (Z.land (clmul a a) (2 ^ 63) = 0) as H0.
  { apply (linear_ext 64 (fun a => Z.land (clmul a a) (2 ^ 63)) (fun _ => 0));
      [lia| | | |done].
    - intros x y Hx Hy.
      rewrite clmul_lxor_l, !clmul_lxor_r, (clmul_comm y x) by done.
      rewrite lxor_cancel_mid. apply land_lxor_distr_l.
    - intros. by rewrite Z.lxor_0_r.
    - intros i Hi. rewrite clmul_pow2_l by done.
      rewrite Z.shiftl_mul_pow2, <- Z.pow_add_r by lia.
      apply land_pow2_pow2; lia. }
  apply (f_equal (fun v => Z.testbit v 63)) in H0.
  rewrite Z.land_spec, Z.bits_0, Z.pow2_bits_true in H0 by lia.
  by rewrite andb_true_r in H0.
Qed.

Lemma clmul_small_sign (a b i j : Z) :
  0 <= a < 2 ^ i -> 0 <= b < 2 ^ j -> 1 <= i -> 0 <= j -> i + j <= 64 ->
  Z.testbit (clmul a b) 63 = false.
Proof.
  intros Ha Hb Hi Hj Hij.
  pose proof (clmul_bound a b i j Ha Hb ltac:(lia) Hj) as Hc.
  assert (2 ^ (i + j - 1) <= 2 ^ 63) by (apply pow2_mono; lia).
  apply (testbit_above _ 63); lia.
Qed.

Section ProgramArithmetic.

Variable lam : Z.
Hypothesis Hlam : lam = 4 \/ lam = 5 \/ lam = 6.

Local Abbreviation F := (fits (config lam)).

Lemma config_fits_64 (a : Z) : F a -> 0 <= a < 2 ^ 64.
Proof.
  rewrite fits_config by done. intros Ha.
  assert (2 ^ (8 * lam) <= 2 ^ 64) by (apply pow2_mono; lia). lia.
Qed.

Lemma config_mul_comm (a b : Z) :
  F a -> F b -> gf_mul (config lam) a b = gf_mul (config lam) b a.
Proof.
  intros Ha Hb. unfold gf_mul.
  by rewrite (clmul_comm a b) by (by apply config_fits_64).
Qed.

Lemma config_sqr (a : Z) :
  F a -> gf_mul (config lam) a a = gf_sqr (field_of lam) a.
Proof.
  intros Ha. apply gf_mul_config_exact; [done..|].
  right. by apply clmul_sq_sign, config_fits_64.
Qed.

Lemma config_sqr_fits (a : Z) : F a -> F (gf_mul (config lam) a a).
Proof.
  intros Ha. rewrite config_sqr by done.
  apply (fits_to_config lam Hlam).
  apply sq_fits; [done|]. by apply (fits_to_field_of lam Hlam).
Qed.

Lemma config_iter_sqr (k : nat) (a : Z) :
  F a ->
  Nat.iter k (fun c => gf_mul (config lam) c c) a
  = Nat.iter k (gf_sqr (field_of lam)) a.
Proof.
  intros Ha. induction k as [|k IH]; [done|].
  rewrite !Nat.iter_succ, IH. apply config_sqr.
  apply (fits_to_config lam Hlam).
  apply iter_sq_fits; [done|]. by apply (fits_to_field_of lam Hlam).
Qed.

(** Products in which the second operand has degree below [64 - 8 lam]. *)
Lemma config_mul_small (a b : Z) :
  F a -> 0 <= b < 2 ^ (64 - 8 * lam) ->
  gf_mul (config lam) a b = gf_mul (field_of lam) a b.
Proof.
  intros Ha Hb.
  assert (2 ^ (64 - 8 * lam) <= 2 ^ (8 * lam)) by (apply pow2_mono; lia).
  apply gf_mul_config_exact; [done..|by apply fits_config; [done|lia]|].
  right. rewrite fits_config in Ha by done.
  apply (clmul_small_sign a b (8 * lam) (64 - 8 * lam)); lia.
Qed.

Lemma small_2 : 0 <= 2 < 2 ^ (64 - 8 * lam).
Proof.
  split; [lia|]. change 2 with (2 ^ 1) at 1. apply Z.pow_lt_mono_r; lia.
Qed.

Lemma small_1 : 0 <= 1 < 2 ^ (64 - 8 * lam).
Proof. pose proof small_2. lia. Qed.

Lemma config_mul_1_r (a : Z) : F a -> gf_mul (config lam) a 1 = a.
Proof.
  intros Ha. rewrite config_mul_small by (done || apply small_1).
  apply mul_1_r; [done|]. by apply (fits_to_field_of lam Hlam).
Qed.

Lemma config_mul_0_r (a : Z) : F a -> gf_mul (config lam) a 0 = 0.
Proof.
  intros Ha. pose proof small_1.
  rewrite config_mul_small by (done || lia).
  apply mul_0_r; [done|]. by apply (fits_to_field_of lam Hlam).
Qed.

Lemma config_mul_2 (a : Z) :
  F a -> gf_mul (config lam) a 2 = gf_mul (field_of lam) a 2.
Proof. intros Ha. apply config_mul_small; [done|apply small_2]. Qed.

Lemma config_fits_1 : F 1.
Proof. apply (fits_to_config lam Hlam). by apply fits_1. Qed.

Lemma config_fits_2 : F 2.
Proof. apply (fits_to_config lam Hlam). by apply fits_2. Qed.

Lemma config_fits_0 : F 0.
Proof. apply (fits_to_config lam Hlam). by apply fits_0. Qed.

Lemma config_fits_lxor (a b : Z) : F a -> F b -> F (Z.lxor a b).
Proof.
  intros Ha Hb. apply (fits_to_config lam Hlam).
  apply fits_lxor; [done|by apply (fits_to_field_of lam Hlam)..].
Qed.

(** Under [lambda] 4 and 5 the result of the reduction routine is masked
    to [8 * lambda] bits, whatever the accumulator. *)
Lemma config_reduce_fits (c : Z) :
  lam = 4 \/ lam = 5 -> F (reduce (config lam) c).
Proof.
  intros [-> | ->]; unfold fits; cbn [config reduce byte_size].
  - unfold reduce_GF2_32. cbv zeta.
    change 0xFFFFFFFF with (Z.ones 32). rewrite Z.land_comm, Z.land_ones by lia.
    apply Z.mod_pos_bound. lia.
  - unfold reduce_GF2_40. cbv zeta.
    change 0xFFFFFFFFFF with (Z.ones 40). rewrite Z.land_comm, Z.land_ones by lia.
    apply Z.mod_pos_bound. lia.
Qed.

End ProgramArithmetic.

(** * The field laws of the element operators *)

(** X1: under every active configuration the elements that fit in
    [8 * byte_size] bits are closed under [operator+], which is
    commutative and associative with 0 as neutral element, every element
    being its own opposite, and [operator-] is [operator+]; [operator*] is
    commutative, with 1 as neutral element and 0 as absorbing element.
    Under [lambda] 4 and 5 the product of two elements fits as well.
    Under [lambda = 4] the product is associative and distributes over the
    sum: the elements form a commutative ring.  Under [lambda = 5] it is
    neither associative nor distributive, and under [lambda = 6] a product
    of two elements need not fit in 48 bits. *)
Theorem gf2e_commutative_ring (lam : Z) (st : field_state) (a b c : Z) :
  active lam st -> fits st a -> fits st b -> fits st c ->
  fits st (gf_add a b)
  /\ gf_add a b = gf_add b a
  /\ gf_add (gf_add a b) c = gf_add a (gf_add b c)
  /\ gf_add a 0 = a /\ gf_add a a = 0 /\ gf_sub a b = gf_add a b
  /\ gf_mul st a b = gf_mul st b a
  /\ gf_mul st a 1 = a /\ gf_mul st a 0 = 0
  /\ (lam = 4 \/ lam = 5 -> fits st (gf_mul st a b))
  /\ (lam = 4 ->
      gf_mul st (gf_mul st a b) c = gf_mul st a (gf_mul st b c)
      /\ gf_mul st a (gf_add b c) = gf_add (gf_mul st a b) (gf_mul st a c))
  /\ gf_mul (config 5) (gf_mul (config 5) 2 (2 ^ 23)) (2 ^ 39)
     <> gf_mul (config 5) 2 (gf_mul (config 5) (2 ^ 23) (2 ^ 39))
  /\ gf_mul (config 5) (2 ^ 39) (gf_add (2 ^ 25) (2 ^ 24))
     <> gf_add (gf_mul (config 5) (2 ^ 39) (2 ^ 25))
          (gf_mul (config 5) (2 ^ 39) (2 ^ 24))
  /\ ~ fits (config 6) (gf_mul (config 6) 235477299530035 45350311783564).
Proof.
  intros Hact Ha Hb Hc.
  destruct (active_config lam st Hact) as [Hlam ->].
  unfold gf_add, gf_sub.
  split; [exact (config_fits_lxor lam Hlam a b Ha Hb)|].
  split; [apply Z.lxor_comm|].
  split; [apply Z.lxor_assoc|].
  split; [apply Z.lxor_0_r|].
  split; [apply Z.lxor_nilpotent|].
  split; [done|].
  split; [exact (config_mul_comm lam Hlam a b Ha Hb)|].
  split; [exact (config_mul_1_r lam Hlam a Ha)|].
  split; [exact (config_mul_0_r lam Hlam a Ha)|].
  split; [intros H45; exact (config_reduce_fits lam Hlam (clmul a b) H45)|].
  split.
  - intros Hl4. rewrite (config_field_of lam Hl4) in *.
    split; [by apply mul_assoc|by apply mul_lxor_r].
  - split; [by vm_compute|]. split; [by vm_compute|].
    unfold fits. vm_compute. intros [_ H]. done.
Qed.

Lemma gf2e_commutative_ring_witness :
  fits (config 4) (gf_add 7 (2 ^ 31))
  /\ gf_add 7 (2 ^ 31) = gf_add (2 ^ 31) 7
  /\ gf_add (gf_add 7 (2 ^ 31)) 5 = gf_add 7 (gf_add (2 ^ 31) 5)
  /\ gf_add 7 0 = 7 /\ gf_add 7 7 = 0 /\ gf_sub 7 (2 ^ 31) = gf_add 7 (2 ^ 31)
  /\ gf_mul (config 4) 7 (2 ^ 31) = gf_mul (config 4) (2 ^ 31) 7
  /\ gf_mul (config 4) 7 1 = 7 /\ gf_mul (config 4) 7 0 = 0
  /\ (4 = 4 \/ 4 = 5 -> fits (config 4) (gf_mul (config 4) 7 (2 ^ 31)))
  /\ (4 = 4 ->
      gf_mul (config 4) (gf_mul (config 4) 7 (2 ^ 31)) 5
      = gf_mul (config 4) 7 (gf_mul (config 4) (2 ^ 31) 5)
      /\ gf_mul (config 4) 7 (gf_add (2 ^ 31) 5)
         = gf_add (gf_mul (config 4) 7 (2 ^ 31)) (gf_mul (config 4) 7 5))
  /\ gf_mul (config 5) (gf_mul (config 5) 2 (2 ^ 23)) (2 ^ 39)
     <> gf_mul (config 5) 2 (gf_mul (config 5) (2 ^ 23) (2 ^ 39))
  /\ gf_mul (config 5) (2 ^ 39) (gf_add (2 ^ 25) (2 ^ 24))
     <> gf_add (gf_mul (config 5) (2 ^ 39) (2 ^ 25))
          (gf_mul (config 5) (2 ^ 39) (2 ^ 24))
  /\ ~ fits (config 6) (gf_mul (config 6) 235477299530035 45350311783564).
Proof.
  apply (gf2e_commutative_ring 4 (config 4) 7 (2 ^ 31) 5).
  - apply config_active. lia.
  - unfold fits; simpl; lia.
  - unfold fits; simpl; lia.
  - unfold fits; simpl; lia.
Defined.

(** X2: under the active configuration of [lambda = 4] the product of two
    elements is zero only if one of them is, and every non-zero element
    has exactly one inverse for [operator*]: the elements form a field.
    Under [lambda = 5] the product of the two non-zero elements
    1099511627775 and 119537664 is zero. *)
Theorem gf2e_is_field (lam : Z) (st : field_state) (a : Z) :
  active lam st -> lam = 4 -> fits st a ->
  (forall b, fits st b -> gf_mul st a b = 0 <-> a = 0 \/ b = 0)
  /\ (a <> 0 ->
      exists v, fits st v /\ gf_mul st a v = 1
                /\ forall w, fits st w -> gf_mul st a w = 1 -> w = v)
  /\ fits (config 5) 1099511627775 /\ fits (config 5) 119537664
  /\ gf_mul (config 5) 1099511627775 119537664 = 0.
Proof.
  intros Hact Hl4 Ha.
  destruct (active_config lam st Hact) as [Hlam ->].
  rewrite (config_field_of lam Hl4) in *.
  split; [|split].
  - intros b Hb. split; [by apply mul_eq_0|].
    intros [-> | ->]; [by apply mul_0_l|by apply mul_0_r].
  - intros Hne.
    destruct (ntl_inv_correct lam Hlam a Ha Hne) as (v & Hv & Hfv & Hav).
    exists v. split; [done|]. split; [done|].
    intros w Hw Haw.
    rewrite (field_inverse_unique lam Hlam a w Ha Hw Haw).
    by rewrite (field_inverse_unique lam Hlam a v Ha Hfv Hav).
  - split; [unfold fits; simpl; lia|]. split; [unfold fits; simpl; lia|].
    by vm_compute.
Qed.

Lemma gf2e_is_field_witness :
  (forall b, fits (config 4) b ->
     gf_mul (config 4) (2 ^ 31 + 1) b = 0 <-> 2 ^ 31 + 1 = 0 \/ b = 0)
  /\ (2 ^ 31 + 1 <> 0 ->
      exists v, fits (config 4) v /\ gf_mul (config 4) (2 ^ 31 + 1) v = 1
                /\ forall w, fits (config 4) w ->
                     gf_mul (config 4) (2 ^ 31 + 1) w = 1 -> w = v)
  /\ fits (config 5) 1099511627775 /\ fits (config 5) 119537664
  /\ gf_mul (config 5) 1099511627775 119537664 = 0.
Proof.
  apply (gf2e_is_field 4 (config 4) (2 ^ 31 + 1)).
  - apply config_active. lia.
  - reflexivity.
  - unfold fits; simpl; lia.
Defined.

(** X3: squaring is additive, [(a + b)^2 = a^2 + b^2], and squaring an
    element [8 * byte_size] times in a row gives the element back: every
    element satisfies [a^(2^k) = a] in the field of [2^k] elements. *)
Theorem gf2e_frobenius (lam : Z) (st : field_state) (a b : Z) :
  active lam st -> fits st a -> fits st b ->
  gf_mul st (gf_add a b) (gf_add a b)
  = gf_add (gf_mul st a a) (gf_mul st b b)
  /\ Nat.iter (Z.to_nat (8 * byte_size st)) (fun c => gf_mul st c c) a = a.
Proof.
  intros Hact Ha Hb.
  destruct (active_config lam st Hact) as [Hlam ->].
  assert (byte_size (config lam) = lam) as ->
    by (by destruct Hlam as [-> | [-> | ->]]).
  pose proof (fits_to_field_of lam Hlam a Ha) as Ha'.
  pose proof (fits_to_field_of lam Hlam b Hb) as Hb'.
  unfold gf_add. split.
  - rewrite (config_sqr lam Hlam (Z.lxor a b)
               (config_fits_lxor lam Hlam a b Ha Hb)).
    rewrite (config_sqr lam Hlam a Ha), (config_sqr lam Hlam b Hb).
    exact (sq_lxor lam Hlam a b Ha' Hb').
  - rewrite (config_iter_sqr lam Hlam _ a Ha).
    exact (frobenius lam Hlam a Ha').
Qed.

Lemma gf2e_frobenius_witness :
  gf_mul (config 5) (gf_add 3 (2 ^ 39)) (gf_add 3 (2 ^ 39))
  = gf_add (gf_mul (config 5) 3 3) (gf_mul (config 5) (2 ^ 39) (2 ^ 39))
  /\ Nat.iter (Z.to_nat (8 * byte_size (config 5)))
       (fun c => gf_mul (config 5) c c) 3 = 3.
Proof.
  apply (gf2e_frobenius 5 (config 5) 3 (2 ^ 39)).
  - apply config_active. lia.
  - unfold fits; simpl; lia.
  - unfold fits; simpl; lia.
Defined.

(** X4: [GF2E::inverse] returns its argument, which is the inverse of an
    element only for the element 1: [a * a.inverse() = 1] if and only if
    [a = 1]. *)
Theorem inverse_correct_only_for_one (lam : Z) (st : field_state) (a : Z) :
  active lam st -> fits st a ->
  gf_mul st a (inverse a) = 1 <-> a = 1.
Proof.
  intros Hact Ha.
  destruct (active_config lam st Hact) as [Hlam ->].
  pose proof (fits_to_field_of lam Hlam a Ha) as Ha'.
  unfold inverse. rewrite (config_sqr lam Hlam a Ha). split.
  - intros Hsq.
    assert (fits (field_of lam) 1) as H1 by (by apply fits_1).
    assert (fits (field_of lam) (Z.lxor a 1)) as Hx by (by apply fits_lxor).
    pose proof (sq_lxor lam Hlam a 1 Ha' H1) as Hs.
    rewrite Hsq in Hs. unfold gf_sqr in Hs.
    rewrite (mul_1_l lam Hlam 1 H1), Z.lxor_nilpotent in Hs.
    destruct (mul_eq_0 lam Hlam _ _ Hx Hx Hs) as [H0 | H0];
      apply Z.lxor_eq in H0; exact H0.
  - intros ->. unfold gf_sqr. apply mul_1_l; [done|by apply fits_1].
Qed.

Lemma inverse_correct_only_for_one_witness :
  gf_mul (config 5) 2 (inverse 2) = 1 <-> 2 = 1.
Proof.
  apply (inverse_correct_only_for_one 5 (config 5) 2).
  - apply config_active. lia.
  - unfold fits; simpl; lia.
Defined.

(** * Serialisation *)

Lemma le_bytes_length (n : nat) (x : Z) : length (le_bytes n x) = n.
Proof. revert x. induction n as [|n IH]; intros x; [done|]. cbn. by rewrite IH. Qed.

Lemma le64toh_le_bytes (n : nat) (x : Z) :
  le64toh (le_bytes n x) = x mod 2 ^ (8 * Z.of_nat n).
Proof.
  revert x. induction n as [|n IH]; intros x.
  - cbn. by rewrite Z.mod_1_r.
  - cbn [le_bytes le64toh foldr]. fold (le64toh (le_bytes n (x / 256))).
    rewrite IH.
    replace (8 * Z.of_nat (S n)) with (8 + 8 * Z.of_nat n) by lia.
    rewrite Z.pow_add_r by lia. change (2 ^ 8) with 256.
    rewrite Z.rem_mul_r; [done|lia|]. apply pow2_pos. lia.
Qed.

Lemma take_le_bytes (m n : nat) (x : Z) :
  (m <= n)%nat -> take m (le_bytes n x) = le_bytes m x.
Proof.
  revert n x. induction m as [|m IH]; intros n x Hmn; [done|].
  destruct n as [|n]; [lia|]. cbn. rewrite IH by lia. done.
Qed.

Lemma le_bytes_0 (n : nat) : le_bytes n 0 = replicate n 0.
Proof.
  induction n as [|n IH]; [done|].
  cbn [le_bytes replicate]. change (0 mod 256) with 0. change (0 / 256) with 0.
  by rewrite IH.
Qed.

Lemma le64toh_app_zeros (l : list Z) (k : nat) :
  le64toh (l ++ replicate k 0) = le64toh l.
Proof.
  induction l as [|b l IH].
  - induction k as [|k IHk]; [done|]. cbn in *. unfold le64toh in IHk.
    rewrite IHk. done.
  - cbn. unfold le64toh in IH. by rewrite IH.
Qed.

Lemma le64toh_bound (l : list Z) :
  Forall (fun b => 0 <= b < 256) l ->
  0 <= le64toh l < 2 ^ (8 * Z.of_nat (length l)).
Proof.
  induction 1 as [|b l Hb _ IH]; [cbn; lia|].
  cbn [length le64toh foldr]. fold (le64toh l).
  replace (8 * Z.of_nat (S (length l))) with (8 + 8 * Z.of_nat (length l)) by lia.
  rewrite Z.pow_add_r by lia. change (2 ^ 8) with 256. nia.
Qed.

Lemma le_bytes_le64toh (l : list Z) (k : nat) :
  Forall (fun b => 0 <= b < 256) l ->
  le_bytes (length l + k) (le64toh l) = l ++ replicate k 0.
Proof.
  induction 1 as [|b l Hb _ IH].
  - cbn. apply le_bytes_0.
  - cbn [length le64toh foldr Nat.add le_bytes app]. fold (le64toh l).
    replace ((b + 256 * le64toh l) mod 256) with b.
    2:{ rewrite (Z.mul_comm 256), Z.mod_add by lia.
        by rewrite Z.mod_small. }
    replace ((b + 256 * le64toh l) / 256) with (le64toh l).
    2:{ rewrite (Z.mul_comm 256), Z.div_add by lia.
        rewrite Z.div_small by lia. lia. }
    by rewrite IH.
Qed.

Lemma from_bytes_take (st : field_state) (inp : list Z) :
  0 <= byte_size st <= 8 ->
  (Z.to_nat (byte_size st) <= length inp)%nat ->
  from_bytes st inp = le64toh (take (Z.to_nat (byte_size st)) inp).
Proof.
  intros Hbs Hlen. unfold from_bytes, memcpy. cbv zeta.
  rewrite drop_replicate. apply le64toh_app_zeros.
Qed.

Lemma active_byte_size (lam : Z) (st : field_state) :
  active lam st -> byte_size st = lam /\ (lam = 4 \/ lam = 5 \/ lam = 6).
Proof.
  intros Hact. destruct (active_config lam st Hact) as [Hlam ->].
  split; [|done]. by destruct Hlam as [-> | [-> | ->]].
Qed.

(** X5: [to_bytes] followed by [from_bytes] gives back the low
    [8 * byte_size] bits of the element, hence the element itself when it
    fits; [to_bytes] writes [byte_size] bytes and leaves the rest of the
    buffer as it was. *)
Theorem from_bytes_to_bytes (lam : Z) (st : field_state) (a : Z)
    (out : list Z) :
  active lam st -> 0 <= a < 2 ^ 64 ->
  (Z.to_nat (byte_size st) <= length out)%nat ->
  from_bytes st (to_bytes st a out) = a mod 2 ^ (8 * byte_size st)
  /\ (fits st a -> from_bytes st (to_bytes st a out) = a)
  /\ length (to_bytes st a out) = length out
  /\ drop (Z.to_nat (byte_size st)) (to_bytes st a out)
     = drop (Z.to_nat (byte_size st)) out.
Proof.
  intros Hact Ha Hout.
  destruct (active_byte_size lam st Hact) as [Hbs Hlam].
  assert (0 <= byte_size st <= 8) as Hr by lia.
  set (n := Z.to_nat (byte_size st)) in *.
  assert (to_bytes st a out = le_bytes n a ++ drop n out) as Hto.
  { unfold to_bytes, memcpy, htole64. cbv zeta. fold n.
    rewrite take_le_bytes by lia. done. }
  assert (from_bytes st (to_bytes st a out) = a mod 2 ^ (8 * byte_size st))
    as Hrt.
  { rewrite from_bytes_take; [|done|].
    - fold n. rewrite Hto, take_app_length' by (by rewrite le_bytes_length).
      rewrite le64toh_le_bytes. f_equal. f_equal. lia.
    - fold n. rewrite Hto, length_app, le_bytes_length. lia. }
  split; [exact Hrt|]. split; [|split].
  - intros Hfit. rewrite Hrt. apply Z.mod_small. exact Hfit.
  - rewrite Hto, length_app, le_bytes_length, length_drop. lia.
  - rewrite Hto, drop_app_length' by (by rewrite le_bytes_length). done.
Qed.

Lemma from_bytes_to_bytes_witness :
  from_bytes (config 5) (to_bytes (config 5) (2 ^ 41 + 258) [9; 9; 9; 9; 9; 7])
  = (2 ^ 41 + 258) mod 2 ^ (8 * byte_size (config 5))
  /\ (fits (config 5) (2 ^ 41 + 258) ->
      from_bytes (config 5) (to_bytes (config 5) (2 ^ 41 + 258) [9; 9; 9; 9; 9; 7])
      = 2 ^ 41 + 258)
  /\ length (to_bytes (config 5) (2 ^ 41 + 258) [9; 9; 9; 9; 9; 7])
     = length [9; 9; 9; 9; 9; 7]
  /\ drop (Z.to_nat (byte_size (config 5)))
       (to_bytes (config 5) (2 ^ 41 + 258) [9; 9; 9; 9; 9; 7])
     = drop (Z.to_nat (byte_size (config 5))) [9; 9; 9; 9; 9; 7].
Proof.
  apply (from_bytes_to_bytes 5 (config 5) (2 ^ 41 + 258) [9; 9; 9; 9; 9; 7]).
  - apply config_active. lia.
  - lia.
  - simpl. lia.
Defined.

(** X6: [from_bytes] reads exactly [byte_size] bytes and yields an element
    that fits in [8 * byte_size] bits, whatever the bytes are; [to_bytes]
    of that element writes the same bytes back. *)
Theorem to_bytes_from_bytes (lam : Z) (st : field_state) (inp out : list Z) :
  active lam st ->
  Forall (fun b => 0 <= b < 256) inp ->
  (Z.to_nat (byte_size st) <= length inp)%nat ->
  (Z.to_nat (byte_size st) <= length out)%nat ->
  fits st (from_bytes st inp)
  /\ from_bytes st inp = from_bytes st (take (Z.to_nat (byte_size st)) inp)
  /\ to_bytes st (from_bytes st inp) out
     = take (Z.to_nat (byte_size st)) inp ++ drop (Z.to_nat (byte_size st)) out
  /\ to_bytes st (from_bytes st inp) inp = inp.
Proof.
  intros Hact Hin Hlen Hout.
  destruct (active_byte_size lam st Hact) as [Hbs Hlam].
  assert (0 <= byte_size st <= 8) as Hr by lia.
  set (n := Z.to_nat (byte_size st)) in *.
  assert (Forall (fun b => 0 <= b < 256) (take n inp)) as Htk
    by (by apply Forall_take).
  assert (length (take n inp) = n) as Hln by (rewrite length_take; lia).
  rewrite from_bytes_take by done. fold n.
  pose proof (le64toh_bound (take n inp) Htk) as Hb. rewrite Hln in Hb.
  assert (forall buf, to_bytes st (le64toh (take n inp)) buf
                      = take n inp ++ drop n buf) as Hto.
  { intros buf. unfold to_bytes, memcpy, htole64. cbv zeta. fold n.
    rewrite take_le_bytes by lia.
    pose proof (le_bytes_le64toh (take n inp) 0 Htk) as Hle.
    rewrite Hln, Nat.add_0_r, app_nil_r in Hle. by rewrite Hle. }
  split; [|split; [|split]].
  - unfold fits. replace (8 * byte_size st) with (8 * Z.of_nat n) by lia. done.
  - rewrite from_bytes_take; [|done|fold n; lia]. fold n.
    by rewrite take_take, Nat.min_id.
  - apply Hto.
  - rewrite Hto. apply take_drop.
Qed.

Lemma to_bytes_from_bytes_witness :
  fits (config 4) (from_bytes (config 4) [1; 2; 3; 255; 77])
  /\ from_bytes (config 4) [1; 2; 3; 255; 77]
     = from_bytes (config 4)
         (take (Z.to_nat (byte_size (config 4))) [1; 2; 3; 255; 77])
  /\ to_bytes (config 4) (from_bytes (config 4) [1; 2; 3; 255; 77]) [0; 0; 0; 0; 8; 9]
     = take (Z.to_nat (byte_size (config 4))) [1; 2; 3; 255; 77]
       ++ drop (Z.to_nat (byte_size (config 4))) [0; 0; 0; 0; 8; 9]
  /\ to_bytes (config 4) (from_bytes (config 4) [1; 2; 3; 255; 77])
       [1; 2; 3; 255; 77]
     = [1; 2; 3; 255; 77].
Proof.
  apply (to_bytes_from_bytes 4 (config 4) [1; 2; 3; 255; 77] [0; 0; 0; 0; 8; 9]).
  - apply config_active. lia.
  - repeat constructor; lia.
  - simpl. lia.
  - simpl. lia.
Defined.

(** * Powers of an element *)

Section Powers.

Variable lam : Z.
Hypothesis Hlam : lam = 4 \/ lam = 5 \/ lam = 6.
Variable g : Z.
Hypothesis Hg : fits (field_of lam) g.

Local Abbreviation F := (fits (field_of lam)).
Local Abbreviation mul := (gf_mul (field_of lam)).
Local Abbreviation pow := (gen_pow (field_of lam) g).

Lemma gen_pow_S (n : nat) : pow (S n) = mul (pow n) g.
Proof. destruct n as [|n]; [|done]. cbn. symmetry. by apply mul_1_l. Qed.

Lemma gen_pow_fits (n : nat) : F (pow n).
Proof.
  induction n as [|n IH]; [by apply fits_1|].
  rewrite gen_pow_S. by apply mul_fits.
Qed.

Lemma gen_pow_add (a b : nat) : pow (a + b) = mul (pow a) (pow b).
Proof.
  induction b as [|b IH].
  - rewrite Nat.add_0_r. cbn [gen_pow]. symmetry.
    apply mul_1_r; [done|apply gen_pow_fits].
  - rewrite Nat.add_succ_r, !gen_pow_S, IH.
    apply mul_assoc; [done|apply gen_pow_fits|apply gen_pow_fits|done].
Qed.

Lemma gen_pow_double (a : nat) : pow (2 * a) = gf_sqr (field_of lam) (pow a).
Proof. replace (2 * a)%nat with (a + a)%nat by lia. apply gen_pow_add. Qed.

Lemma gen_pow_one_mul (d k : nat) : pow d = 1 -> pow (k * d) = 1.
Proof.
  intros Hd. induction k as [|k IH]; [done|].
  cbn [Nat.mul]. rewrite gen_pow_add, Hd, IH.
  apply mul_1_l; [done|by apply fits_1].
Qed.

Lemma gen_pow_one_sub (a b : nat) : pow a = 1 -> pow (a + b) = 1 -> pow b = 1.
Proof.
  intros Ha Hab. rewrite gen_pow_add, Ha in Hab.
  rewrite mul_1_l in Hab; [done..|apply gen_pow_fits].
Qed.

Lemma gen_pow_one_mod (d m : nat) :
  d <> 0%nat -> pow d = 1 -> pow m = 1 -> pow (m mod d) = 1.
Proof.
  intros Hd Hpd Hpm.
  apply (gen_pow_one_sub ((m / d) * d)); [by apply gen_pow_one_mul|].
  replace ((m / d) * d + m mod d)%nat with m; [done|].
  rewrite (Nat.div_mod_eq m d) at 1. lia.
Qed.

Lemma gen_pow_one_gcd (a b : nat) : pow a = 1 -> pow b = 1 -> pow (Nat.gcd a b) = 1.
Proof.
  revert b. induction a as [a IH] using lt_wf_ind. intros b Ha Hb.
  destruct (Nat.eq_dec a 0%nat) as [->|Hne]; [by rewrite Nat.gcd_0_l|].
  rewrite <- Nat.Lcm0.gcd_mod.
  apply IH; [by apply Nat.mod_upper_bound| |done].
  by apply gen_pow_one_mod.
Qed.

Lemma gf_pow_pos_eq (p : positive) :
  gf_pow_pos (field_of lam) g p = pow (Pos.to_nat p).
Proof.
  induction p as [p IH|p IH|].
  - cbn [gf_pow_pos]. rewrite IH, Pos2Nat.inj_xI, gen_pow_S, gen_pow_double. done.
  - cbn [gf_pow_pos]. rewrite IH, Pos2Nat.inj_xO, gen_pow_double. done.
  - done.
Qed.

Lemma gf_pow_eq (e : Z) : 0 <= e -> gf_pow (field_of lam) g e = pow (Z.to_nat e).
Proof.
  intros He. destruct e as [|p|p]; [done| |lia].
  cbn [gf_pow Z.to_nat]. apply gf_pow_pos_eq.
Qed.

Lemma gen_pow_nonzero (n : nat) : g <> 0 -> pow n <> 0.
Proof.
  intros Hne. induction n as [|n IH]; [done|].
  rewrite gen_pow_S. intros H0.
  apply mul_eq_0 in H0; [|done|apply gen_pow_fits|done]. tauto.
Qed.

Lemma gen_pow_cancel (a d : nat) :
  g <> 0 -> pow (a + d) = pow a -> pow d = 1.
Proof.
  intros Hne Heq. rewrite gen_pow_add in Heq.
  assert (mul (pow a) (Z.lxor (pow d) 1) = 0) as H0.
  { rewrite mul_lxor_r; [|done|apply gen_pow_fits..|by apply fits_1].
    rewrite Heq, mul_1_r; [|done|apply gen_pow_fits].
    apply Z.lxor_nilpotent. }
  apply mul_eq_0 in H0; [|done|apply gen_pow_fits|].
  - destruct H0 as [H0|H0]; [by apply gen_pow_nonzero in H0|].
    by apply Z.lxor_eq in H0.
  - apply fits_lxor; [done|apply gen_pow_fits|by apply fits_1].
Qed.

End Powers.

(** The powers of [x] under the configuration of the program are those of
    the reference field: a product with [x] never sets bit 63. *)
Lemma config_gen_pow_2 (lam : Z) (n : nat) :
  lam = 4 \/ lam = 5 \/ lam = 6 ->
  gen_pow (config lam) 2 n = gen_pow (field_of lam) 2 n.
Proof.
  intros Hlam. induction n as [|[|n] IH]; [done..|].
  change (gen_pow (config lam) 2 (S (S n)))
    with (gf_mul (config lam) (gen_pow (config lam) 2 (S n)) 2).
  change (gen_pow (field_of lam) 2 (S (S n)))
    with (gf_mul (field_of lam) (gen_pow (field_of lam) 2 (S n)) 2).
  rewrite IH. apply config_mul_2; [done|].
  apply (fits_to_config lam Hlam).
  apply gen_pow_fits; [done|]. by apply fits_2.
Qed.

(** * Trial division and the divisors of a product of primes *)

Lemma no_divisor_from_spec (fuel : nat) (d p : Z) :
  0 < d -> no_divisor_from fuel d p = true ->
  forall k, d <= k -> k * k <= p -> p mod k <> 0.
Proof.
  revert d. induction fuel as [|fuel IH]; intros d Hd Hchk k Hk Hkk; [done|].
  cbn [no_divisor_from] in Hchk.
  destruct (Z.ltb_spec p (d * d)) as [Hlt|Hge]; [nia|].
  destruct (Z.eqb_spec (p mod d) 0) as [|Hmod]; [done|].
  destruct (Z.eq_dec k d) as [->|Hne]; [done|].
  apply (IH (d + 1)); [lia|done|lia|done].
Qed.

Lemma is_prime_ok (p : Z) : is_prime p = true -> Z.prime p.
Proof.
  unfold is_prime. intros [Hp Hchk]%andb_prop.
  apply Z.ltb_lt in Hp.
  pose proof (no_divisor_from_spec _ 2 p ltac:(lia) Hchk) as Hnd.
  split; [done|]. intros n Hn [c Hc].
  assert (2 <= c) by nia.
  destruct (Z.le_gt_cases n c).
  - apply (Hnd n); [lia|nia|]. rewrite Hc. apply Z.mod_mul. lia.
  - apply (Hnd c); [lia|nia|]. rewrite Hc, Z.mul_comm. apply Z.mod_mul. lia.
Qed.

Lemma elem_divides_product (fs : list Z) (p : Z) :
  p ∈ fs -> (p | foldr Z.mul 1 fs).
Proof.
  induction 1 as [p fs|p q fs _ IH]; cbn [foldr].
  - apply Z.divide_factor_l.
  - by apply Z.divide_mul_r.
Qed.

Lemma proper_divisor_misses_prime (fs : list Z) (d : Z) :
  Forall Z.prime fs -> 0 < d -> (d | foldr Z.mul 1 fs) ->
  d <> foldr Z.mul 1 fs ->
  exists p, p ∈ fs /\ (d | foldr Z.mul 1 fs / p).
Proof.
  intros Hfs. revert d. induction Hfs as [|p fs Hp Hfs IH]; intros d Hd Hdiv Hne.
  - cbn [foldr] in *. apply Z.divide_1_r_nonneg in Hdiv; lia.
  - cbn [foldr] in *.
    assert (1 < p) as Hp1 by (by destruct Hp).
    destruct (Z.BoolSpec_divide p d) as [[d' ->]|Hnd].
    + assert (d' | foldr Z.mul 1 fs) as Hd'.
      { rewrite (Z.mul_comm d' p) in Hdiv.
        apply Z.mul_divide_cancel_l in Hdiv; [done|lia]. }
      destruct (IH d') as (q & Hq & Hdq); [nia|done|nia|].
      exists q. split; [by right|].
      assert (1 < q) as Hq1.
      { rewrite Forall_forall in Hfs. by destruct (Hfs q Hq). }
      rewrite Z.divide_div_mul_exact;
        [|lia|by apply elem_divides_product].
      rewrite (Z.mul_comm d' p). by apply Z.mul_divide_mono_l.
    + exists p. split; [by left|].
      rewrite Z.mul_comm, Z.div_mul by lia.
      apply (Z.gauss d p); [done|].
      rewrite Z.gcd_comm. by apply Z.coprime_prime_l.
Qed.

(** * The order of [x] *)

Lemma order_check_ok (lam : Z) :
  lam = 4 \/ lam = 5 \/ lam = 6 -> order_check lam = true.
Proof. intros [-> | [-> | ->]]; by vm_compute. Qed.

Lemma order_of_x_pos (lam : Z) : 0 < order_of_x lam.
Proof. unfold order_of_x. repeat case_match; lia. Qed.

Lemma x_order (lam : Z) :
  lam = 4 \/ lam = 5 \/ lam = 6 ->
  gen_pow (field_of lam) 2 (Z.to_nat (order_of_x lam)) = 1
  /\ forall k : nat,
       (0 < k)%nat -> Z.of_nat k < order_of_x lam ->
       gen_pow (field_of lam) 2 k <> 1.
Proof.
  intros Hlam.
  pose proof (order_check_ok lam Hlam) as Hchk.
  pose proof (order_of_x_pos lam) as Hpos.
  pose proof (fits_2 lam Hlam) as H2.
  unfold order_check in Hchk.
  apply andb_prop in Hchk as [[Hprod Hone]%andb_prop Hall].
  apply Z.eqb_eq in Hprod, Hone.
  rewrite gf_pow_eq in Hone by (done || lia).
  split; [exact Hone|].
  intros k Hk HkN Hpk.
  pose proof (gen_pow_one_gcd lam Hlam 2 H2 _ _ Hpk Hone) as Hpg.
  assert (exists N, N = Z.to_nat (order_of_x lam)) as [N HN] by by eexists.
  rewrite <- HN in *.
  assert (Z.of_nat N = order_of_x lam) as HNZ by lia.
  assert (exists d, d = Nat.gcd k N) as [d Hdef] by by eexists.
  rewrite <- Hdef in *.
  assert (Nat.divide d k) as Hdk by (rewrite Hdef; apply Nat.gcd_divide_l).
  assert (Nat.divide d N) as [c Hc] by (rewrite Hdef; apply Nat.gcd_divide_r).
  assert (0 < d)%nat as Hd.
  { destruct (Nat.eq_dec d 0%nat) as [H0|]; [|lia].
    destruct Hdk as [e He]. rewrite H0 in He. lia. }
  assert (d <= k)%nat as Hle by (apply Nat.divide_pos_le; [lia|done]).
  assert (Z.of_nat d | foldr Z.mul 1 (order_factors lam)) as Hdiv.
  { rewrite Hprod, <- HNZ, Hc, Nat2Z.inj_mul. by exists (Z.of_nat c). }
  assert (Forall Z.prime (order_factors lam)) as Hprimes.
  { apply Forall_forall. intros p Hp.
    rewrite forallb_forall in Hall.
    apply list_elem_of_In, Hall, andb_prop in Hp as [Hp _].
    by apply is_prime_ok. }
  destruct (proper_divisor_misses_prime _ (Z.of_nat d) Hprimes)
    as (p & Hp & [e He]); [lia|done|lia|].
  rewrite Hprod in He.
  assert (1 < p) as Hp1.
  { rewrite Forall_forall in Hprimes. by destruct (Hprimes p Hp). }
  assert (0 <= order_of_x lam / p) as Hq by (apply Z.div_pos; lia).
  rewrite forallb_forall in Hall.
  apply list_elem_of_In, Hall, andb_prop in Hp as [_ Hnp].
  apply negb_true_iff, Z.eqb_neq in Hnp. apply Hnp.
  assert (0 <= e) by nia.
  rewrite gf_pow_eq by done.
  replace (Z.to_nat (order_of_x lam / p)) with (Z.to_nat e * d)%nat by lia.
  by apply gen_pow_one_mul.
Qed.

(** * The evaluation points *)

Lemma first_n_loop (st : field_state) (n s : nat) (acc : list Z) :
  foldl (fun '(result, gen) (_ : nat) => (result ++ [gen], gf_mul st gen 2))
    (acc, gen_pow st 2 (S s)) (seq s n)
  = (acc ++ map (fun i => gen_pow st 2 (S i)) (seq s n),
     gen_pow st 2 (S (s + n))).
Proof.
  revert s acc. induction n as [|n IH]; intros s acc.
  - cbn. by rewrite app_nil_r, Nat.add_0_r.
  - cbn [seq]. rewrite foldl_cons.
    change (gf_mul st (gen_pow st 2 (S s)) 2) with (gen_pow st 2 (S (S s))).
    rewrite IH. cbn [map]. rewrite <- app_assoc. cbn [app].
    by rewrite Nat.add_succ_r.
Qed.

Lemma get_first_n_eq (st : field_state) (n : nat) :
  get_first_n_field_elements st n = map (fun i => gen_pow st 2 (S i)) (seq 0 n).
Proof.
  unfold get_first_n_field_elements. cbv zeta.
  change 2 with (gen_pow st 2 1) at 2.
  by rewrite first_n_loop.
Qed.

Lemma get_first_n_lookup (st : field_state) (n i : nat) :
  (i < n)%nat -> get_first_n_field_elements st n !!! i = gen_pow st 2 (S i).
Proof.
  intros Hi. rewrite get_first_n_eq. apply list_lookup_total_correct.
  rewrite list_lookup_fmap, lookup_seq_lt by done. done.
Qed.

Lemma x_pow_small (lam : Z) (i : nat) :
  lam = 4 \/ lam = 5 \/ lam = 6 -> Z.of_nat i + 1 < 8 * lam ->
  gen_pow (field_of lam) 2 (S i) = 2 ^ (Z.of_nat i + 1).
Proof.
  intros Hlam. induction i as [|i IH]; intros Hi; [done|].
  rewrite gen_pow_S by (done || by apply fits_2).
  rewrite IH by lia.
  rewrite mul_comm; [|done|apply fits_pow2; [done|lia]|by apply fits_2].
  rewrite mul_2_pow2 by (done || lia). f_equal. lia.
Qed.

(** X7: [get_first_n_field_elements(n)] returns the [n] powers
    [x, x^2, ..., x^n] of the element [x] (bit mask 2): none of them is
    zero, each fits in [8 * byte_size] bits, the first [8 * byte_size - 1]
    of them are the bit masks [2, 4, 8, ...], and a shorter request
    returns a prefix of a longer one. *)
Theorem get_first_n_field_elements_powers (lam : Z) (st : field_state)
    (n : nat) :
  active lam st ->
  length (get_first_n_field_elements st n) = n
  /\ (forall i, (i < n)%nat ->
        get_first_n_field_elements st n !!! i = gen_pow st 2 (S i)
        /\ fits st (get_first_n_field_elements st n !!! i)
        /\ get_first_n_field_elements st n !!! i <> 0)
  /\ (forall i, (i < n)%nat -> Z.of_nat i + 1 < 8 * byte_size st ->
        get_first_n_field_elements st n !!! i = 2 ^ (Z.of_nat i + 1))
  /\ (forall k, (k <= n)%nat ->
        take k (get_first_n_field_elements st n)
        = get_first_n_field_elements st k).
Proof.
  intros Hact.
  destruct (active_config lam st Hact) as [Hlam ->].
  pose proof (fits_2 lam Hlam) as H2.
  split; [|split; [|split]].
  - by rewrite get_first_n_eq, length_map, length_seq.
  - intros i Hi. rewrite get_first_n_lookup by done.
    split; [done|]. rewrite (config_gen_pow_2 lam (S i) Hlam).
    split; [apply (fits_to_config lam Hlam); by apply gen_pow_fits|].
    by apply gen_pow_nonzero.
  - intros i Hi Hsmall. rewrite get_first_n_lookup by done.
    rewrite (config_gen_pow_2 lam (S i) Hlam).
    apply x_pow_small; [done|].
    by replace (byte_size (config lam)) with lam in Hsmall
      by (by destruct Hlam as [-> | [-> | ->]]).
  - intros k Hk. rewrite !get_first_n_eq, <- fmap_take, take_seq.
    by rewrite Nat.min_l.
Qed.

Lemma get_first_n_field_elements_powers_witness :
  length (get_first_n_field_elements (config 4) 40) = 40%nat
  /\ (forall i, (i < 40)%nat ->
        get_first_n_field_elements (config 4) 40 !!! i
        = gen_pow (config 4) 2 (S i)
        /\ fits (config 4) (get_first_n_field_elements (config 4) 40 !!! i)
        /\ get_first_n_field_elements (config 4) 40 !!! i <> 0)
  /\ (forall i, (i < 40)%nat -> Z.of_nat i + 1 < 8 * byte_size (config 4) ->
        get_first_n_field_elements (config 4) 40 !!! i = 2 ^ (Z.of_nat i + 1))
  /\ (forall k, (k <= 40)%nat ->
        take k (get_first_n_field_elements (config 4) 40)
        = get_first_n_field_elements (config 4) k).
Proof.
  apply (get_first_n_field_elements_powers 4 (config 4) 40).
  apply config_active. lia.
Defined.

Lemma first_n_nodup (lam : Z) (n : nat) :
  lam = 4 \/ lam = 5 \/ lam = 6 ->
  NoDup (get_first_n_field_elements (field_of lam) n)
  <-> Z.of_nat n <= order_of_x lam.
Proof.
  intros Hlam.
  pose proof (fits_2 lam Hlam) as H2.
  pose proof (order_of_x_pos lam) as Hpos.
  destruct (x_order lam Hlam) as [Hone Hmin].
  rewrite get_first_n_eq. split.
  - intros Hnd.
    destruct (Z.le_gt_cases (Z.of_nat n) (order_of_x lam)) as [|Hgt]; [done|].
    exfalso.
    set (N := Z.to_nat (order_of_x lam)) in *.
    assert (0%nat = N); [|lia].
    apply (NoDup_lookup _ _ _ (gen_pow (field_of lam) 2 1) Hnd).
    + rewrite list_lookup_fmap, lookup_seq_lt by lia. done.
    + rewrite list_lookup_fmap, lookup_seq_lt by lia. cbn [fmap option_fmap option_map].
      f_equal. cbn [Nat.add].
      replace (S N) with (N + 1)%nat by lia.
      rewrite gen_pow_add, Hone by done.
      apply mul_1_l; [done|by apply gen_pow_fits].
  - intros Hn.
    apply NoDup_fmap_2_strong; [|apply NoDup_seq].
    assert (forall i j, (i < j)%nat -> (j < n)%nat ->
              gen_pow (field_of lam) 2 (S i) = gen_pow (field_of lam) 2 (S j) ->
              False) as Hlt.
    { intros i j Hij Hj Heq.
      apply (Hmin (j - i)%nat); [lia|lia|].
      apply (gen_pow_cancel lam Hlam 2 H2 (S i)); [done|].
      replace (S i + (j - i))%nat with (S j) by lia. done. }
    intros i j [_ Hi]%elem_of_seq [_ Hj]%elem_of_seq Heq.
    destruct (Nat.lt_total i j) as [Hij|[Hij|Hij]]; [|done|].
    + exfalso. apply (Hlt i j); [done|lia|done].
    + exfalso. apply (Hlt j i); [done|lia|done].
Qed.

(** The evaluation points of the program are those of the reference
    field. *)
Lemma get_first_n_config (lam : Z) (n : nat) :
  lam = 4 \/ lam = 5 \/ lam = 6 ->
  get_first_n_field_elements (config lam) n
  = get_first_n_field_elements (field_of lam) n.
Proof.
  intros Hlam. rewrite !get_first_n_eq. apply map_ext.
  intros i. by apply config_gen_pow_2.
Qed.

(** X8: the element [x] has multiplicative order 1431655765, 1099511627775
    and 6254999482459 in the fields of [lambda] 4, 5 and 6; the elements
    returned by [get_first_n_field_elements(n)] are pairwise distinct if
    and only if [n] is at most that order. *)
Theorem get_first_n_field_elements_distinct (lam : Z) (st : field_state)
    (n : nat) :
  active lam st ->
  (NoDup (get_first_n_field_elements st n) <-> Z.of_nat n <= order_of_x lam)
  /\ gen_pow st 2 (Z.to_nat (order_of_x lam)) = 1
  /\ (forall k : nat, (0 < k)%nat -> Z.of_nat k < order_of_x lam ->
        gen_pow st 2 k <> 1).
Proof.
  intros Hact.
  destruct (active_config lam st Hact) as [Hlam ->].
  rewrite (get_first_n_config lam n Hlam).
  split; [by apply first_n_nodup|].
  destruct (x_order lam Hlam) as [Hone Hmin]. split.
  - by rewrite config_gen_pow_2.
  - intros k Hk Hlt. rewrite config_gen_pow_2 by done. by apply Hmin.
Qed.

Lemma get_first_n_field_elements_distinct_witness :
  (NoDup (get_first_n_field_elements (config 5) 64)
   <-> Z.of_nat 64 <= order_of_x 5)
  /\ gen_pow (config 5) 2 (Z.to_nat (order_of_x 5)) = 1
  /\ (forall k : nat, (0 < k)%nat -> Z.of_nat k < order_of_x 5 ->
        gen_pow (config 5) 2 k <> 1).
Proof.
  apply (get_first_n_field_elements_distinct 5 (config 5) 64).
  apply config_active. lia.
Defined.

(** * Sums of products *)

Lemma dot_loop_cons (st : field_state) (a b : Z) (u v : list Z) (n : nat)
    (acc : Z) :
  foldl (fun acc i => gf_add acc (gf_mul st ((a :: u) !!! i) ((b :: v) !!! i)))
    acc (seq 0 (S n))
  = foldl (fun acc i => gf_add acc (gf_mul st (u !!! i) (v !!! i)))
      (gf_add acc (gf_mul st a b)) (seq 0 n).
Proof.
  cbn [seq]. rewrite foldl_cons, <- fmap_S_seq, foldl_fmap. done.
Qed.

Lemma dot_loop_zip (st : field_state) (u v : list Z) (acc : Z) :
  length u = length v ->
  foldl (fun acc i => gf_add acc (gf_mul st (u !!! i) (v !!! i)))
    acc (seq 0 (length u))
  = Z.lxor acc (foldr Z.lxor 0 (zip_with (gf_mul st) u v)).
Proof.
  revert v acc. induction u as [|a u IH]; intros [|b v] acc Hlen; try done.
  - cbn. by rewrite Z.lxor_0_r.
  - cbn [length]. rewrite dot_loop_cons, IH by (cbn in Hlen; lia).
    cbn [zip_with foldr]. unfold gf_add. by rewrite Z.lxor_assoc.
Qed.

Section DotProduct.

Variable lam : Z.
Hypothesis Hlam : lam = 4 \/ lam = 5 \/ lam = 6.

Local Abbreviation st := (field_of lam).
Local Abbreviation F := (fits (field_of lam)).
Local Abbreviation mul := (gf_mul (field_of lam)).
Local Abbreviation sum := (foldr Z.lxor 0).

Lemma dot_product_sum (u v : list Z) :
  Forall F u -> Forall F v -> length u = length v ->
  dot_product st u v = Ok (sum (zip_with mul u v)).
Proof.
  intros Hu Hv Hlen. unfold dot_product.
  destruct (decide (length u <> length v)) as [|_]; [done|].
  f_equal. unfold _mm_setzero_si128.
  rewrite (lazy_accumulate lam u v _ 0 Hlam Hu Hv); cycle 1.
  { apply Forall_forall. intros i Hi%list_elem_of_In%in_seq. lia. }
  { pose proof (pow2_pos (16 * lam - 1)). lia. }
  rewrite reduce_0, dot_loop_zip by done. apply Z.lxor_0_l.
Qed.

Lemma sum_fits (l : list Z) : Forall F l -> F (sum l).
Proof.
  induction 1 as [|a l Ha _ IH]; [by apply fits_0|].
  cbn [foldr]. by apply fits_lxor.
Qed.

Lemma zip_mul_fits (u v : list Z) :
  Forall F u -> Forall F v -> Forall F (zip_with mul u v).
Proof.
  intros Hu. revert v. induction Hu as [|a u Ha Hu IH]; intros v Hv; [done|].
  destruct Hv as [|b v Hb Hv]; [done|].
  cbn [zip_with]. constructor; [by apply mul_fits|by apply IH].
Qed.

Lemma zip_mul_comm (u v : list Z) :
  Forall F u -> Forall F v -> zip_with mul u v = zip_with mul v u.
Proof.
  intros Hu. revert v. induction Hu as [|a u Ha Hu IH]; intros v Hv.
  - by destruct v.
  - destruct Hv as [|b v Hb Hv]; [done|].
    cbn [zip_with]. rewrite IH by done. f_equal. by apply mul_comm.
Qed.

Lemma sum_zip_lxor_l (u u' v : list Z) :
  Forall F u -> Forall F u' -> Forall F v ->
  length u = length u' ->
  sum (zip_with mul (zip_with Z.lxor u u') v)
  = Z.lxor (sum (zip_with mul u v)) (sum (zip_with mul u' v)).
Proof.
  intros Hu. revert u' v.
  induction Hu as [|a u Ha Hu IH]; intros u' v Hu' Hv Hlen.
  - by destruct u'.
  - destruct Hu' as [|a' u' Ha' Hu']; [done|].
    destruct Hv as [|b v Hb Hv]; [done|].
    cbn [zip_with foldr]. rewrite IH by (done || (cbn in Hlen; lia)).
    rewrite mul_lxor_l by done. apply lxor_swap.
Qed.

Lemma sum_zip_scale_l (u v : list Z) (c : Z) :
  Forall F u -> Forall F v -> F c ->
  sum (zip_with mul (map (fun a => mul a c) u) v)
  = mul (sum (zip_with mul u v)) c.
Proof.
  intros Hu. revert v. induction Hu as [|a u Ha Hu IH]; intros v Hv Hc.
  - cbn. symmetry. by apply mul_0_l.
  - destruct Hv as [|b v Hb Hv].
    + cbn. symmetry. by apply mul_0_l.
    + cbn [map zip_with foldr]. rewrite IH by done.
      rewrite mul_lxor_l;
        [|done|by apply mul_fits|by apply sum_fits, zip_mul_fits|done].
      f_equal.
      rewrite !(mul_assoc lam Hlam) by done.
      f_equal. by apply mul_comm.
Qed.

Lemma sum_zip_scale_r (u v : list Z) (c : Z) :
  Forall F u -> Forall F v -> F c ->
  sum (zip_with mul u (map (fun a => mul a c) v))
  = mul (sum (zip_with mul u v)) c.
Proof.
  intros Hu. revert v. induction Hu as [|a u Ha Hu IH]; intros v Hv Hc.
  - cbn. symmetry. by apply mul_0_l.
  - destruct Hv as [|b v Hb Hv].
    + cbn. symmetry. by apply mul_0_l.
    + cbn [map zip_with foldr]. rewrite IH by done.
      rewrite mul_lxor_l;
        [|done|by apply mul_fits|by apply sum_fits, zip_mul_fits|done].
      f_equal. symmetry. by apply mul_assoc.
Qed.

Lemma map_scale_fits (u : list Z) (c : Z) :
  Forall F u -> F c -> Forall F (map (fun a => mul a c) u).
Proof.
  intros Hu Hc. induction Hu as [|a u Ha Hu IH]; [done|].
  cbn [map]. constructor; [by apply mul_fits|done].
Qed.

Lemma powers_fits (x : Z) (s n : nat) :
  F x -> Forall F (map (gen_pow st x) (seq s n)).
Proof.
  intros Hx. apply Forall_forall. intros y Hy.
  apply list_elem_of_fmap in Hy as (i & -> & _). by apply gen_pow_fits.
Qed.

Lemma horner_powers (p : list Z) (x : Z) :
  Forall F p -> F x ->
  sum (zip_with mul p (map (gen_pow st x) (seq 0 (length p)))) = horner st p x.
Proof.
  intros Hp Hx. induction Hp as [|c p Hc Hp IH]; [done|].
  cbn [length seq map zip_with foldr horner gen_pow].
  rewrite mul_1_r by done.
  rewrite <- fmap_S_seq, <- list_fmap_compose.
  rewrite (list_fmap_ext _ (fun i => mul (gen_pow st x i) x) (seq 0 (length p)))
    by (intros i y _; cbn [compose]; by apply gen_pow_S).
  rewrite (list_fmap_compose (gen_pow st x) (fun a => mul a x)).
  rewrite sum_zip_scale_r by (done || by apply powers_fits).
  unfold gf_add. rewrite Z.lxor_comm. f_equal. f_equal. exact IH.
Qed.

Lemma horner_app_zeros (p : list Z) (k : nat) (x : Z) :
  F x -> horner st (p ++ replicate k 0) x = horner st p x.
Proof.
  intros Hx. induction p as [|c p IH].
  - cbn [app]. by apply horner_zeros.
  - cbn [app horner]. by rewrite IH.
Qed.

End DotProduct.

(** * Linearity of the evaluation and of the dot product *)

(** X9: under the active configuration of [lambda = 4] Horner evaluation
    is linear in the polynomial: the value of the sum of two coefficient
    vectors of equal length is the sum of the values, and the value of a
    vector scaled by [c] is the value times [c].  Trailing zero
    coefficients do not change the value, and the empty vector evaluates
    to zero. *)
Theorem eval_linear (lam : Z) (st : field_state) (p q : list Z) (x c : Z)
    (k : nat) :
  active lam st -> lam = 4 ->
  Forall (fits st) p -> Forall (fits st) q -> length p = length q ->
  fits st x -> fits st c ->
  (exists s, vec_add p q = Ok s
             /\ eval st s x = gf_add (eval st p x) (eval st q x))
  /\ eval st (vec_scale st p c) x = gf_mul st (eval st p x) c
  /\ eval st (p ++ replicate k 0) x = eval st p x
  /\ eval st [] x = 0.
Proof.
  intros Hact Hl4 Hp Hq Hlen Hx Hc.
  destruct (active_config lam st Hact) as [Hlam ->].
  rewrite (config_field_of lam Hl4) in *.
  split; [|split; [|split]].
  - exists (zip_with Z.lxor p q). split; [by apply vec_add_ok|].
    rewrite !eval_horner. by apply horner_zip_lxor.
  - rewrite vec_scale_map, !eval_horner. by apply horner_scale.
  - rewrite !eval_horner. by apply horner_app_zeros.
  - done.
Qed.

Lemma eval_linear_witness :
  (exists s, vec_add [1; 2; 3] [4; 5; 6] = Ok s
             /\ eval (config 4) s 7
                = gf_add (eval (config 4) [1; 2; 3] 7)
                    (eval (config 4) [4; 5; 6] 7))
  /\ eval (config 4) (vec_scale (config 4) [1; 2; 3] 9) 7
     = gf_mul (config 4) (eval (config 4) [1; 2; 3] 7) 9
  /\ eval (config 4) ([1; 2; 3] ++ replicate 2 0) 7
     = eval (config 4) [1; 2; 3] 7
  /\ eval (config 4) [] 7 = 0.
Proof.
  apply (eval_linear 4 (config 4) [1; 2; 3] [4; 5; 6] 7 9 2).
  - apply config_active. lia.
  - reflexivity.
  - repeat constructor; unfold fits; simpl; lia.
  - repeat constructor; unfold fits; simpl; lia.
  - reflexivity.
  - unfold fits; simpl; lia.
  - unfold fits; simpl; lia.
Defined.

Lemma foldl_ext_in {A B : Type} (f g : A -> B -> A) (l : list B) (a : A) :
  (forall acc i, i ∈ l -> f acc i = g acc i) -> foldl f a l = foldl g a l.
Proof.
  revert a. induction l as [|i l IH]; intros a Hfg; [done|].
  cbn [foldl]. rewrite Hfg by (apply elem_of_cons; by left).
  apply IH. intros acc j Hj. apply Hfg. apply elem_of_cons. by right.
Qed.

(** The accumulator of [dot_product] does not depend on the order of the
    two vectors. *)
Lemma dot_accum_comm (lam : Z) (u v : list Z) :
  lam = 4 \/ lam = 5 \/ lam = 6 ->
  Forall (fits (config lam)) u -> Forall (fits (config lam)) v ->
  length u = length v ->
  foldl (fun accum i => _mm_xor_si128 accum (clmul (u !!! i) (v !!! i)))
    _mm_setzero_si128 (seq 0 (length u))
  = foldl (fun accum i => _mm_xor_si128 accum (clmul (v !!! i) (u !!! i)))
      _mm_setzero_si128 (seq 0 (length v)).
Proof.
  intros Hlam Hu Hv Hlen. rewrite <- Hlen.
  apply foldl_ext_in. intros acc i Hi%elem_of_seq. f_equal.
  apply clmul_comm; apply (config_fits_64 lam Hlam);
    apply lookup_total_fits; (done || lia).
Qed.

Lemma reduce_config_0 (lam : Z) :
  lam = 4 \/ lam = 5 \/ lam = 6 -> reduce (config lam) 0 = 0.
Proof. intros [-> | [-> | ->]]; by vm_compute. Qed.

(** X10: [dot_product] throws the runtime error for different sizes when
    the two vectors differ in length; on vectors of field elements of
    equal length it succeeds under every active configuration, does not
    depend on the order of its two arguments, and gives zero for two empty
    vectors.  Under [lambda] 4 and 5 its result is a field element, and
    under [lambda = 4] it is the sum of the products, each reduced on its
    own. *)
Theorem dot_product_symmetric (lam : Z) (st : field_state) (u v : list Z) :
  active lam st ->
  Forall (fits st) u -> Forall (fits st) v ->
  (length u <> length v ->
   dot_product st u v
   = Throw (runtime_error "adding vectors of different sizes"))
  /\ (length u = length v ->
      exists d, dot_product st u v = Ok d /\ dot_product st v u = Ok d
                /\ (lam = 4 \/ lam = 5 -> fits st d)
                /\ (lam = 4 -> d = eager_dot_product st u v))
  /\ dot_product st [] [] = Ok 0.
Proof.
  intros Hact Hu Hv.
  destruct (active_config lam st Hact) as [Hlam ->].
  split; [|split].
  - intros Hne. unfold dot_product.
    by destruct (decide (length u <> length v)).
  - intros Hlen. unfold dot_product.
    destruct (decide (length u <> length v)) as [|_]; [done|].
    destruct (decide (length v <> length u)) as [|_]; [lia|].
    eexists. split; [reflexivity|].
    split; [by rewrite (dot_accum_comm lam u v Hlam Hu Hv Hlen)|].
    split; [intros H45; exact (config_reduce_fits lam Hlam _ H45)|].
    intros Hl4.
    pose proof (dot_product_eager lam u v Hlam) as Heager.
    rewrite <- (config_field_of lam Hl4) in Heager.
    specialize (Heager Hu Hv Hlen). unfold dot_product in Heager.
    destruct (decide (length u <> length v)) as [|_]; [done|].
    by injection Heager.
  - unfold dot_product. cbn. by rewrite reduce_config_0.
Qed.

Lemma dot_product_symmetric_witness :
  (length [3; 5] <> length [7; 2 ^ 39 + 1] ->
   dot_product (config 5) [3; 5] [7; 2 ^ 39 + 1]
   = Throw (runtime_error "adding vectors of different sizes"))
  /\ (length [3; 5] = length [7; 2 ^ 39 + 1] ->
      exists d, dot_product (config 5) [3; 5] [7; 2 ^ 39 + 1] = Ok d
                /\ dot_product (config 5) [7; 2 ^ 39 + 1] [3; 5] = Ok d
                /\ (5 = 4 \/ 5 = 5 -> fits (config 5) d)
                /\ (5 = 4 -> d = eager_dot_product (config 5) [3; 5]
                                   [7; 2 ^ 39 + 1]))
  /\ dot_product (config 5) [] [] = Ok 0.
Proof.
  apply (dot_product_symmetric 5 (config 5) [3; 5] [7; 2 ^ 39 + 1]).
  - apply config_active. lia.
  - repeat constructor; unfold fits; simpl; lia.
  - repeat constructor; unfold fits; simpl; lia.
Defined.

(** X11: under the active configuration of [lambda = 4] [dot_product] is
    linear in its first argument: the dot product of a sum of two vectors
    is the sum of the dot products, and the dot product of a vector scaled
    by [c] is the dot product times [c]. *)
Theorem dot_product_linear (lam : Z) (st : field_state) (u u' v : list Z)
    (c : Z) :
  active lam st -> lam = 4 ->
  Forall (fits st) u -> Forall (fits st) u' -> Forall (fits st) v ->
  length u = length v -> length u' = length v -> fits st c ->
  exists s d d',
    vec_add u u' = Ok s
    /\ dot_product st u v = Ok d /\ dot_product st u' v = Ok d'
    /\ dot_product st s v = Ok (gf_add d d')
    /\ dot_product st (vec_scale st u c) v = Ok (gf_mul st d c).
Proof.
  intros Hact Hl4 Hu Hu' Hv Hlen Hlen' Hc.
  destruct (active_config lam st Hact) as [Hlam ->].
  rewrite (config_field_of lam Hl4) in *.
  exists (zip_with Z.lxor u u'),
    (foldr Z.lxor 0 (zip_with (gf_mul (field_of lam)) u v)),
    (foldr Z.lxor 0 (zip_with (gf_mul (field_of lam)) u' v)).
  split; [apply vec_add_ok; lia|].
  split; [by apply dot_product_sum|].
  split; [by apply dot_product_sum|].
  split.
  - rewrite dot_product_sum;
      [|done|by apply zip_lxor_fits|done|rewrite length_zip_with; lia].
    unfold gf_add. f_equal. apply sum_zip_lxor_l; (done || lia).
  - rewrite vec_scale_map.
    rewrite dot_product_sum;
      [|done|by apply map_scale_fits|done|by rewrite length_map].
    f_equal. by apply sum_zip_scale_l.
Qed.

Lemma dot_product_linear_witness :
  exists s d d',
    vec_add [3; 5] [8; 9] = Ok s
    /\ dot_product (config 4) [3; 5] [7; 2 ^ 31 + 1] = Ok d
    /\ dot_product (config 4) [8; 9] [7; 2 ^ 31 + 1] = Ok d'
    /\ dot_product (config 4) s [7; 2 ^ 31 + 1] = Ok (gf_add d d')
    /\ dot_product (config 4) (vec_scale (config 4) [3; 5] 6) [7; 2 ^ 31 + 1]
       = Ok (gf_mul (config 4) d 6).
Proof.
  apply (dot_product_linear 4 (config 4) [3; 5] [8; 9] [7; 2 ^ 31 + 1] 6).
  - apply config_active. lia.
  - reflexivity.
  - repeat constructor; unfold fits; simpl; lia.
  - repeat constructor; unfold fits; simpl; lia.
  - repeat constructor; unfold fits; simpl; lia.
  - reflexivity.
  - reflexivity.
  - unfold fits; simpl; lia.
Defined.

(** X12: under the active configuration of [lambda = 4] the value of a
    polynomial at [x] is the dot product of its coefficient vector with
    the vector of the powers [1, x, x^2, ...] of [x]: [eval] and
    [dot_product] agree. *)
Theorem eval_is_dot_product_with_powers (lam : Z) (st : field_state)
    (p : list Z) (x : Z) :
  active lam st -> lam = 4 -> Forall (fits st) p -> fits st x ->
  dot_product st p (map (gen_pow st x) (seq 0 (length p)))
  = Ok (eval st p x).
Proof.
  intros Hact Hl4 Hp Hx.
  destruct (active_config lam st Hact) as [Hlam ->].
  rewrite (config_field_of lam Hl4) in *.
  rewrite dot_product_sum;
    [|done|done|by apply powers_fits|by rewrite length_map, length_seq].
  rewrite eval_horner. f_equal. by apply horner_powers.
Qed.

Lemma eval_is_dot_product_with_powers_witness :
  dot_product (config 4) [5; 6; 7]
    (map (gen_pow (config 4) (2 ^ 31)) (seq 0 (length [5; 6; 7])))
  = Ok (eval (config 4) [5; 6; 7] (2 ^ 31)).
Proof.
  apply (eval_is_dot_product_with_powers 4 (config 4) [5; 6; 7] (2 ^ 31)).
  - apply config_active. lia.
  - reflexivity.
  - repeat constructor; unfold fits; simpl; lia.
  - unfold fits; simpl; lia.
Defined.

(** * The product of two polynomials *)

Lemma add_row_length (st : field_state) (a : Z) (q r : list Z) :
  length (add_row st a q r) = length r.
Proof.
  revert r. induction q as [|b q IH]; intros [|c r]; try done.
  cbn [add_row length]. by rewrite IH.
Qed.

Lemma add_row_nil_r (st : field_state) (a : Z) (q : list Z) :
  add_row st a q [] = [].
Proof. by destruct q. Qed.

Lemma row_loop (st : field_state) (a : Z) (i : nat) (rhs2 rhs1 pre r : list Z) :
  length pre = (i + length rhs1)%nat -> (length rhs2 <= length r)%nat ->
  foldl (fun result j =>
           <[(i + j)%nat := gf_add (result !!! (i + j)%nat)
                              (gf_mul st a ((rhs1 ++ rhs2) !!! j))]> result)
        (pre ++ r) (seq (length rhs1) (length rhs2))
  = pre ++ add_row st a rhs2 r.
Proof.
  revert rhs1 pre r. induction rhs2 as [|b rhs2 IH]; intros rhs1 pre r Hpre Hlen.
  - cbn. by destruct r.
  - destruct r as [|c r]; [cbn in Hlen; lia|].
    cbn [length seq]. rewrite foldl_cons. rewrite <- Hpre.
    rewrite list_lookup_total_middle by done.
    rewrite list_lookup_total_middle by done.
    rewrite insert_app_r_alt by lia. rewrite Nat.sub_diag. cbn [insert list_insert].
    rewrite (cons_middle _ pre r), app_assoc.
    rewrite (cons_middle b rhs1 rhs2), app_assoc.
    replace (S (length rhs1)) with (length (rhs1 ++ [b]))
      by (rewrite length_app; cbn; lia).
    rewrite (IH (rhs1 ++ [b]) (pre ++ [gf_add c (gf_mul st a b)]) r).
    + rewrite <- app_assoc. done.
    + rewrite !length_app. cbn. lia.
    + cbn in Hlen. lia.
Qed.

Lemma poly_mul_row_spec (st : field_state) (lhs rhs pre r : list Z) :
  (length rhs <= length r)%nat ->
  poly_mul_row st lhs rhs (pre ++ r) (length pre)
  = pre ++ add_row st (lhs !!! length pre) rhs r.
Proof.
  intros Hlen. unfold poly_mul_row.
  apply (row_loop st (lhs !!! length pre) (length pre) rhs [] pre r);
    [cbn; lia|done].
Qed.

Lemma poly_mul_loop (st : field_state) (rhs lhs2 lhs1 pre r : list Z) :
  length pre = length lhs1 ->
  (length lhs2 + length rhs <= S (length r))%nat ->
  foldl (poly_mul_row st (lhs1 ++ lhs2) rhs) (pre ++ r)
    (seq (length lhs1) (length lhs2))
  = pre ++ conv st lhs2 rhs r.
Proof.
  revert lhs1 pre r.
  induction lhs2 as [|a lhs2 IH]; intros lhs1 pre r Hpre Hlen; [done|].
  cbn [length seq]. rewrite foldl_cons. rewrite <- Hpre.
  rewrite poly_mul_row_spec by (cbn in Hlen; lia).
  rewrite Hpre, list_lookup_total_middle by done.
  cbn [conv].
  pose proof (add_row_length st a rhs r) as Hrow.
  destruct (add_row st a rhs r) as [|c r'].
  - destruct r; [|done]. cbn in Hlen.
    assert (lhs2 = []) as -> by (destruct lhs2; [done|cbn in Hlen; lia]).
    done.
  - rewrite (cons_middle c pre r'), app_assoc.
    rewrite (cons_middle a lhs1 lhs2), app_assoc.
    replace (S (length lhs1)) with (length (lhs1 ++ [a]))
      by (rewrite length_app; cbn; lia).
    rewrite (IH (lhs1 ++ [a]) (pre ++ [c]) r').
    + by rewrite <- app_assoc.
    + rewrite !length_app. cbn. lia.
    + cbn in Hrow, Hlen. lia.
Qed.

Lemma vector_max_size_val : vector_max_size = 2 ^ 60 - 1.
Proof. reflexivity. Qed.

Lemma poly_mul_ok (st : field_state) (lhs rhs : list Z) :
  1 <= Z.of_nat (length lhs) + Z.of_nat (length rhs) <= vector_max_size + 1 ->
  poly_mul st lhs rhs
  = Some (conv st lhs rhs (replicate (length lhs + length rhs - 1) 0)).
Proof.
  intros Hsz. unfold poly_mul. cbv zeta.
  pose proof vector_max_size_val as Hmax.
  rewrite Z.mod_small by lia.
  destruct (Z.ltb_spec vector_max_size
              (Z.of_nat (length lhs) + Z.of_nat (length rhs) - 1)); [lia|].
  f_equal.
  replace (Z.to_nat (Z.of_nat (length lhs) + Z.of_nat (length rhs) - 1))
    with (length lhs + length rhs - 1)%nat by lia.
  apply (poly_mul_loop st rhs lhs [] []); [done|].
  rewrite length_replicate. lia.
Qed.

Lemma poly_mul_empty (st : field_state) : poly_mul st [] [] = None.
Proof. reflexivity. Qed.

Lemma conv_length (st : field_state) (p q r : list Z) :
  (length p + length q <= S (length r))%nat ->
  length (conv st p q r) = length r.
Proof.
  revert r. induction p as [|a p IH]; intros r Hlen; [done|].
  cbn [conv].
  pose proof (add_row_length st a q r) as Hrow.
  destruct (add_row st a q r) as [|c r']; [by destruct r|].
  cbn [length]. rewrite IH; [done|]. cbn in Hlen, Hrow. lia.
Qed.

Lemma conv_nil_r (st : field_state) (p r : list Z) : conv st p [] r = r.
Proof.
  revert r. induction p as [|a p IH]; intros r; [done|].
  cbn [conv]. destruct r as [|c r]; [done|]. cbn [add_row]. by rewrite IH.
Qed.

Lemma conv_scalar_r (st : field_state) (p : list Z) (c : Z) :
  conv st p [c] (replicate (length p) 0) = map (fun a => gf_mul st a c) p.
Proof.
  induction p as [|a p IH]; [done|].
  cbn [length replicate conv add_row map]. rewrite IH.
  by rewrite Z.lxor_0_l.
Qed.

Lemma add_row_zeros (st : field_state) (a : Z) (q : list Z) :
  add_row st a q (replicate (length q) 0) = map (fun b => gf_mul st a b) q.
Proof.
  induction q as [|b q IH]; [done|].
  cbn [length replicate add_row map]. rewrite IH. by rewrite Z.lxor_0_l.
Qed.

Section PolyMul.

Variable lam : Z.
Hypothesis Hlam : lam = 4 \/ lam = 5 \/ lam = 6.

Local Abbreviation st := (field_of lam).
Local Abbreviation F := (fits (field_of lam)).
Local Abbreviation mul := (gf_mul (field_of lam)).

Lemma add_row_fits (a : Z) (q r : list Z) :
  F a -> Forall F q -> Forall F r -> Forall F (add_row st a q r).
Proof.
  intros Ha Hq. revert r. induction Hq as [|b q Hb Hq IH]; intros r Hr.
  - by destruct r.
  - destruct Hr as [|c r Hc Hr]; [done|].
    cbn [add_row]. constructor; [|by apply IH].
    apply fits_lxor; [done..|by apply mul_fits].
Qed.

Lemma conv_fits (p q r : list Z) :
  Forall F p -> Forall F q -> Forall F r -> Forall F (conv st p q r).
Proof.
  intros Hp Hq. revert r. induction Hp as [|a p Ha Hp IH]; intros r Hr; [done|].
  cbn [conv].
  pose proof (add_row_fits a q r Ha Hq Hr) as Hrow.
  destruct (add_row st a q r) as [|c r']; [done|].
  apply Forall_cons in Hrow as [Hc Hr']. constructor; [done|by apply IH].
Qed.

Lemma horner_add_row (a x : Z) (q r : list Z) :
  F a -> F x -> Forall F q -> Forall F r -> (length q <= length r)%nat ->
  horner st (add_row st a q r) x
  = Z.lxor (horner st r x) (mul a (horner st q x)).
Proof.
  intros Ha Hx Hq. revert r.
  induction Hq as [|b q Hb Hq IH]; intros r Hr Hlen.
  - replace (add_row st a [] r) with r by (by destruct r).
    cbn [horner]. rewrite mul_0_r by done. by rewrite Z.lxor_0_r.
  - destruct Hr as [|c r Hc Hr]; [cbn in Hlen; lia|].
    cbn [add_row horner]. rewrite IH by (done || (cbn in Hlen; lia)).
    unfold gf_add.
    assert (F (horner st q x)) as Hhq by (by apply horner_fits).
    assert (F (horner st r x)) as Hhr by (by apply horner_fits).
    rewrite mul_lxor_l by (done || by apply mul_fits).
    rewrite (mul_lxor_r lam Hlam a) by (done || by apply mul_fits).
    rewrite (mul_assoc lam Hlam a) by done.
    lxor_ac.
Qed.

Lemma horner_conv (p q r : list Z) (x : Z) :
  F x -> Forall F p -> Forall F q -> Forall F r ->
  (length p + length q <= S (length r))%nat ->
  horner st (conv st p q r) x
  = Z.lxor (horner st r x) (mul (horner st p x) (horner st q x)).
Proof.
  intros Hx Hp Hq. revert r.
  induction Hp as [|a p Ha Hp IH]; intros r Hr Hlen.
  - cbn [conv horner]. rewrite mul_0_l by (by apply horner_fits || done).
    by rewrite Z.lxor_0_r.
  - cbn [conv].
    assert (F (horner st q x)) as Hhq by (by apply horner_fits).
    assert (F (horner st p x)) as Hhp by (by apply horner_fits).
    destruct r as [|c0 r0].
    + rewrite add_row_nil_r. cbn in Hlen.
      assert (q = []) as -> by (destruct q; [done|cbn in Hlen; lia]).
      cbn [horner]. rewrite mul_0_r; [done|done|].
      apply fits_lxor; [done|by apply mul_fits|done].
    + pose proof (horner_add_row a x q (c0 :: r0) Ha Hx Hq Hr
                    ltac:(cbn in Hlen |- *; lia)) as Hrow.
      pose proof (add_row_fits a q (c0 :: r0) Ha Hq Hr) as Hfrow.
      pose proof (add_row_length st a q (c0 :: r0)) as Hlrow.
      destruct (add_row st a q (c0 :: r0)) as [|c r']; [done|].
      apply Forall_cons in Hfrow as [Hc Hr'].
      cbn [horner] in Hrow |- *.
      rewrite IH by (done || (cbn in Hlen, Hlrow; lia)).
      unfold gf_add in *.
      assert (F (horner st r' x)) as Hhr' by (by apply horner_fits).
      rewrite mul_lxor_l by (done || by apply mul_fits).
      rewrite (mul_lxor_l lam Hlam (mul (horner st p x) x) a)
        by (done || by apply mul_fits).
      rewrite (mul_assoc lam Hlam (horner st p x) (horner st q x) x) by done.
      rewrite (mul_assoc lam Hlam (horner st p x) x (horner st q x)) by done.
      rewrite (mul_comm lam Hlam (horner st q x) x) by done.
      lxor_ac_from Hrow.
Qed.

End PolyMul.

(** * Results on the product of polynomials *)

(** X13: the product of two coefficient vectors fails when both are empty:
    the size [0 + 0 - 1] of the result wraps around to [2^64 - 1], which
    no vector can have.  When at least one of them is not empty the
    product has [len(lhs) + len(rhs) - 1] coefficients; it does not fail
    when exactly one of them is empty, and then consists of zeros only. *)
Theorem poly_mul_size (st : field_state) (lhs rhs : list Z) :
  poly_mul st [] [] = None
  /\ (1 <= Z.of_nat (length lhs) + Z.of_nat (length rhs) <= vector_max_size + 1 ->
      exists r,
        poly_mul st lhs rhs = Some r
        /\ length r = (length lhs + length rhs - 1)%nat
        /\ (lhs = [] \/ rhs = [] ->
            r = replicate (length lhs + length rhs - 1) 0)).
Proof.
  split; [reflexivity|]. intros Hsz.
  exists (conv st lhs rhs (replicate (length lhs + length rhs - 1) 0)).
  split; [by apply poly_mul_ok|]. split.
  - rewrite conv_length; rewrite length_replicate; lia.
  - intros [-> | ->]; [done|]. apply conv_nil_r.
Qed.

Lemma poly_mul_size_witness :
  poly_mul (config 4) [] [] = None
  /\ (1 <= Z.of_nat (length [1; 2; 3]) + Z.of_nat (length [4; 5])
      <= vector_max_size + 1 ->
      exists r,
        poly_mul (config 4) [1; 2; 3] [4; 5] = Some r
        /\ length r = (length [1; 2; 3] + length [4; 5] - 1)%nat
        /\ ([1; 2; 3] = [] \/ [4; 5] = [] ->
            r = replicate (length [1; 2; 3] + length [4; 5] - 1) 0)).
Proof. apply (poly_mul_size (config 4) [1; 2; 3] [4; 5]). Defined.

(** X14: under the active configuration of [lambda = 4] the product of
    two coefficient vectors of field elements is the product of the
    polynomials: its value at any point is the product of the values of
    the two factors, and its coefficients are field elements. *)
Theorem poly_mul_eval (lam : Z) (st : field_state) (lhs rhs : list Z) (x : Z) :
  active lam st -> lam = 4 ->
  Forall (fits st) lhs -> Forall (fits st) rhs -> fits st x ->
  1 <= Z.of_nat (length lhs) + Z.of_nat (length rhs) <= vector_max_size + 1 ->
  exists r,
    poly_mul st lhs rhs = Some r
    /\ Forall (fits st) r
    /\ eval st r x = gf_mul st (eval st lhs x) (eval st rhs x).
Proof.
  intros Hact Hl4 Hl Hr Hx Hsz.
  destruct (active_config lam st Hact) as [Hlam ->].
  rewrite (config_field_of lam Hl4) in *.
  exists (conv (field_of lam) lhs rhs (replicate (length lhs + length rhs - 1) 0)).
  assert (Forall (fits (field_of lam)) (replicate (length lhs + length rhs - 1) 0))
    as Hz by (apply Forall_replicate; by apply fits_0).
  split; [by apply poly_mul_ok|].
  split; [by apply conv_fits|].
  rewrite !eval_horner, horner_conv; [|done..|rewrite length_replicate; lia].
  rewrite horner_zeros by done. apply Z.lxor_0_l.
Qed.

Lemma poly_mul_eval_witness :
  exists r,
    poly_mul (config 4) [1; 2; 3] [4; 2 ^ 31] = Some r
    /\ Forall (fits (config 4)) r
    /\ eval (config 4) r 6
       = gf_mul (config 4) (eval (config 4) [1; 2; 3] 6)
           (eval (config 4) [4; 2 ^ 31] 6).
Proof.
  apply (poly_mul_eval 4 (config 4) [1; 2; 3] [4; 2 ^ 31] 6).
  - apply config_active. lia.
  - reflexivity.
  - repeat constructor; unfold fits; simpl; lia.
  - repeat constructor; unfold fits; simpl; lia.
  - unfold fits; simpl; lia.
  - rewrite vector_max_size_val. simpl. lia.
Defined.

(** X15: the product of a coefficient vector with a constant polynomial
    is the vector scaled by the constant, on either side: the two
    overloads of [operator*] agree. *)
Theorem poly_mul_scalar (lam : Z) (st : field_state) (p : list Z) (c : Z) :
  active lam st -> Forall (fits st) p -> fits st c ->
  1 <= Z.of_nat (length p) <= vector_max_size ->
  poly_mul st p [c] = Some (vec_scale st p c)
  /\ poly_mul st [c] p = Some (vec_scale st p c).
Proof.
  intros Hact Hp Hc Hsz.
  destruct (active_config lam st Hact) as [Hlam ->].
  rewrite vec_scale_map. split.
  - rewrite poly_mul_ok by (cbn [length]; lia).
    cbn [length]. replace (length p + 1 - 1)%nat with (length p) by lia.
    by rewrite conv_scalar_r.
  - rewrite poly_mul_ok by (cbn [length]; lia).
    cbn [length Nat.add Nat.sub conv]. rewrite Nat.sub_0_r.
    rewrite add_row_zeros.
    assert (map (fun b => gf_mul (config lam) c b) p
            = map (fun a => gf_mul (config lam) a c) p) as ->.
    { apply map_ext_Forall. eapply Forall_impl; [exact Hp|].
      intros a Ha. exact (config_mul_comm lam Hlam c a Hc Ha). }
    by destruct p.
Qed.

Lemma poly_mul_scalar_witness :
  poly_mul (config 4) [1; 2; 3] [7] = Some (vec_scale (config 4) [1; 2; 3] 7)
  /\ poly_mul (config 4) [7] [1; 2; 3] = Some (vec_scale (config 4) [1; 2; 3] 7).
Proof.
  apply (poly_mul_scalar 4 (config 4) [1; 2; 3] 7).
  - apply config_active. lia.
  - repeat constructor; unfold fits; simpl; lia.
  - unfold fits; simpl; lia.
  - rewrite vector_max_size_val. simpl. lia.
Defined.

(** * Algebra of the product of polynomials *)

Section PolyAlgebra.

Variable lam : Z.
Hypothesis Hlam : lam = 4 \/ lam = 5 \/ lam = 6.

Local Abbreviation st := (field_of lam).
Local Abbreviation F := (fits (field_of lam)).
Local Abbreviation mul := (gf_mul (field_of lam)).
Local Abbreviation zip_lxor := (zip_with Z.lxor).

Lemma add_row_lxor (a : Z) (q q' r r' : list Z) :
  F a -> Forall F q -> Forall F q' ->
  length q = length q' -> length r = length r' ->
  add_row st a (zip_lxor q q') (zip_lxor r r')
  = zip_lxor (add_row st a q r) (add_row st a q' r').
Proof.
  intros Ha Hq. revert q' r r'.
  induction Hq as [|b q Hb Hq IH]; intros q' r r' Hq' Hlq Hlr.
  - destruct q'; [|done]. cbn [zip_with add_row].
    destruct r, r'; try done.
  - destruct Hq' as [|b' q' Hb' Hq']; [done|].
    destruct r as [|c r], r' as [|c' r']; try done.
    cbn [zip_with add_row]. rewrite IH by (done || (cbn in Hlq, Hlr; lia)).
    f_equal. rewrite mul_lxor_r by done. lxor_ac.
Qed.

Lemma conv_lxor (p q q' r r' : list Z) :
  Forall F p -> Forall F q -> Forall F q' ->
  length q = length q' -> length r = length r' ->
  conv st p (zip_lxor q q') (zip_lxor r r')
  = zip_lxor (conv st p q r) (conv st p q' r').
Proof.
  intros Hp Hq Hq' Hlq. revert r r'.
  induction Hp as [|a p Ha Hp IH]; intros r r' Hlr; [done|].
  cbn [conv]. rewrite add_row_lxor by done.
  pose proof (add_row_length st a q r) as H1.
  pose proof (add_row_length st a q' r') as H2.
  destruct (add_row st a q r) as [|c R], (add_row st a q' r') as [|c' R'];
    try done.
  cbn [zip_with]. rewrite IH by (cbn in H1, H2; lia). done.
Qed.

Lemma add_row_scale (a t : Z) (q r : list Z) :
  F a -> F t -> Forall F q -> Forall F r ->
  add_row st a (map (fun b => mul b t) q) (map (fun b => mul b t) r)
  = map (fun b => mul b t) (add_row st a q r).
Proof.
  intros Ha Ht Hq. revert r. induction Hq as [|b q Hb Hq IH]; intros r Hr.
  - by destruct r.
  - destruct Hr as [|c r Hc Hr]; [done|].
    cbn [map add_row]. rewrite IH by done. f_equal.
    rewrite mul_lxor_l by (done || by apply mul_fits).
    by rewrite (mul_assoc lam Hlam a b t).
Qed.

Lemma conv_scale (p q r : list Z) (t : Z) :
  Forall F p -> F t -> Forall F q -> Forall F r ->
  conv st p (map (fun b => mul b t) q) (map (fun b => mul b t) r)
  = map (fun b => mul b t) (conv st p q r).
Proof.
  intros Hp Ht Hq. revert r.
  induction Hp as [|a p Ha Hp IH]; intros r Hr; [done|].
  cbn [conv]. rewrite add_row_scale by done.
  pose proof (add_row_fits lam Hlam a q r Ha Hq Hr) as Hrow.
  destruct (add_row st a q r) as [|c R]; [done|].
  apply Forall_cons in Hrow as [Hc HR].
  cbn [map]. by rewrite IH.
Qed.

Lemma conv_shift (p q r : list Z) (c0 : Z) :
  Forall F p -> conv st p (0 :: q) (c0 :: r) = c0 :: conv st p q r.
Proof.
  intros Hp. revert r c0.
  induction Hp as [|a p Ha Hp IH]; intros r c0; [done|].
  cbn [conv add_row]. rewrite mul_0_r, Z.lxor_0_r by done.
  destruct (add_row st a q r) as [|c R].
  - f_equal. by destruct p.
  - by rewrite IH.
Qed.

Lemma add_row_snoc (a : Z) (q r : list Z) :
  F a -> (length q <= length r)%nat ->
  add_row st a (q ++ [0]) (r ++ [0]) = add_row st a q r ++ [0].
Proof.
  intros Ha. revert r. induction q as [|b q IH]; intros r Hlen.
  - destruct r as [|c r].
    + cbn. by rewrite mul_0_r.
    + cbn [app add_row]. by rewrite mul_0_r, Z.lxor_0_r by done.
  - destruct r as [|c r]; [cbn in Hlen; lia|].
    cbn [app add_row]. rewrite IH by (cbn in Hlen; lia). done.
Qed.

Lemma conv_snoc (p q r : list Z) :
  Forall F p -> (length p + length q <= S (length r))%nat ->
  conv st p (q ++ [0]) (r ++ [0]) = conv st p q r ++ [0].
Proof.
  intros Hp. revert r.
  induction Hp as [|a p Ha Hp IH]; intros r Hlen; [done|].
  cbn [conv]. rewrite add_row_snoc by (done || (cbn in Hlen; lia)).
  pose proof (add_row_length st a q r) as Hrow.
  destruct (add_row st a q r) as [|c R].
  - destruct r; [|done]. cbn in Hlen.
    assert (p = []) as -> by (destruct p; [done|cbn in Hlen; lia]).
    done.
  - cbn [app]. rewrite IH by (cbn in Hlen, Hrow; lia). done.
Qed.

Lemma tlf_decompose (t prev : Z) (q : list Z) :
  times_linear_from st t prev q
  = zip_lxor (map (fun b => mul b t) q ++ [0]) (prev :: q).
Proof.
  revert prev. induction q as [|c q IH]; intros prev; [done|].
  cbn [times_linear_from map app zip_with]. by rewrite IH.
Qed.

Lemma zeros_scale (n : nat) (t : Z) :
  F t -> map (fun b => mul b t) (replicate n 0) = replicate n 0.
Proof.
  intros Ht. induction n as [|n IH]; [done|].
  cbn [replicate map]. by rewrite IH, mul_0_l.
Qed.

Lemma conv_times_linear (p q : list Z) (t : Z) (n : nat) :
  Forall F p -> Forall F q -> F t ->
  S n = (length p + length q)%nat ->
  conv st p (times_linear st q t) (replicate (S n) 0)
  = times_linear st (conv st p q (replicate n 0)) t.
Proof.
  intros Hp Hq Ht Hn.
  assert (Forall F (replicate n 0)) as Hz
    by (apply Forall_replicate; by apply fits_0).
  unfold times_linear. rewrite !tlf_decompose.
  assert (replicate (S n) 0 = zip_lxor (replicate n 0 ++ [0]) (0 :: replicate n 0))
    as ->.
  { clear. induction n as [|n IH]; [done|].
    cbn [replicate app zip_with] in *. by rewrite <- IH. }
  rewrite conv_lxor; cycle 1.
  { done. }
  { apply Forall_app. split; [by apply map_scale_fits|].
    constructor; [by apply fits_0|done]. }
  { constructor; [by apply fits_0|done]. }
  { rewrite length_app, length_map. cbn. lia. }
  { rewrite length_app, length_replicate. cbn. rewrite length_replicate. lia. }
  rewrite conv_shift by done.
  rewrite conv_snoc by (done || (rewrite length_map, length_replicate; lia)).
  rewrite <- (zeros_scale n t Ht) at 1.
  rewrite conv_scale by done. done.
Qed.

Lemma monic_product_fits (roots : list Z) :
  Forall F roots -> Forall F (monic_product st roots).
Proof.
  intros Hr. apply foldl_times_linear_fits; [done| |done].
  constructor; [by apply fits_1|done].
Qed.

Lemma monic_product_length (roots : list Z) :
  length (monic_product st roots) = S (length roots).
Proof. unfold monic_product. by rewrite foldl_times_linear_length. Qed.

Lemma monic_product_snoc (l : list Z) (t : Z) :
  monic_product st (l ++ [t]) = times_linear st (monic_product st l) t.
Proof. unfold monic_product. by rewrite foldl_app. Qed.

Lemma monic_product_app (r1 r2 : list Z) :
  Forall F r1 -> Forall F r2 ->
  conv st (monic_product st r1) (monic_product st r2)
    (replicate (S (length r1 + length r2)) 0)
  = monic_product st (r1 ++ r2).
Proof.
  intros H1. induction r2 as [|t r2 IH] using rev_ind; intros H2.
  - rewrite app_nil_r. cbn [length]. rewrite Nat.add_0_r.
    change (monic_product st []) with [1].
    rewrite <- (monic_product_length r1), conv_scalar_r.
    rewrite <- (map_id (monic_product st r1)) at 2.
    apply map_ext_Forall.
    eapply Forall_impl; [by apply monic_product_fits|].
    intros a Ha. by apply mul_1_r.
  - apply Forall_app in H2 as [H2 Ht]. apply Forall_cons in Ht as [Ht _].
    specialize (IH H2).
    rewrite app_assoc, !monic_product_snoc.
    rewrite <- IH, length_app. cbn [length].
    replace (length r1 + (length r2 + 1))%nat with (S (length r1 + length r2))
      by lia.
    apply conv_times_linear; [by apply monic_product_fits..|done|].
    rewrite !monic_product_length. lia.
Qed.

(** * Linear factors commute *)

Local Abbreviation get l i := (default 0 (l !! i)).

Lemma get_total (l : list Z) (i : nat) :
  (i < length l)%nat -> l !!! i = get l i.
Proof.
  intros Hi. destruct (lookup_lt_is_Some_2 l i Hi) as [x Hx].
  by rewrite (list_lookup_total_correct _ _ _ Hx), Hx.
Qed.

Lemma get_fits (l : list Z) (i : nat) : Forall F l -> F (get l i).
Proof.
  intros Hl. destruct (l !! i) as [x|] eqn:Hx; [|by apply fits_0].
  cbn [default]. rewrite Forall_forall in Hl.
  apply Hl. by eapply list_elem_of_lookup_2.
Qed.

Lemma times_linear_get (p : list Z) (t : Z) (i : nat) :
  F t ->
  get (times_linear st p t) i = Z.lxor (mul (get p i) t) (get (0 :: p) i).
Proof.
  intros Ht. unfold times_linear.
  destruct (Nat.lt_total i (length p)) as [Hi|[Hi|Hi]].
  - rewrite <- !get_total by (rewrite ?tlf_length; cbn [length]; lia).
    by rewrite tlf_lookup.
  - subst i.
    rewrite <- (get_total (times_linear_from _ _ _ _)) by (rewrite tlf_length; lia).
    rewrite <- (get_total (0 :: p)) by (cbn [length]; lia).
    rewrite tlf_last, (lookup_ge_None_2 p) by done.
    cbn [default]. rewrite mul_0_l by done. by rewrite Z.lxor_0_l.
  - rewrite (lookup_ge_None_2 (times_linear_from _ _ _ _))
      by (rewrite tlf_length; lia).
    rewrite (lookup_ge_None_2 p) by lia.
    rewrite (lookup_ge_None_2 (0 :: p)) by (cbn [length]; lia).
    cbn [default]. by rewrite mul_0_l.
Qed.

Lemma times_linear_comm (p : list Z) (a b : Z) :
  Forall F p -> F a -> F b ->
  times_linear st (times_linear st p a) b
  = times_linear st (times_linear st p b) a.
Proof.
  intros Hp Ha Hb. apply list_eq_total.
  - unfold times_linear. by rewrite !tlf_length.
  - intros i Hi.
    rewrite !get_total
      by (unfold times_linear in *; rewrite !tlf_length in *; lia).
    rewrite !times_linear_get by done.
    pose proof (get_fits p i Hp) as Hfi.
    destruct i as [|j].
    + cbn [lookup list_lookup default].
      rewrite !Z.lxor_0_r.
      rewrite !(mul_assoc lam Hlam) by done.
      f_equal. by apply mul_comm.
    + change ((0 :: times_linear st p a) !! S j)
        with (times_linear st p a !! j).
      change ((0 :: times_linear st p b) !! S j)
        with (times_linear st p b !! j).
      change ((0 :: p) !! S j) with (p !! j).
      rewrite !times_linear_get by done.
      pose proof (get_fits p j Hp) as Hj.
      assert (F (get (0 :: p) j)) as Hj'
        by (apply get_fits; constructor; [by apply fits_0|done]).
      rewrite !mul_lxor_l by (done || by apply mul_fits).
      rewrite (mul_assoc lam Hlam (get p (S j)) a b) by done.
      rewrite (mul_assoc lam Hlam (get p (S j)) b a) by done.
      rewrite (mul_comm lam Hlam a b) by done.
      lxor_ac.
Qed.

Lemma foldl_times_linear_perm (l l' : list Z) (p : list Z) :
  l ≡ₚ l' -> Forall F l -> Forall F p ->
  foldl (times_linear st) p l = foldl (times_linear st) p l'.
Proof.
  intros Hperm. revert p.
  induction Hperm as [|x l l' Hperm IH|x y l|l l' l'' H1 IH1 H2 IH2];
    intros p Hl Hp.
  - done.
  - apply Forall_cons in Hl as [Hx Hl]. cbn [foldl].
    apply IH; [done|by apply times_linear_fits].
  - apply Forall_cons in Hl as [Hy Hl]. apply Forall_cons in Hl as [Hx Hl].
    cbn [foldl]. by rewrite times_linear_comm.
  - rewrite IH1 by done. apply IH2; [|done].
    by rewrite <- H1.
Qed.

End PolyAlgebra.

(** * Further results on the root polynomial *)

(** X16: under the active configuration of [lambda = 4] the root
    polynomial of a concatenation of two lists of roots is the product, by
    [operator*], of the root polynomials of the two lists. *)
Theorem build_from_roots_app (lam : Z) (st : field_state) (r1 r2 : list Z) :
  active lam st -> lam = 4 -> Forall (fits st) r1 -> Forall (fits st) r2 ->
  Z.of_nat (length r1) + Z.of_nat (length r2) < vector_max_size ->
  poly_mul st (build_from_roots st r1) (build_from_roots st r2)
  = Some (build_from_roots st (r1 ++ r2)).
Proof.
  intros Hact Hl4 H1 H2 Hsz.
  destruct (active_config lam st Hact) as [Hlam ->].
  rewrite (config_field_of lam Hl4) in *.
  rewrite !build_from_roots_monic by (done || by apply Forall_app).
  rewrite poly_mul_ok by (rewrite !monic_product_length; lia).
  rewrite !monic_product_length.
  replace (S (length r1) + S (length r2) - 1)%nat
    with (S (length r1 + length r2)) by lia.
  by rewrite monic_product_app.
Qed.

Lemma build_from_roots_app_witness :
  poly_mul (config 4) (build_from_roots (config 4) [3; 5])
    (build_from_roots (config 4) [7; 2 ^ 31; 9])
  = Some (build_from_roots (config 4) ([3; 5] ++ [7; 2 ^ 31; 9])).
Proof.
  apply (build_from_roots_app 4 (config 4) [3; 5] [7; 2 ^ 31; 9]).
  - apply config_active. lia.
  - reflexivity.
  - repeat constructor; unfold fits; simpl; lia.
  - repeat constructor; unfold fits; simpl; lia.
  - rewrite vector_max_size_val. simpl. lia.
Defined.

(** X17: under the active configuration of [lambda = 4] the root
    polynomial does not depend on the order of the roots: two lists of
    roots that are permutations of each other give the same coefficient
    vector. *)
Theorem build_from_roots_permutation (lam : Z) (st : field_state)
    (roots roots' : list Z) :
  active lam st -> lam = 4 -> Forall (fits st) roots -> roots ≡ₚ roots' ->
  build_from_roots st roots = build_from_roots st roots'.
Proof.
  intros Hact Hl4 Hr Hperm.
  destruct (active_config lam st Hact) as [Hlam ->].
  rewrite (config_field_of lam Hl4) in *.
  rewrite !build_from_roots_monic by (done || by rewrite <- Hperm).
  apply foldl_times_linear_perm; [done..|].
  constructor; [by apply fits_1|done].
Qed.

Lemma build_from_roots_permutation_witness :
  build_from_roots (config 4) [3; 5; 2 ^ 31] = build_from_roots (config 4) [2 ^ 31; 3; 5].
Proof.
  apply (build_from_roots_permutation 4 (config 4) [3; 5; 2 ^ 31] [2 ^ 31; 3; 5]).
  - apply config_active. lia.
  - reflexivity.
  - repeat constructor; unfold fits; simpl; lia.
  - change [2 ^ 31; 3; 5] with ([2 ^ 31] ++ [3; 5]).
    change [3; 5; 2 ^ 31] with ([3; 5] ++ [2 ^ 31]).
    apply Permutation_app_comm.
Defined.

(** X18: under the active configuration of [lambda = 4] the root
    polynomial of any list of field elements, empty or not, has one
    coefficient more than there are roots, all of them field elements, and
    it vanishes exactly at the roots: its value at [x] is zero if and only
    if [x] is in the list. *)
Theorem build_from_roots_vanishes_iff (lam : Z) (st : field_state)
    (roots : list Z) (x : Z) :
  active lam st -> lam = 4 -> Forall (fits st) roots -> fits st x ->
  length (build_from_roots st roots) = S (length roots)
  /\ Forall (fits st) (build_from_roots st roots)
  /\ (eval st (build_from_roots st roots) x = 0 <-> x ∈ roots).
Proof.
  intros Hact Hl4 Hr Hx.
  destruct (active_config lam st Hact) as [Hlam ->].
  rewrite (config_field_of lam Hl4) in *.
  rewrite build_from_roots_monic by done.
  split; [by apply monic_product_length|].
  split; [by apply monic_product_fits|].
  rewrite eval_horner, horner_monic_product by done.
  unfold product_of_differences. split.
  - intros H0. destruct (decide (x ∈ roots)) as [|Hnot]; [done|].
    exfalso. revert H0.
    apply product_nonzero; [done..|by apply fits_1|done|done|done].
  - intros Hin. apply product_at_root; [done..|by apply fits_1|done|done].
Qed.

Lemma build_from_roots_vanishes_iff_witness :
  length (build_from_roots (config 4) [3; 5; 7]) = S (length [3; 5; 7])
  /\ Forall (fits (config 4)) (build_from_roots (config 4) [3; 5; 7])
  /\ (eval (config 4) (build_from_roots (config 4) [3; 5; 7]) 6 = 0
      <-> 6 ∈ [3; 5; 7]).
Proof.
  apply (build_from_roots_vanishes_iff 4 (config 4) [3; 5; 7] 6).
  - apply config_active. lia.
  - reflexivity.
  - repeat constructor; unfold fits; simpl; lia.
  - unfold fits; simpl; lia.
Defined.

(** * Interpolation: the basis, uniqueness and linearity *)

Section InterpolationMore.

Variable lam : Z.
Hypothesis Hlam : lam = 4 \/ lam = 5 \/ lam = 6.

Local Abbreviation st := (field_of lam).
Local Abbreviation F := (fits (field_of lam)).
Local Abbreviation mul := (gf_mul (field_of lam)).
Local Abbreviation zip_lxor := (zip_with Z.lxor).

Lemma basis_lookup (xs : list Z) (k : nat) :
  (k < length xs)%nat ->
  map (lagrange_basis st xs) (seq 0 (length xs)) !!! k = lagrange_basis st xs k.
Proof.
  intros Hk. apply list_lookup_total_correct.
  rewrite list_lookup_fmap, lookup_seq_lt by lia. done.
Qed.

Lemma weighted_fits (basis : list (list Z)) (ys : list Z) (idxs : list nat)
    (res : list Z) :
  Forall F res -> Forall F ys ->
  Forall (fun k => (k < length ys)%nat /\ Forall F (basis !!! k)) idxs ->
  Forall F (foldl (fun res k =>
                     zip_lxor res (map (fun a => mul a (ys !!! k)) (basis !!! k)))
                  res idxs).
Proof.
  intros Hres Hys Hidx. revert res Hres.
  induction Hidx as [|k idxs [Hk Hb] _ IH]; intros res Hres; [done|].
  cbn [foldl]. apply IH. apply zip_lxor_fits; [done..|].
  apply map_scale_fits; [done..|]. by apply lookup_total_fits.
Qed.

(** Interpolation on the Lagrange basis of distinct points. *)
Lemma interpolate_at_points (xs ys : list Z) :
  xs <> [] -> NoDup xs -> Forall F xs -> Forall F ys ->
  length ys = length xs ->
  let basis := map (lagrange_basis st xs) (seq 0 (length xs)) in
  precompute_lagrange_polynomials st xs = Ok basis
  /\ interpolate_with_precomputation st basis ys
     = Ok (weighted_sum st basis ys)
  /\ length (weighted_sum st basis ys) = length xs
  /\ Forall F (weighted_sum st basis ys)
  /\ forall j, (j < length xs)%nat ->
       horner st (weighted_sum st basis ys) (xs !!! j) = ys !!! j.
Proof.
  intros Hne Hnd Hxs Hys Hlen basis.
  set (m := length xs) in *.
  assert (length basis = m) as Hlb
    by (unfold basis; by rewrite length_map, length_seq).
  assert (0 < m)%nat as Hm
    by (unfold m; destruct xs; [done|cbn [length]; lia]).
  assert (forall k, (k < m)%nat -> basis !!! k = lagrange_basis st xs k) as Hbk
    by (intros k Hk; by apply basis_lookup).
  assert (forall k, (k < m)%nat -> length (basis !!! k) = m) as Hlk.
  { intros k Hk. rewrite Hbk by done. by apply lagrange_basis_length. }
  assert (forall k, (k < m)%nat -> Forall F (basis !!! k)) as Hfk.
  { intros k Hk. rewrite Hbk by done. by apply lagrange_basis_fits. }
  split; [by apply precompute_ok|].
  destruct (interpolate_ok st basis ys) as [Hok Hlw].
  { lia. }
  { intros ->. cbn [length] in Hlen. lia. }
  { apply Forall_forall. intros p Hp.
    apply list_elem_of_lookup in Hp as [k Hk].
    pose proof (lookup_lt_Some _ _ _ Hk) as Hkm.
    rewrite <- (list_lookup_total_correct _ _ _ Hk).
    rewrite !Hlk by lia. done. }
  split; [exact Hok|].
  split; [rewrite Hlw; apply Hlk; lia|].
  split.
  { unfold weighted_sum. apply weighted_fits; [|done|].
    - apply Forall_replicate. by apply fits_0.
    - apply Forall_forall. intros k Hk%list_elem_of_In%in_seq.
      split; [lia|]. apply Hfk. lia. }
  intros j Hj. unfold weighted_sum.
  pose proof (lookup_total_fits _ xs j Hxs Hj) as Hfj.
  rewrite (horner_weighted lam Hlam); cycle 1.
  { exact Hfj. }
  { apply Forall_replicate. by apply fits_0. }
  { exact Hys. }
  { apply Forall_forall. intros k Hk%list_elem_of_In%in_seq.
    split; [lia|]. rewrite length_replicate, !Hlk by lia.
    split; [|done]. apply Hfk. lia. }
  rewrite horner_zeros by done.
  rewrite (kronecker_sum lam Hlam
             (fun k => horner st (basis !!! k) (xs !!! j))
             ys j (length ys)); [|done|lia|].
  - destruct (decide (j < length ys)%nat); [done|lia].
  - intros k Hk. cbv beta. rewrite Hbk by lia.
    apply lagrange_basis_at; [done..|lia].
Qed.

(** ** Division by a linear factor *)

Lemma synthetic_division_length (r : Z) (p : list Z) :
  length (synthetic_division st r p) = length p.
Proof. induction p as [|c p IH]; [done|]. cbn. by rewrite IH. Qed.

Lemma synthetic_division_fits (r : Z) (p : list Z) :
  F r -> Forall F p -> Forall F (synthetic_division st r p).
Proof.
  intros Hr Hp. induction Hp as [|c p Hc Hp IH]; [done|].
  cbn [synthetic_division]. constructor; [|done].
  apply fits_lxor; [done..|]. apply mul_fits; [done| |done].
  destruct IH; [by apply fits_0|done].
Qed.

Lemma horner_head_tail (s : list Z) (x : Z) :
  F x -> horner st s x = Z.lxor (mul (horner st (tail s) x) x) (hd 0 s).
Proof.
  intros Hx. destruct s as [|b s]; [|done].
  cbn. rewrite mul_0_l by done. done.
Qed.

Lemma horner_synthetic_division (r x : Z) (p : list Z) :
  F r -> F x -> Forall F p ->
  horner st p x
  = Z.lxor (mul (horner st (tail (synthetic_division st r p)) x) (Z.lxor x r))
      (hd 0 (synthetic_division st r p)).
Proof.
  intros Hr Hx Hp. induction Hp as [|c p Hc Hp IH].
  - cbn. rewrite mul_0_l by (done || by apply fits_lxor). done.
  - cbn [synthetic_division horner tail hd].
    pose proof (synthetic_division_fits r p Hr Hp) as Hs.
    set (s := synthetic_division st r p) in *.
    rewrite IH, (horner_head_tail s x Hx).
    unfold gf_add.
    assert (F (horner st (tail s) x)) as HH.
    { apply horner_fits; [done| |done]. destruct Hs; [done|done]. }
    assert (F (hd 0 s)) as Hh by (destruct Hs; [by apply fits_0|done]).
    assert (F (Z.lxor x r)) as Hxr by (by apply fits_lxor).
    rewrite !mul_lxor_l by (done || by apply mul_fits).
    rewrite (mul_lxor_r lam Hlam (hd 0 s) x r) by done.
    rewrite (mul_assoc lam Hlam _ (Z.lxor x r) x) by done.
    rewrite (mul_assoc lam Hlam _ x (Z.lxor x r)) by done.
    rewrite (mul_comm lam Hlam (Z.lxor x r) x) by done.
    lxor_ac.
Qed.

Lemma synthetic_division_zero (r : Z) (p : list Z) :
  F r ->
  synthetic_division st r p = replicate (length p) 0 ->
  p = replicate (length p) 0.
Proof.
  intros Hr. induction p as [|c p IH]; [done|].
  cbn [synthetic_division length replicate]. intros [= Hc Hs].
  rewrite <- IH by done. f_equal.
  rewrite Hs in Hc.
  assert (hd 0 (replicate (length p) 0) = 0) as Hhd by (by destruct p).
  rewrite Hhd, mul_0_l, Z.lxor_0_r in Hc by done. done.
Qed.

(** A polynomial with no more coefficients than it has distinct roots is
    zero. *)
Lemma vanishing_polynomial (xs : list Z) (p : list Z) :
  NoDup xs -> Forall F xs -> Forall F p ->
  (length p <= length xs)%nat ->
  (forall x, x ∈ xs -> horner st p x = 0) ->
  p = replicate (length p) 0.
Proof.
  intros Hnd. revert p.
  induction Hnd as [|r xs Hr Hnd IH]; intros p Hxs Hp Hlen Hroots.
  - destruct p; [done|cbn in Hlen; lia].
  - apply Forall_cons in Hxs as [Hfr Hxs].
    destruct p as [|c p]; [done|].
    apply (synthetic_division_zero r); [done|].
    pose proof (synthetic_division_fits r (c :: p) Hfr Hp) as Hs.
    pose proof (synthetic_division_length r (c :: p)) as Hls.
    pose proof (fun x Hx => horner_synthetic_division r x (c :: p) Hfr Hx Hp)
      as Hdiv.
    destruct (synthetic_division st r (c :: p)) as [|h q]; [done|].
    cbn [tail hd] in Hdiv. apply Forall_cons in Hs as [Hh Hq].
    assert (h = 0) as ->.
    { specialize (Hdiv r Hfr).
      rewrite Hroots, Z.lxor_nilpotent, mul_0_r, Z.lxor_0_l in Hdiv
        by first [done|by left|by apply horner_fits].
      done. }
    cbn [length replicate]. f_equal.
    cbn [length] in Hls, Hlen.
    replace (length p) with (length q) by lia.
    apply IH; [done..|lia|].
    intros x Hx.
    assert (F x) as Hfx by (rewrite Forall_forall in Hxs; by apply Hxs).
    specialize (Hdiv x Hfx).
    rewrite Hroots, Z.lxor_0_r in Hdiv by (by right).
    symmetry in Hdiv.
    apply mul_eq_0 in Hdiv; [|done|by apply horner_fits|by apply fits_lxor].
    destruct Hdiv as [|Hxr]; [done|].
    apply Z.lxor_eq in Hxr. subst x. done.
Qed.

Lemma zip_lxor_zero (p q : list Z) :
  length p = length q ->
  zip_lxor p q = replicate (length p) 0 -> p = q.
Proof.
  revert q. induction p as [|a p IH]; intros [|b q] Hlen; try done.
  cbn [zip_with length replicate]. intros [= Hab Hpq].
  apply Z.lxor_eq in Hab. subst b. f_equal. apply IH; [|done].
  cbn in Hlen. lia.
Qed.

(** Interpolating the values of a polynomial returns the polynomial. *)
Lemma interpolate_evaluations (xs p : list Z) :
  xs <> [] -> NoDup xs -> Forall F xs -> Forall F p ->
  length p = length xs ->
  weighted_sum st (map (lagrange_basis st xs) (seq 0 (length xs)))
    (map (horner st p) xs) = p.
Proof.
  intros Hne Hnd Hxs Hp Hlen.
  assert (Forall F (map (horner st p) xs)) as Hys.
  { apply Forall_forall. intros y Hy.
    apply list_elem_of_fmap in Hy as (x & -> & Hx).
    apply horner_fits; [done..|]. rewrite Forall_forall in Hxs. by apply Hxs. }
  destruct (interpolate_at_points xs (map (horner st p) xs) Hne Hnd Hxs Hys
              ltac:(by rewrite length_map))
    as (_ & _ & HlP & HfP & Hval).
  set (P := weighted_sum st _ _) in *.
  apply zip_lxor_zero; [lia|].
  replace (length P) with (length (zip_lxor P p))
    by (rewrite length_zip_with; lia).
  apply (vanishing_polynomial xs); [done..|by apply zip_lxor_fits| |].
  - rewrite length_zip_with. lia.
  - intros x Hx. apply list_elem_of_lookup in Hx as [j Hj].
    pose proof (lookup_lt_Some _ _ _ Hj) as Hjm.
    assert (F x) as Hfx
      by (rewrite Forall_forall in Hxs; apply Hxs; by eapply list_elem_of_lookup_2).
    rewrite horner_zip_lxor by (done || lia).
    rewrite <- (list_lookup_total_correct _ _ _ Hj), Hval by done.
    rewrite (list_lookup_total_correct (map (horner st p) xs) j (horner st p x)).
    + rewrite (list_lookup_total_correct _ _ _ Hj). apply Z.lxor_nilpotent.
    + by rewrite list_lookup_fmap, Hj.
Qed.

End InterpolationMore.

Section InterpolationLinear.

Variable lam : Z.
Hypothesis Hlam : lam = 4 \/ lam = 5 \/ lam = 6.

Local Abbreviation st := (field_of lam).
Local Abbreviation F := (fits (field_of lam)).
Local Abbreviation mul := (gf_mul (field_of lam)).
Local Abbreviation zip_lxor := (zip_with Z.lxor).

Lemma zip_lxor_lookup (u v : list Z) (k : nat) :
  (k < length u)%nat -> (k < length v)%nat ->
  zip_lxor u v !!! k = Z.lxor (u !!! k) (v !!! k).
Proof.
  intros Hu Hv.
  destruct (lookup_lt_is_Some_2 u k Hu) as [a Ha].
  destruct (lookup_lt_is_Some_2 v k Hv) as [b Hb].
  rewrite (list_lookup_total_correct _ _ _ Ha),
    (list_lookup_total_correct _ _ _ Hb).
  apply list_lookup_total_correct.
  rewrite lookup_zip_with, Ha. cbn. by rewrite Hb.
Qed.

Lemma step_lxor (b acc acc' : list Z) (y y' : Z) :
  Forall F b -> F y -> F y' ->
  length acc = length b -> length acc' = length b ->
  zip_lxor (zip_lxor acc acc') (map (fun a => mul a (Z.lxor y y')) b)
  = zip_lxor (zip_lxor acc (map (fun a => mul a y) b))
      (zip_lxor acc' (map (fun a => mul a y') b)).
Proof.
  intros Hb Hy Hy'. revert acc acc'.
  induction Hb as [|a b Ha Hb IH]; intros [|c acc] [|c' acc'] H1 H2; try done.
  cbn [map zip_with]. rewrite IH by (cbn in H1, H2; lia).
  f_equal. rewrite mul_lxor_r by done. lxor_ac.
Qed.

Lemma step_scale (b acc : list Z) (y c : Z) :
  Forall F b -> Forall F acc -> F y -> F c ->
  zip_lxor (map (fun a => mul a c) acc) (map (fun a => mul a (mul y c)) b)
  = map (fun a => mul a c) (zip_lxor acc (map (fun a => mul a y) b)).
Proof.
  intros Hb Hacc Hy Hc. revert acc Hacc.
  induction Hb as [|a b Ha Hb IH]; intros acc Hacc.
  - by destruct acc.
  - destruct Hacc as [|e acc He Hacc]; [done|].
    cbn [map zip_with]. rewrite IH by done. f_equal.
    rewrite mul_lxor_l by (done || by apply mul_fits).
    by rewrite (mul_assoc lam Hlam a y c).
Qed.

Lemma weighted_lxor (basis : list (list Z)) (ys ys' : list Z) (n : nat)
    (idxs : list nat) (acc acc' : list Z) :
  Forall F ys -> Forall F ys' -> length ys = length ys' ->
  Forall (fun k => (k < length ys)%nat /\ Forall F (basis !!! k)
                   /\ length (basis !!! k) = n) idxs ->
  length acc = n -> length acc' = n ->
  foldl (fun res k =>
           zip_lxor res
             (map (fun a => mul a (zip_lxor ys ys' !!! k)) (basis !!! k)))
        (zip_lxor acc acc') idxs
  = zip_lxor
      (foldl (fun res k =>
                zip_lxor res (map (fun a => mul a (ys !!! k)) (basis !!! k)))
             acc idxs)
      (foldl (fun res k =>
                zip_lxor res (map (fun a => mul a (ys' !!! k)) (basis !!! k)))
             acc' idxs).
Proof.
  intros Hys Hys' Hlen Hidx. revert acc acc'.
  induction Hidx as [|k idxs (Hk & Hb & Hlb) _ IH]; intros acc acc' H1 H2;
    [done|].
  cbn [foldl]. rewrite zip_lxor_lookup by lia.
  rewrite step_lxor; [|done|by apply lookup_total_fits|
                      apply lookup_total_fits; [done|lia]|lia|lia].
  apply IH; rewrite length_zip_with, length_map; lia.
Qed.

Lemma weighted_scale (basis : list (list Z)) (ys : list Z) (c : Z)
    (idxs : list nat) (acc : list Z) :
  Forall F ys -> F c -> Forall F acc ->
  Forall (fun k => (k < length ys)%nat /\ Forall F (basis !!! k)) idxs ->
  foldl (fun res k =>
           zip_lxor res
             (map (fun a => mul a (map (fun y => mul y c) ys !!! k))
                (basis !!! k)))
        (map (fun a => mul a c) acc) idxs
  = map (fun a => mul a c)
      (foldl (fun res k =>
                zip_lxor res (map (fun a => mul a (ys !!! k)) (basis !!! k)))
             acc idxs).
Proof.
  intros Hys Hc Hacc Hidx. revert acc Hacc.
  induction Hidx as [|k idxs (Hk & Hb) _ IH]; intros acc Hacc; [done|].
  cbn [foldl].
  assert (map (fun y => mul y c) ys !!! k = mul (ys !!! k) c) as ->.
  { destruct (lookup_lt_is_Some_2 ys k Hk) as [y Hy].
    rewrite (list_lookup_total_correct _ _ _ Hy).
    apply list_lookup_total_correct. by rewrite list_lookup_fmap, Hy. }
  rewrite step_scale by (done || by apply lookup_total_fits).
  apply IH. apply zip_lxor_fits; [done..|].
  apply map_scale_fits; [done..|]. by apply lookup_total_fits.
Qed.

End InterpolationLinear.

(** * Results on interpolation *)

(** X19: under the active configuration of [lambda = 4], for distinct
    points, [precompute_lagrange_polynomials] returns one polynomial per
    point, each with as many coefficients as there are points, all field
    elements; the polynomial of index [k] takes the value 1 at the point
    of index [k] and 0 at every other point. *)
Theorem lagrange_polynomials_kronecker (lam : Z) (st : field_state)
    (x_values : list Z) :
  active lam st -> lam = 4 -> NoDup x_values -> Forall (fits st) x_values ->
  exists basis,
    precompute_lagrange_polynomials st x_values = Ok basis
    /\ length basis = length x_values
    /\ forall k, (k < length x_values)%nat ->
         length (basis !!! k) = length x_values
         /\ Forall (fits st) (basis !!! k)
         /\ forall j, (j < length x_values)%nat ->
              eval st (basis !!! k) (x_values !!! j)
              = if decide (k = j) then 1 else 0.
Proof.
  intros Hact Hl4 Hnd Hxs.
  destruct (active_config lam st Hact) as [Hlam ->].
  rewrite (config_field_of lam Hl4) in *.
  exists (map (lagrange_basis (field_of lam) x_values) (seq 0 (length x_values))).
  split; [by apply precompute_ok|].
  split; [by rewrite length_map, length_seq|].
  intros k Hk. rewrite basis_lookup by done.
  split; [by apply lagrange_basis_length|].
  split; [by apply lagrange_basis_fits|].
  intros j Hj. rewrite eval_horner. by apply lagrange_basis_at.
Qed.

Lemma lagrange_polynomials_kronecker_witness :
  exists basis,
    precompute_lagrange_polynomials (config 4) [2; 4; 8] = Ok basis
    /\ length basis = length [2; 4; 8]
    /\ forall k, (k < length [2; 4; 8])%nat ->
         length (basis !!! k) = length [2; 4; 8]
         /\ Forall (fits (config 4)) (basis !!! k)
         /\ forall j, (j < length [2; 4; 8])%nat ->
              eval (config 4) (basis !!! k) ([2; 4; 8] !!! j)
              = if decide (k = j) then 1 else 0.
Proof.
  apply (lagrange_polynomials_kronecker 4 (config 4) [2; 4; 8]).
  - apply config_active. lia.
  - reflexivity.
  - repeat constructor; rewrite ?elem_of_cons, ?elem_of_nil; intuition lia.
  - repeat constructor; unfold fits; simpl; lia.
Defined.

(** X20: under the active configuration of [lambda = 4] interpolation
    inverts evaluation: for [m] distinct points and a polynomial with [m]
    coefficients, interpolating the values of the polynomial at the points
    returns the coefficient vector of the polynomial itself. *)
Theorem interpolate_inverts_eval (lam : Z) (st : field_state)
    (x_values poly : list Z) :
  active lam st -> lam = 4 ->
  x_values <> [] -> NoDup x_values ->
  Forall (fits st) x_values -> Forall (fits st) poly ->
  length poly = length x_values ->
  exists basis,
    precompute_lagrange_polynomials st x_values = Ok basis
    /\ interpolate_with_precomputation st basis
         (map (eval st poly) x_values) = Ok poly.
Proof.
  intros Hact Hl4 Hne Hnd Hxs Hp Hlen.
  destruct (active_config lam st Hact) as [Hlam ->].
  rewrite (config_field_of lam Hl4) in *.
  exists (map (lagrange_basis (field_of lam) x_values) (seq 0 (length x_values))).
  assert (map (eval (field_of lam) poly) x_values
          = map (horner (field_of lam) poly) x_values) as ->.
  { apply map_ext. intros x. apply eval_horner. }
  assert (Forall (fits (field_of lam)) (map (horner (field_of lam) poly) x_values))
    as Hys.
  { apply Forall_forall. intros y Hy.
    apply list_elem_of_fmap in Hy as (x & -> & Hx).
    apply horner_fits; [done..|]. rewrite Forall_forall in Hxs. by apply Hxs. }
  destruct (interpolate_at_points lam Hlam x_values
              (map (horner (field_of lam) poly) x_values) Hne Hnd Hxs Hys
              ltac:(by rewrite length_map))
    as (Hpre & Hint & _).
  split; [exact Hpre|].
  rewrite Hint. f_equal. by apply interpolate_evaluations.
Qed.

Lemma interpolate_inverts_eval_witness :
  exists basis,
    precompute_lagrange_polynomials (config 4) [2; 4; 8] = Ok basis
    /\ interpolate_with_precomputation (config 4) basis
         (map (eval (config 4) [11; 2 ^ 31; 33]) [2; 4; 8])
       = Ok [11; 2 ^ 31; 33].
Proof.
  apply (interpolate_inverts_eval 4 (config 4) [2; 4; 8] [11; 2 ^ 31; 33]).
  - apply config_active. lia.
  - reflexivity.
  - discriminate.
  - repeat constructor; rewrite ?elem_of_cons, ?elem_of_nil; intuition lia.
  - repeat constructor; unfold fits; simpl; lia.
  - repeat constructor; unfold fits; simpl; lia.
  - reflexivity.
Defined.

(** X21: under the active configuration of [lambda = 4] interpolation is
    linear in the values: for a set of basis polynomials of one common
    length, interpolating the sum of two value vectors gives the sum of
    the two interpolated polynomials, and interpolating a value vector
    scaled by [c] gives the interpolated polynomial scaled by [c]. *)
Theorem interpolate_linear (lam : Z) (st : field_state)
    (basis : list (list Z)) (ys ys' : list Z) (c : Z) :
  active lam st -> lam = 4 ->
  Forall (fun b => length b = length (basis !!! 0%nat) /\ Forall (fits st) b)
    basis ->
  Forall (fits st) ys -> Forall (fits st) ys' -> fits st c ->
  length ys = length basis -> length ys' = length basis -> ys <> [] ->
  exists p p' s,
    interpolate_with_precomputation st basis ys = Ok p
    /\ interpolate_with_precomputation st basis ys' = Ok p'
    /\ vec_add ys ys' = Ok s
    /\ interpolate_with_precomputation st basis s = Ok (zip_with Z.lxor p p')
    /\ vec_add p p' = Ok (zip_with Z.lxor p p')
    /\ interpolate_with_precomputation st basis (vec_scale st ys c)
       = Ok (vec_scale st p c).
Proof.
  intros Hact Hl4 Hbasis Hys Hys' Hc Hlen Hlen' Hne.
  destruct (active_config lam st Hact) as [Hlam ->].
  rewrite (config_field_of lam Hl4) in *.
  set (n := length (basis !!! 0%nat)) in *.
  assert (Forall (fun p => length p = n) basis) as Hrect
    by (eapply Forall_impl; [exact Hbasis|]; by intros b [? _]).
  assert (forall k, (k < length basis)%nat ->
            Forall (fits (field_of lam)) (basis !!! k)
            /\ length (basis !!! k) = n) as Hbk.
  { intros k Hk. destruct (lookup_lt_is_Some_2 basis k Hk) as [b Hb].
    rewrite (list_lookup_total_correct _ _ _ Hb).
    rewrite Forall_forall in Hbasis.
    destruct (Hbasis b) as [? ?]; [by eapply list_elem_of_lookup_2|done]. }
  assert (ys' <> []) as Hne'.
  { intros ->. destruct ys; [done|]. cbn in Hlen, Hlen'. lia. }
  destruct (interpolate_ok (field_of lam) basis ys) as [Hp Hlp]; [lia|done|done|].
  destruct (interpolate_ok (field_of lam) basis ys') as [Hp' Hlp']; [lia|done|done|].
  exists (weighted_sum (field_of lam) basis ys),
    (weighted_sum (field_of lam) basis ys'), (zip_with Z.lxor ys ys').
  split; [done|]. split; [done|].
  split; [apply vec_add_ok; lia|].
  split; [|split].
  - destruct (interpolate_ok (field_of lam) basis (zip_with Z.lxor ys ys'))
      as [Hs _].
    { rewrite length_zip_with. lia. }
    { destruct ys, ys'; done. }
    { done. }
    rewrite Hs. f_equal. unfold weighted_sum.
    rewrite length_zip_with, Nat.min_l by lia.
    replace (length ys') with (length ys) by lia.
    fold n.
    rewrite <- (weighted_lxor lam Hlam basis ys ys' n);
      [|done|done|lia| |by rewrite length_replicate..].
    + f_equal. clear. induction n as [|n IH]; [done|].
      cbn [replicate zip_with]. by rewrite <- IH.
    + apply Forall_forall. intros k Hk%list_elem_of_In%in_seq.
      split; [lia|]. apply Hbk. lia.
  - apply vec_add_ok. lia.
  - rewrite !vec_scale_map.
    destruct (interpolate_ok (field_of lam) basis
                (map (fun a => gf_mul (field_of lam) a c) ys)) as [Hs _].
    { rewrite length_map. lia. }
    { by destruct ys. }
    { done. }
    rewrite Hs. f_equal. unfold weighted_sum. rewrite length_map. fold n.
    rewrite <- (weighted_scale lam Hlam basis ys c); [|done|done| |].
    + by rewrite zeros_scale.
    + apply Forall_replicate. by apply fits_0.
    + apply Forall_forall. intros k Hk%list_elem_of_In%in_seq.
      split; [lia|]. apply Hbk. lia.
Qed.

Lemma interpolate_linear_witness :
  exists p p' s,
    interpolate_with_precomputation (config 4) [[1; 2]; [3; 4]] [5; 6] = Ok p
    /\ interpolate_with_precomputation (config 4) [[1; 2]; [3; 4]] [7; 2 ^ 31]
       = Ok p'
    /\ vec_add [5; 6] [7; 2 ^ 31] = Ok s
    /\ interpolate_with_precomputation (config 4) [[1; 2]; [3; 4]] s
       = Ok (zip_with Z.lxor p p')
    /\ vec_add p p' = Ok (zip_with Z.lxor p p')
    /\ interpolate_with_precomputation (config 4) [[1; 2]; [3; 4]]
         (vec_scale (config 4) [5; 6] 9)
       = Ok (vec_scale (config 4) p 9).
Proof.
  apply (interpolate_linear 4 (config 4) [[1; 2]; [3; 4]] [5; 6] [7; 2 ^ 31] 9).
  - apply config_active. lia.
  - reflexivity.
  - repeat constructor; unfold fits; simpl; lia.
  - repeat constructor; unfold fits; simpl; lia.
  - repeat constructor; unfold fits; simpl; lia.
  - unfold fits; simpl; lia.
  - reflexivity.
  - reflexivity.
  - discriminate.
Defined.

(** X22: under the active configuration of [lambda = 4] the points
    returned by [get_first_n_field_elements(n)] can be used for
    interpolation whenever [n] is positive and at most the order of [x]:
    the Lagrange polynomials exist, interpolation of any [n] values
    succeeds with a polynomial of [n] coefficients, and that polynomial
    takes the value of index [k] at the point [x^(k+1)]. *)
Theorem interpolate_on_first_n_field_elements (lam : Z) (st : field_state)
    (n : nat) (y_values : list Z) :
  active lam st -> lam = 4 ->
  (0 < n)%nat -> Z.of_nat n <= order_of_x lam ->
  Forall (fits st) y_values -> length y_values = n ->
  exists basis poly,
    precompute_lagrange_polynomials st (get_first_n_field_elements st n)
    = Ok basis
    /\ interpolate_with_precomputation st basis y_values = Ok poly
    /\ length poly = n
    /\ forall k, (k < n)%nat ->
         eval st poly (gen_pow st 2 (S k)) = y_values !!! k.
Proof.
  intros Hact Hl4 Hn Hord Hys Hlen.
  destruct (active_config lam st Hact) as [Hlam ->].
  rewrite (config_field_of lam Hl4) in *.
  set (xs := get_first_n_field_elements (field_of lam) n).
  assert (length xs = n) as Hlx
    by (unfold xs; by rewrite get_first_n_eq, length_map, length_seq).
  assert (NoDup xs) as Hnd by (by apply first_n_nodup).
  assert (Forall (fits (field_of lam)) xs) as Hxs.
  { unfold xs. rewrite get_first_n_eq. apply Forall_forall. intros y Hy.
    apply list_elem_of_fmap in Hy as (i & -> & _).
    apply gen_pow_fits; [done|by apply fits_2]. }
  assert (xs <> []) as Hne by (intros H0; rewrite H0 in Hlx; cbn in Hlx; lia).
  destruct (interpolate_at_points lam Hlam xs y_values Hne Hnd Hxs Hys
              ltac:(lia)) as (Hpre & Hint & HlP & _ & Hval).
  eexists _, _. split; [exact Hpre|]. split; [exact Hint|].
  split; [lia|].
  intros k Hk. rewrite eval_horner.
  rewrite <- (get_first_n_lookup (field_of lam) n k Hk). fold xs.
  apply Hval. lia.
Qed.

Lemma interpolate_on_first_n_field_elements_witness :
  exists basis poly,
    precompute_lagrange_polynomials (config 4)
      (get_first_n_field_elements (config 4) 3) = Ok basis
    /\ interpolate_with_precomputation (config 4) basis [11; 22; 2 ^ 31]
       = Ok poly
    /\ length poly = 3%nat
    /\ forall k, (k < 3)%nat ->
         eval (config 4) poly (gen_pow (config 4) 2 (S k))
         = [11; 22; 2 ^ 31] !!! k.
Proof.
  apply (interpolate_on_first_n_field_elements 4 (config 4) 3 [11; 22; 2 ^ 31]).
  - apply config_active. lia.
  - reflexivity.
  - lia.
  - simpl. lia.
  - repeat constructor; unfold fits; simpl; lia.
  - reflexivity.
Defined.

(** * The lifting table as a ring embedding *)

Lemma gf2_mod_bound (P c n : Z) :
  0 <= n -> 2 ^ n <= P < 2 ^ (n + 1) -> 0 <= c ->
  0 <= gf2_mod P c < 2 ^ n.
Proof.
  intros Hn HP Hc.
  assert (Z.log2 P = n) as HlP by (apply Z.log2_unique; lia).
  unfold gf2_mod. rewrite HlP.
  apply poly_rem_bound; [done..|].
  split; [done|].
  destruct (Z.eq_dec c 0) as [->|Hne]; [apply pow2_pos; lia|].
  pose proof (Z.log2_spec c ltac:(lia)) as [_ Hlt].
  eapply Z.lt_le_trans; [exact Hlt|].
  apply pow2_mono. pose proof (Z.log2_nonneg c). lia.
Qed.

Lemma gf256_mul_byte (a b : Z) :
  0 <= a < 256 -> 0 <= b < 256 -> 0 <= gf256_mul a b < 256.
Proof.
  intros Ha Hb. unfold gf256_mul.
  apply (gf2_mod_bound gf256_modulus _ 8); [lia|by vm_compute|].
  apply clmul_nonneg. lia.
Qed.

Lemma gf256_mul_lxor_l (a a' b : Z) :
  0 <= a -> 0 <= a' -> 0 <= b ->
  gf256_mul (Z.lxor a a') b = Z.lxor (gf256_mul a b) (gf256_mul a' b).
Proof.
  intros Ha Ha' Hb. unfold gf256_mul.
  rewrite clmul_lxor_l.
  apply gf2_mod_lxor; [by vm_compute|by apply clmul_nonneg..].
Qed.

Lemma gf256_mul_lxor_r (a b b' : Z) :
  0 <= a -> 0 <= b -> 0 <= b' ->
  gf256_mul a (Z.lxor b b') = Z.lxor (gf256_mul a b) (gf256_mul a b').
Proof.
  intros Ha Hb Hb'. unfold gf256_mul.
  rewrite clmul_lxor_r.
  apply gf2_mod_lxor; [by vm_compute|by apply clmul_nonneg..].
Qed.

Lemma lift_mul_check_ok (lam : Z) :
  lam = 4 \/ lam = 5 \/ lam = 6 -> lift_mul_check (field_of lam) = true.
Proof. intros [-> | [-> | ->]]; by vm_compute. Qed.

Lemma lift_kernel_check_ok (lam : Z) :
  lam = 4 \/ lam = 5 \/ lam = 6 -> lift_kernel_check (field_of lam) = true.
Proof. intros [-> | [-> | ->]]; by vm_compute. Qed.

Section Lifting.

Variable lam : Z.
Hypothesis Hlam : lam = 4 \/ lam = 5 \/ lam = 6.

Local Abbreviation st := (field_of lam).
Local Abbreviation F := (fits (field_of lam)).
Local Abbreviation mul := (gf_mul (field_of lam)).
Local Abbreviation lift := (lift_uint8_t (field_of lam)).

Lemma generator_fits : F (generator lam).
Proof. destruct Hlam as [-> | [-> | ->]]; by vm_compute. Qed.

Lemma lin_comb_fits (tbl : list Z) (i a : Z) :
  Forall F tbl -> F (lin_comb tbl i a).
Proof.
  intros Htbl. revert i. induction Htbl as [|t tbl Ht _ IH]; intros i.
  - by apply fits_0.
  - cbn [lin_comb]. apply fits_lxor; [done| |done].
    destruct (Z.testbit a i); [done|by apply fits_0].
Qed.

Lemma lift_fits (p : Z) : 0 <= p < 256 -> F (lift p).
Proof.
  intros Hp. rewrite lift_linear by done.
  apply lin_comb_fits, Forall_forall. intros y Hy.
  apply list_elem_of_fmap in Hy as (i & -> & _).
  apply gen_pow_fits; [done|apply generator_fits].
Qed.

Lemma lift_lxor (p q : Z) :
  0 <= p < 256 -> 0 <= q < 256 ->
  lift (Z.lxor p q) = Z.lxor (lift p) (lift q).
Proof.
  intros Hp Hq.
  assert (0 <= Z.lxor p q < 256) by (apply (lxor_bound p q 8); lia).
  rewrite !lift_linear by done. apply lin_comb_lxor.
Qed.

Lemma lift_mul_basis (i j : Z) :
  0 <= i < 8 -> 0 <= j < 8 ->
  lift (gf256_mul (2 ^ i) (2 ^ j)) = mul (lift (2 ^ i)) (lift (2 ^ j)).
Proof.
  intros Hi Hj.
  pose proof (lift_mul_check_ok lam Hlam) as Hall.
  unfold lift_mul_check in Hall.
  apply (forallb_seq _ _ i) in Hall; [|lia]. cbv beta in Hall.
  apply (forallb_seq _ _ j) in Hall; [|lia]. cbv beta in Hall.
  rewrite !Z2Nat.id in Hall by lia. by apply Z.eqb_eq in Hall.
Qed.

Lemma pow2_byte (i : Z) : 0 <= i < 8 -> 0 <= 2 ^ i < 256.
Proof.
  intros Hi. split; [apply Z.pow_nonneg; lia|].
  change 256 with (2 ^ 8). apply Z.pow_lt_mono_r; lia.
Qed.

Lemma lift_mul (p q : Z) :
  0 <= p < 256 -> 0 <= q < 256 ->
  lift (gf256_mul p q) = mul (lift p) (lift q).
Proof.
  intros Hp Hq. revert p Hp.
  change 256 with (2 ^ 8).
  apply (linear_ext 8 (fun p => lift (gf256_mul p q))
           (fun p => mul (lift p) (lift q))); [lia| | |].
  - intros a b Ha Hb. cbv beta.
    rewrite gf256_mul_lxor_l by lia.
    apply lift_lxor; apply gf256_mul_byte; done.
  - intros a b Ha Hb. cbv beta.
    rewrite lift_lxor by done.
    apply mul_lxor_l; [done|by apply lift_fits..].
  - intros i Hi. cbv beta. revert q Hq.
    change 256 with (2 ^ 8).
    apply (linear_ext 8 (fun q => lift (gf256_mul (2 ^ i) q))
             (fun q => mul (lift (2 ^ i)) (lift q))); [lia| | |].
    + intros a b Ha Hb. cbv beta.
      pose proof (pow2_byte i Hi).
      rewrite gf256_mul_lxor_r by lia.
      apply lift_lxor; apply gf256_mul_byte; done.
    + intros a b Ha Hb. cbv beta.
      rewrite lift_lxor by done.
      apply mul_lxor_r; [done|apply lift_fits; by apply pow2_byte|
                         by apply lift_fits..].
    + intros j Hj. by apply lift_mul_basis.
Qed.

Lemma lift_kernel (p : Z) : 0 <= p < 256 -> lift p = 0 -> p = 0.
Proof.
  intros Hp H0. destruct (Z.eq_dec p 0) as [|Hne]; [done|exfalso].
  pose proof (lift_kernel_check_ok lam Hlam) as Hall.
  unfold lift_kernel_check in Hall. rewrite forallb_forall in Hall.
  specialize (Hall (Z.to_nat p)).
  rewrite Z2Nat.id, H0 in Hall by lia.
  assert (In (Z.to_nat p) (seq 1 255)) as Hin by (apply in_seq; lia).
  by specialize (Hall Hin).
Qed.

Lemma lift_injective (p q : Z) :
  0 <= p < 256 -> 0 <= q < 256 -> lift p = lift q -> p = q.
Proof.
  intros Hp Hq Heq. apply Z.lxor_eq.
  apply lift_kernel; [apply (lxor_bound p q 8); lia|].
  rewrite lift_lxor, Heq by done. apply Z.lxor_nilpotent.
Qed.

End Lifting.

Lemma lift_kernel_config_ok (lam : Z) :
  lam = 4 \/ lam = 5 \/ lam = 6 -> lift_kernel_check (config lam) = true.
Proof. intros [-> | [-> | ->]]; by vm_compute. Qed.

Lemma lift_config_kernel (lam p : Z) :
  lam = 4 \/ lam = 5 \/ lam = 6 ->
  0 <= p < 256 -> lift_uint8_t (config lam) p = 0 -> p = 0.
Proof.
  intros Hlam Hp H0. destruct (Z.eq_dec p 0) as [|Hne]; [done|exfalso].
  pose proof (lift_kernel_config_ok lam Hlam) as Hall.
  unfold lift_kernel_check in Hall. rewrite forallb_forall in Hall.
  specialize (Hall (Z.to_nat p)).
  rewrite Z2Nat.id, H0 in Hall by lia.
  assert (In (Z.to_nat p) (seq 1 255)) as Hin by (apply in_seq; lia).
  by specialize (Hall Hin).
Qed.

Lemma lift_config_lxor (lam p q : Z) :
  lam = 4 \/ lam = 5 \/ lam = 6 ->
  0 <= p < 256 -> 0 <= q < 256 ->
  lift_uint8_t (config lam) (Z.lxor p q)
  = Z.lxor (lift_uint8_t (config lam) p) (lift_uint8_t (config lam) q).
Proof.
  intros Hlam Hp Hq.
  assert (0 <= Z.lxor p q < 256) by (apply (lxor_bound p q 8); lia).
  rewrite !lift_linear_config by done. apply lin_comb_lxor.
Qed.

Lemma lift_config_fits (lam p : Z) :
  lam = 4 \/ lam = 5 -> 0 <= p < 256 ->
  fits (config lam) (lift_uint8_t (config lam) p).
Proof.
  intros H45 Hp.
  assert (forallb (fun i =>
            (0 <=? lift_uint8_t (config lam) (Z.of_nat i))
            && (lift_uint8_t (config lam) (Z.of_nat i) <? 2 ^ (8 * lam)))
            (seq 0 256) = true) as Hall
    by (destruct H45 as [-> | ->]; by vm_compute).
  apply (forallb_seq _ _ p) in Hall; [|lia]. cbv beta in Hall.
  rewrite Z2Nat.id in Hall by lia.
  apply andb_prop in Hall as [H0%Z.leb_le Hlt%Z.ltb_lt].
  apply fits_config; [destruct H45 as [-> | ->]; lia|done].
Qed.

(** X23: after configuration the lifting table maps the sum (XOR) of two
    bytes to the sum of their lifts, the bytes 0, 1 and [x] to 0, 1 and
    the generator, and two different bytes to different values, under
    every [lambda]; under [lambda] 4 and 5 every lift is a field element.
    Under [lambda = 4] the table is an embedding of the field of 256
    elements: the lift of a product of two bytes, taken modulo
    [x^8 + x^4 + x^3 + x + 1], is the product of their lifts.  Under
    [lambda = 5] it is not: the bytes 83 and 202 have product 1, the
    product of their lifts is 609283741270. *)
Theorem lifting_is_ring_embedding (lam : Z) (st : field_state) (p q : Z) :
  active lam st -> 0 <= p < 256 -> 0 <= q < 256 ->
  0 <= gf256_mul p q < 256
  /\ lift_uint8_t st (Z.lxor p q)
     = gf_add (lift_uint8_t st p) (lift_uint8_t st q)
  /\ lift_uint8_t st 0 = 0 /\ lift_uint8_t st 1 = 1
  /\ lift_uint8_t st 2 = generator lam
  /\ (lift_uint8_t st p = lift_uint8_t st q -> p = q)
  /\ (lam = 4 \/ lam = 5 -> fits st (lift_uint8_t st p))
  /\ (lam = 4 ->
      lift_uint8_t st (gf256_mul p q)
      = gf_mul st (lift_uint8_t st p) (lift_uint8_t st q))
  /\ gf256_mul 83 202 = 1
  /\ gf_mul (config 5) (lift_uint8_t (config 5) 83)
       (lift_uint8_t (config 5) 202) = 609283741270.
Proof.
  intros Hact Hp Hq.
  destruct (active_config lam st Hact) as [Hlam ->].
  split; [by apply gf256_mul_byte|].
  split; [by apply lift_config_lxor|].
  split; [by destruct Hlam as [-> | [-> | ->]]|].
  split; [by destruct Hlam as [-> | [-> | ->]]|].
  split; [by destruct Hlam as [-> | [-> | ->]]|].
  split.
  { intros Heq. apply Z.lxor_eq.
    apply (lift_config_kernel lam); [done|apply (lxor_bound p q 8); lia|].
    rewrite lift_config_lxor, Heq by done. apply Z.lxor_nilpotent. }
  split; [intros H45; by apply lift_config_fits|].
  split; [|split; by vm_compute].
  intros Hl4. rewrite (config_field_of lam Hl4). by apply lift_mul.
Qed.

Lemma lifting_is_ring_embedding_witness :
  0 <= gf256_mul 83 202 < 256
  /\ lift_uint8_t (config 4) (Z.lxor 83 202)
     = gf_add (lift_uint8_t (config 4) 83) (lift_uint8_t (config 4) 202)
  /\ lift_uint8_t (config 4) 0 = 0 /\ lift_uint8_t (config 4) 1 = 1
  /\ lift_uint8_t (config 4) 2 = generator 4
  /\ (lift_uint8_t (config 4) 83 = lift_uint8_t (config 4) 202 -> 83 = 202)
  /\ (4 = 4 \/ 4 = 5 -> fits (config 4) (lift_uint8_t (config 4) 83))
  /\ (4 = 4 ->
      lift_uint8_t (config 4) (gf256_mul 83 202)
      = gf_mul (config 4) (lift_uint8_t (config 4) 83)
          (lift_uint8_t (config 4) 202))
  /\ gf256_mul 83 202 = 1
  /\ gf_mul (config 5) (lift_uint8_t (config 5) 83)
       (lift_uint8_t (config 5) 202) = 609283741270.
Proof.
  apply (lifting_is_ring_embedding 4 (config 4) 83 202).
  - apply config_active. lia.
  - lia.
  - lia.
Defined.

(** * Parameter sets and the field configuration *)

(** X24: every valid parameter-set identifier yields an instance on which
    [init_extension_field] succeeds, with [byte_size] equal to its
    [lambda]; in every such instance the product of [m1] and [m2] is the
    number of S-boxes, the digest is twice as long as the seed, and the
    seed is as long as the key. *)
Theorem valid_instances_configure (param : banquet_params_t)
    (st0 : field_state) :
  wf_state st0 ->
  PARAMETER_SET_INVALID < param < PARAMETER_SET_MAX_INDEX ->
  exists instance st,
    banquet_instance_get param = Ok instance
    /\ init_extension_field instance st0 = Ok st
    /\ active (lambda instance) st
    /\ byte_size st = lambda instance
    /\ m1 instance * m2 instance = num_sboxes (aes_params instance)
    /\ digest_size instance = 2 * seed_size instance
    /\ seed_size instance = key_size (aes_params instance).
Proof.
  intros Hwf Hparam.
  unfold PARAMETER_SET_INVALID, PARAMETER_SET_MAX_INDEX in Hparam.
  assert (exists instance,
            banquet_instance_get param = Ok instance
            /\ (lambda instance = 4 \/ lambda instance = 5 \/ lambda instance = 6)
            /\ m1 instance * m2 instance = num_sboxes (aes_params instance)
            /\ digest_size instance = 2 * seed_size instance
            /\ seed_size instance = key_size (aes_params instance))
    as (instance & Hget & Hlam & Hm & Hd & Hs).
  { assert (param = 1 \/ param = 2 \/ param = 3 \/ param = 4 \/ param = 5
            \/ param = 6 \/ param = 7 \/ param = 8 \/ param = 9 \/ param = 10
            \/ param = 11 \/ param = 12) as Hcases by lia.
    repeat (destruct Hcases as [-> | Hcases]); [..|subst param];
      (eexists; split; [reflexivity|]; cbn; tauto). }
  exists instance, (config (lambda instance)).
  split; [done|].
  split; [by apply init_extension_field_ok|].
  split; [by apply config_active|].
  split; [by destruct Hlam as [-> | [-> | ->]]|done].
Qed.

Lemma valid_instances_configure_witness :
  exists instance st,
    banquet_instance_get Banquet_L3_Param1 = Ok instance
    /\ init_extension_field instance initial_state = Ok st
    /\ active (lambda instance) st
    /\ byte_size st = lambda instance
    /\ m1 instance * m2 instance = num_sboxes (aes_params instance)
    /\ digest_size instance = 2 * seed_size instance
    /\ seed_size instance = key_size (aes_params instance).
Proof.
  apply (valid_instances_configure Banquet_L3_Param1 initial_state).
  - reflexivity.
  - unfold PARAMETER_SET_INVALID, Banquet_L3_Param1, PARAMETER_SET_MAX_INDEX. lia.
Defined.

(** * Multiplication by [x] *)

Lemma mul_2_xtime_exact (lam : Z) (b : Z) :
  lam = 4 \/ lam = 5 \/ lam = 6 -> fits (field_of lam) b ->
  gf_mul (field_of lam) 2 b
  = Z.lxor (Z.shiftl b 1)
      (if Z.testbit b (8 * lam - 1) then modulus lam else 0).
Proof.
  intros Hlam Hb. pose proof (modulus_range lam Hlam) as HP.
  assert (0 <= b < 2 ^ (8 * lam)) as Hr by (by apply fits_range).
  rewrite mul_2_shift by done.
  replace (if Z.testbit b (8 * lam - 1) then modulus lam else 0)
    with (clmul (if Z.testbit b (8 * lam - 1) then 1 else 0) (modulus lam))
    by (destruct (Z.testbit b (8 * lam - 1));
        [apply clmul_1_l|apply clmul_0_l]).
  apply (gf2_mod_unique (8 * lam)); [lia|exact HP| | |].
  - apply Z.shiftl_nonneg. lia.
  - destruct (Z.testbit b (8 * lam - 1)); lia.
  - assert (0 <= Z.lxor (Z.shiftl b 1)
                   (clmul (if Z.testbit b (8 * lam - 1) then 1 else 0)
                      (modulus lam))) as Hnn.
    { apply Z.lxor_nonneg. split; intros _.
      - apply clmul_nonneg. lia.
      - apply Z.shiftl_nonneg. lia. }
    split; [exact Hnn|].
    apply lt_pow2_of_bits; [exact Hnn|lia|].
    intros i Hi. rewrite Z.lxor_spec, Z.shiftl_spec by lia.
    destruct (Z.eq_dec i (8 * lam)) as [->|Hne].
    + destruct (Z.testbit b (8 * lam - 1)) eqn:E.
      * rewrite clmul_1_l, top_bit by (lia || exact HP). reflexivity.
      * rewrite clmul_0_l, Z.bits_0. reflexivity.
    + rewrite (testbit_above b (8 * lam)) by lia.
      destruct (Z.testbit b (8 * lam - 1)).
      * rewrite clmul_1_l.
        rewrite (testbit_above (modulus lam) (8 * lam + 1)) by lia.
        reflexivity.
      * rewrite clmul_0_l, Z.bits_0. reflexivity.
Qed.

(** X25: multiplying a field element by [x] (bit mask 2), on either side,
    shifts its bit mask left by one position and adds the modulus when
    the top coefficient was set: the step taken by
    [get_first_n_field_elements] from one element to the next is that of
    a linear feedback shift register. *)
Theorem multiply_by_x_is_shift (lam : Z) (st : field_state) (b : Z) :
  active lam st -> fits st b ->
  gf_mul st b 2
  = Z.lxor (Z.shiftl b 1)
      (if Z.testbit b (8 * byte_size st - 1) then modulus lam else 0)
  /\ gf_mul st 2 b = gf_mul st b 2.
Proof.
  intros Hact Hb.
  destruct (active_config lam st Hact) as [Hlam ->].
  replace (byte_size (config lam)) with lam
    by (by destruct Hlam as [-> | [-> | ->]]).
  pose proof (fits_to_field_of lam Hlam b Hb) as Hb'.
  rewrite (config_mul_comm lam Hlam 2 b (config_fits_2 lam Hlam) Hb).
  split; [|done].
  rewrite (config_mul_2 lam Hlam b Hb).
  rewrite (mul_comm lam Hlam b 2) by (done || by apply fits_2).
  by apply mul_2_xtime_exact.
Qed.

Lemma multiply_by_x_is_shift_witness :
  gf_mul (config 4) (2 ^ 31 + 1) 2
  = Z.lxor (Z.shiftl (2 ^ 31 + 1) 1)
      (if Z.testbit (2 ^ 31 + 1) (8 * byte_size (config 4) - 1)
       then modulus 4 else 0)
  /\ gf_mul (config 4) 2 (2 ^ 31 + 1) = gf_mul (config 4) (2 ^ 31 + 1) 2.
Proof.
  apply (multiply_by_x_is_shift 4 (config 4) (2 ^ 31 + 1)).
  - apply config_active. lia.
  - unfold fits; simpl; lia.
Defined.

(** * The product of polynomials is commutative *)

Section PolyMulComm.

(** The argument needs two facts about the multiplication only, which
    hold under every configuration of the program: it is commutative, and
    a product with zero is zero.  It does not need the product to
    distribute over the sum. *)

Variable st : field_state.
Hypothesis mul_zero : forall a, fits st a -> gf_mul st a 0 = 0.
Hypothesis mul_sym :
  forall a b, fits st a -> fits st b -> gf_mul st a b = gf_mul st b a.

Local Abbreviation F := (fits st).
Local Abbreviation mul := (gf_mul st).
Local Abbreviation zip_lxor := (zip_with Z.lxor).
Local Abbreviation zeros n := (replicate n 0).
Local Abbreviation disjoint := (Forall2 (fun b b' : Z => b = 0 \/ b' = 0)).

Lemma zip_lxor_zeros_r (l : list Z) (n : nat) :
  length l = n -> zip_lxor l (zeros n) = l.
Proof.
  intros <-. induction l as [|a l IH]; [done|].
  cbn [length replicate zip_with]. by rewrite IH, Z.lxor_0_r.
Qed.

Lemma zip_lxor_zeros_l (l : list Z) (n : nat) :
  length l = n -> zip_lxor (zeros n) l = l.
Proof.
  intros <-. induction l as [|a l IH]; [done|].
  cbn [length replicate zip_with]. by rewrite IH, Z.lxor_0_l.
Qed.

Lemma disjoint_zeros_l (l : list Z) (n : nat) :
  length l = n -> disjoint (zeros n) l.
Proof.
  intros <-. induction l as [|a l IH]; [constructor|].
  cbn [length replicate]. constructor; [by left|done].
Qed.

(** The row of [a] is additive in the second factor when the two summands
    have disjoint supports. *)
Lemma add_row_disjoint (a : Z) (q q' r r' : list Z) :
  F a -> disjoint q q' -> length r = length r' ->
  add_row st a (zip_lxor q q') (zip_lxor r r')
  = zip_lxor (add_row st a q r) (add_row st a q' r').
Proof.
  intros Ha Hq. revert r r'.
  induction Hq as [|b b' q q' Hb Hq IH]; intros r r' Hlr.
  - cbn [zip_with add_row]. by destruct r, r'.
  - destruct r as [|c r], r' as [|c' r']; try done.
    cbn [zip_with add_row]. rewrite IH by (cbn in Hlr; lia). f_equal.
    destruct Hb as [-> | ->].
    + rewrite Z.lxor_0_l, mul_zero, Z.lxor_0_r by done. apply Z.lxor_assoc.
    + rewrite Z.lxor_0_r, mul_zero, Z.lxor_0_r by done.
      rewrite !Z.lxor_assoc. f_equal. apply Z.lxor_comm.
Qed.

Lemma conv_disjoint (p q q' r r' : list Z) :
  Forall F p -> disjoint q q' -> length r = length r' ->
  conv st p (zip_lxor q q') (zip_lxor r r')
  = zip_lxor (conv st p q r) (conv st p q' r').
Proof.
  intros Hp Hq. revert r r'.
  induction Hp as [|a p Ha Hp IH]; intros r r' Hlr; [done|].
  cbn [conv]. rewrite add_row_disjoint by done.
  pose proof (add_row_length st a q r) as H1.
  pose proof (add_row_length st a q' r') as H2.
  destruct (add_row st a q r) as [|c R], (add_row st a q' r') as [|c' R'];
    try done.
  cbn [zip_with]. rewrite IH by (cbn in H1, H2; lia). done.
Qed.

Lemma conv_shift_zero (p q r : list Z) (c0 : Z) :
  Forall F p -> conv st p (0 :: q) (c0 :: r) = c0 :: conv st p q r.
Proof.
  intros Hp. revert r c0.
  induction Hp as [|a p Ha Hp IH]; intros r c0; [done|].
  cbn [conv add_row]. rewrite mul_zero, Z.lxor_0_r by done.
  destruct (add_row st a q r) as [|c R].
  - f_equal. by destruct p.
  - by rewrite IH.
Qed.

Lemma add_row_snoc_zero (a : Z) (q r : list Z) :
  F a -> (length q <= length r)%nat ->
  add_row st a (q ++ [0]) (r ++ [0]) = add_row st a q r ++ [0].
Proof.
  intros Ha. revert r. induction q as [|b q IH]; intros r Hlen.
  - destruct r as [|c r].
    + cbn. by rewrite mul_zero.
    + cbn [app add_row]. by rewrite mul_zero, Z.lxor_0_r by done.
  - destruct r as [|c r]; [cbn in Hlen; lia|].
    cbn [app add_row]. rewrite IH by (cbn in Hlen; lia). done.
Qed.

Lemma conv_snoc_zero (p q r : list Z) :
  Forall F p -> (length p + length q <= S (length r))%nat ->
  conv st p (q ++ [0]) (r ++ [0]) = conv st p q r ++ [0].
Proof.
  intros Hp. revert r.
  induction Hp as [|a p Ha Hp IH]; intros r Hlen; [done|].
  cbn [conv]. rewrite add_row_snoc_zero by (done || (cbn in Hlen; lia)).
  pose proof (add_row_length st a q r) as Hrow.
  destruct (add_row st a q r) as [|c R].
  - destruct r; [|done]. cbn in Hlen.
    assert (p = []) as -> by (destruct p; [done|cbn in Hlen; lia]).
    done.
  - cbn [app]. rewrite IH by (cbn in Hlen, Hrow; lia). done.
Qed.

Lemma add_row_zero_poly (a : Z) (k : nat) (r : list Z) :
  F a -> add_row st a (zeros k) r = r.
Proof.
  intros Ha. revert r. induction k as [|k IH]; intros r; [by destruct r|].
  destruct r as [|c r]; [done|].
  cbn [replicate add_row]. by rewrite IH, mul_zero, Z.lxor_0_r.
Qed.

Lemma conv_zero_poly (p : list Z) (k : nat) (r : list Z) :
  Forall F p -> conv st p (zeros k) r = r.
Proof.
  intros Hp. revert r. induction Hp as [|a p Ha Hp IH]; intros r; [done|].
  cbn [conv]. rewrite add_row_zero_poly by done.
  destruct r as [|c r]; [done|]. by rewrite IH.
Qed.

Lemma add_row_zeros_tail (a : Z) (q : list Z) (k : nat) :
  add_row st a q (zeros (length q + k))
  = map (fun b => mul a b) q ++ zeros k.
Proof.
  induction q as [|b q IH]; [by destruct k|].
  cbn [length Nat.add replicate add_row map app].
  by rewrite IH, Z.lxor_0_l.
Qed.

Lemma conv_snoc_zeros (p q r : list Z) (k : nat) :
  Forall F p -> (length p + length q <= S (length r))%nat ->
  conv st p (q ++ zeros k) (r ++ zeros k) = conv st p q r ++ zeros k.
Proof.
  intros Hp Hlen. induction k as [|k IH].
  - by rewrite !app_nil_r.
  - rewrite replicate_S_end, !app_assoc.
    rewrite conv_snoc_zero
      by (done || (rewrite !length_app, !length_replicate; lia)).
    by rewrite IH, <- app_assoc.
Qed.

(** Expansion along the first coefficient of the first factor. *)
Lemma conv_row (a : Z) (p q : list Z) :
  F a -> Forall F p -> q <> [] ->
  conv st (a :: p) q (zeros (length p + length q))
  = zip_lxor (map (fun b => mul a b) q ++ zeros (length p))
      (0 :: conv st p q (zeros (length p + length q - 1))).
Proof.
  intros Ha Hp Hne.
  cbn [conv].
  rewrite (Nat.add_comm (length p)), add_row_zeros_tail.
  destruct q as [|b q]; [done|].
  cbn [map app length zip_with]. rewrite Z.lxor_0_r. f_equal.
  replace (S (length q) + length p - 1)%nat with (length q + length p)%nat by lia.
  set (R := map (fun b => mul a b) q ++ zeros (length p)).
  assert (length R = (length q + length p)%nat) as HlR
    by (unfold R; rewrite length_app, length_map, length_replicate; lia).
  rewrite <- (zip_lxor_zeros_r R (length q + length p)) at 1 by done.
  rewrite <- (zip_lxor_zeros_l (b :: q) (S (length q))) at 1 by done.
  rewrite conv_disjoint; cycle 1.
  { done. }
  { by apply disjoint_zeros_l. }
  { by rewrite length_replicate. }
  by rewrite conv_zero_poly.
Qed.

(** Expansion along the first coefficient of the second factor. *)
Lemma conv_col (b : Z) (p q : list Z) :
  Forall F p -> p <> [] ->
  conv st p (b :: q) (zeros (length p + length q))
  = zip_lxor (map (fun a => mul a b) p ++ zeros (length q))
      (0 :: conv st p q (zeros (length p + length q - 1))).
Proof.
  intros Hp Hne.
  assert (0 < length p)%nat as Hlp by (destruct p; [done|cbn; lia]).
  assert (b :: q = zip_lxor ([b] ++ zeros (length q)) (0 :: q)) as ->.
  { cbn [app zip_with]. rewrite Z.lxor_0_r. f_equal.
    by rewrite zip_lxor_zeros_l. }
  assert (zeros (length p + length q)
          = zip_lxor (zeros (length p) ++ zeros (length q))
              (0 :: zeros (length p + length q - 1))) as ->.
  { rewrite <- replicate_add.
    replace (length p + length q)%nat with (S (length p + length q - 1)) at 1 2
      by lia.
    cbn [replicate zip_with]. rewrite Z.lxor_0_r. f_equal.
    by rewrite zip_lxor_zeros_l by (by rewrite length_replicate). }
  rewrite conv_disjoint; cycle 1.
  { done. }
  { cbn [app]. constructor; [by right|]. by apply disjoint_zeros_l. }
  { rewrite length_app, !length_replicate. cbn [length].
    rewrite length_replicate. lia. }
  rewrite conv_shift_zero by done.
  rewrite conv_snoc_zeros by (done || (rewrite length_replicate; cbn [length]; lia)).
  by rewrite conv_scalar_r.
Qed.

Lemma conv_comm (p q : list Z) :
  Forall F p -> Forall F q ->
  conv st p q (zeros (length p + length q - 1))
  = conv st q p (zeros (length q + length p - 1)).
Proof.
  intros Hp. revert q. induction Hp as [|a p Ha Hp IH]; intros q Hq.
  - cbn [conv length Nat.add]. rewrite Nat.add_0_r. by rewrite conv_nil_r.
  - destruct q as [|b q].
    + rewrite conv_nil_r. cbn [conv]. f_equal. cbn [length]. lia.
    + replace (length (a :: p) + length (b :: q) - 1)%nat
        with (length p + length (b :: q))%nat by (cbn [length]; lia).
      replace (length (b :: q) + length (a :: p) - 1)%nat
        with (length (b :: q) + length p)%nat by (cbn [length]; lia).
      rewrite conv_row by done.
      rewrite conv_col by done.
      rewrite IH by done.
      f_equal. f_equal.
      apply map_ext_Forall. eapply Forall_impl; [exact Hq|].
      intros c Hc. by apply mul_sym.
Qed.

End PolyMulComm.

(** X26: the product of polynomials is commutative: on coefficient
    vectors of field elements [operator*] gives the same result, or the
    same failure, whatever the order of the two factors. *)
Theorem poly_mul_comm (lam : Z) (st : field_state) (lhs rhs : list Z) :
  active lam st -> Forall (fits st) lhs -> Forall (fits st) rhs ->
  Z.of_nat (length lhs) <= vector_max_size ->
  Z.of_nat (length rhs) <= vector_max_size ->
  poly_mul st lhs rhs = poly_mul st rhs lhs.
Proof.
  intros Hact Hl Hr Hsl Hsr.
  destruct (active_config lam st Hact) as [Hlam ->].
  pose proof vector_max_size_val as Hmax.
  destruct (Z.eq_dec (Z.of_nat (length lhs) + Z.of_nat (length rhs)) 0)
    as [H0|Hne].
  { assert (lhs = []) as -> by (destruct lhs; [done|cbn [length] in H0; lia]).
    by assert (rhs = []) as -> by (destruct rhs; [done|cbn [length] in H0; lia]). }
  destruct (Z.le_gt_cases (Z.of_nat (length lhs) + Z.of_nat (length rhs))
              (vector_max_size + 1)) as [Hle|Hgt].
  - rewrite !poly_mul_ok by lia. f_equal.
    apply conv_comm; [|exact (config_mul_comm lam Hlam)|done|done].
    exact (config_mul_0_r lam Hlam).
  - unfold poly_mul. cbv zeta.
    rewrite (Z.add_comm (Z.of_nat (length rhs))).
    rewrite Z.mod_small by lia.
    by destruct (Z.ltb_spec vector_max_size
                   (Z.of_nat (length lhs) + Z.of_nat (length rhs) - 1));
      [|lia].
Qed.

Lemma poly_mul_comm_witness :
  poly_mul (config 4) [1; 2; 2 ^ 31] [4; 5] = poly_mul (config 4) [4; 5] [1; 2; 2 ^ 31].
Proof.
  apply (poly_mul_comm 4 (config 4) [1; 2; 2 ^ 31] [4; 5]).
  - apply config_active. lia.
  - repeat constructor; unfold fits; simpl; lia.
  - repeat constructor; unfold fits; simpl; lia.
  - rewrite vector_max_size_val. simpl. lia.
  - rewrite vector_max_size_val. simpl. lia.
Defined.

(** * Addition of vectors *)

Lemma zip_lxor_comm (u v : list Z) : zip_with Z.lxor u v = zip_with Z.lxor v u.
Proof.
  revert v. induction u as [|a u IH]; intros [|b v]; try done.
  cbn [zip_with]. by rewrite IH, Z.lxor_comm.
Qed.

Lemma zip_lxor_cancel (u v : list Z) :
  length u = length v -> zip_with Z.lxor (zip_with Z.lxor u v) v = u.
Proof.
  revert v. induction u as [|a u IH]; intros [|b v] Hlen; try done.
  cbn [zip_with]. rewrite IH by (cbn in Hlen; lia).
  by rewrite lxor_cancel_r.
Qed.

Lemma zip_lxor_self (u : list Z) :
  zip_with Z.lxor u u = replicate (length u) 0.
Proof.
  induction u as [|a u IH]; [done|].
  cbn [zip_with length replicate]. by rewrite IH, Z.lxor_nilpotent.
Qed.

(** X27: the sum of two vectors of equal length does not depend on the
    order of the two vectors, adding the second vector once more, with
    [operator+=], gives the first vector back, and the sum of a vector
    with itself is the zero vector: subtraction of vectors is their
    addition. *)
Theorem vec_add_involutive (lhs rhs : list Z) :
  length lhs = length rhs ->
  exists s,
    vec_add lhs rhs = Ok s /\ vec_add rhs lhs = Ok s
    /\ vec_add_assign s rhs = Ok lhs
    /\ vec_add lhs lhs = Ok (replicate (length lhs) 0).
Proof.
  intros Hlen. exists (zip_with Z.lxor lhs rhs).
  split; [by apply vec_add_ok|].
  split; [rewrite zip_lxor_comm; by apply vec_add_ok|].
  split.
  - rewrite vec_add_assign_ok by (rewrite length_zip_with; lia).
    by rewrite zip_lxor_cancel.
  - rewrite vec_add_ok by done. by rewrite zip_lxor_self.
Qed.

Lemma vec_add_involutive_witness :
  exists s,
    vec_add [1; 2; 3] [4; 5; 6] = Ok s /\ vec_add [4; 5; 6] [1; 2; 3] = Ok s
    /\ vec_add_assign s [4; 5; 6] = Ok [1; 2; 3]
    /\ vec_add [1; 2; 3] [1; 2; 3] = Ok (replicate (length [1; 2; 3]) 0).
Proof. apply (vec_add_involutive [1; 2; 3] [4; 5; 6]). reflexivity. Defined.

(** * The reduction routines on accumulators *)

Lemma lxor_testbit_false (c d i : Z) :
  Z.testbit c i = false -> Z.testbit d i = false ->
  Z.testbit (Z.lxor c d) i = false.
Proof. intros Hc Hd. by rewrite Z.lxor_spec, Hc, Hd. Qed.

(** X28: under every active configuration the reduction routine returns
    the remainder of the division by the modulus, which is a field
    element, for every accumulator below [2^(16 * byte_size - 1)] whose
    bit 63 is clear, and not only for the product of two elements; under
    [lambda = 4] it does so whatever bit 63 is.  On such accumulators it
    is additive, it leaves a field element unchanged and maps the modulus
    to zero.  Under [lambda = 5] the accumulator [2^63], whose bit 63 is
    set, is reduced to 192937984, which is not its remainder. *)
Theorem reduce_is_remainder (lam : Z) (st : field_state) (c d : Z) :
  active lam st ->
  0 <= c < 2 ^ (16 * byte_size st - 1) ->
  0 <= d < 2 ^ (16 * byte_size st - 1) ->
  lam = 4 \/ Z.testbit c 63 = false ->
  lam = 4 \/ Z.testbit d 63 = false ->
  reduce st c = gf2_mod (modulus lam) c
  /\ fits st (reduce st c)
  /\ reduce st (Z.lxor c d) = Z.lxor (reduce st c) (reduce st d)
  /\ (fits st c -> reduce st c = c)
  /\ reduce st (modulus lam) = 0
  /\ reduce (config 5) (2 ^ 63) = 192937984
  /\ gf2_mod (modulus 5) (2 ^ 63) = 478150656.
Proof.
  intros Hact.
  destruct (active_byte_size lam st Hact) as [-> _].
  destruct (active_config lam st Hact) as [Hlam ->].
  intros Hc Hd Hcs Hds.
  pose proof (modulus_range lam Hlam) as HP.
  pose proof (modulus_log2 lam Hlam) as Hlog.
  assert (lam = 4 \/ Z.testbit (Z.lxor c d) 63 = false) as Hcds.
  { destruct Hcs as [?|Hcs]; [by left|].
    destruct Hds as [?|Hds]; [by left|]. right.
    by apply lxor_testbit_false. }
  assert (0 <= modulus lam < 2 ^ (16 * lam - 1)) as HPr.
  { split; [lia|]. eapply Z.lt_le_trans; [apply HP|]. apply pow2_mono. lia. }
  assert (lam = 4 \/ Z.testbit (modulus lam) 63 = false) as HPs.
  { right. apply (testbit_above _ (8 * lam + 1)); lia. }
  rewrite !reduce_config_exact by (done || by apply lxor_bound).
  destruct (gf2_mod_modulus lam c Hlam Hc) as [Hfit _].
  split; [done|].
  split; [by apply fits_config|].
  split; [apply gf2_mod_lxor; lia|].
  split.
  - intros Hfit'. apply gf2_mod_small; [lia|]. rewrite Hlog.
    by apply fits_config.
  - split; [|split; by vm_compute].
    replace (gf2_mod (modulus lam) (modulus lam))
      with (gf2_mod (modulus lam) (clmul 1 (modulus lam)))
      by (by rewrite clmul_1_l).
    apply (gf2_mod_multiple (8 * lam)); [lia|done|lia].
Qed.

Lemma reduce_is_remainder_witness :
  reduce (config 5) (2 ^ 70 + 2 ^ 62 + 5)
  = gf2_mod (modulus 5) (2 ^ 70 + 2 ^ 62 + 5)
  /\ fits (config 5) (reduce (config 5) (2 ^ 70 + 2 ^ 62 + 5))
  /\ reduce (config 5) (Z.lxor (2 ^ 70 + 2 ^ 62 + 5) (2 ^ 40))
     = Z.lxor (reduce (config 5) (2 ^ 70 + 2 ^ 62 + 5))
         (reduce (config 5) (2 ^ 40))
  /\ (fits (config 5) (2 ^ 70 + 2 ^ 62 + 5) ->
      reduce (config 5) (2 ^ 70 + 2 ^ 62 + 5) = 2 ^ 70 + 2 ^ 62 + 5)
  /\ reduce (config 5) (modulus 5) = 0
  /\ reduce (config 5) (2 ^ 63) = 192937984
  /\ gf2_mod (modulus 5) (2 ^ 63) = 478150656.
Proof.
  apply (reduce_is_remainder 5 (config 5) (2 ^ 70 + 2 ^ 62 + 5) (2 ^ 40)).
  - apply config_active. lia.
  - simpl. lia.
  - simpl. lia.
  - right. reflexivity.
  - right. reflexivity.
Defined.

(** * Reconfiguration *)

(** X29: the configuration reached by [init_extension_field] depends
    only on the [lambda] of the instance, not on the configuration before
    the call: configuring for a second instance after a first one gives
    the same configuration as configuring for the second one directly,
    and configuring twice for the same [lambda] changes nothing. *)
Theorem init_extension_field_overrides (i1 i2 : banquet_instance_t)
    (st0 : field_state) :
  wf_state st0 ->
  lambda i1 = 4 \/ lambda i1 = 5 \/ lambda i1 = 6 ->
  lambda i2 = 4 \/ lambda i2 = 5 \/ lambda i2 = 6 ->
  exists st1 st2,
    init_extension_field i1 st0 = Ok st1
    /\ init_extension_field i2 st1 = Ok st2
    /\ init_extension_field i2 st0 = Ok st2
    /\ wf_state st2
    /\ (lambda i1 = lambda i2 -> st2 = st1).
Proof.
  intros Hwf H1 H2.
  exists (config (lambda i1)), (config (lambda i2)).
  split; [by apply init_extension_field_ok|].
  split; [apply init_extension_field_ok; [by apply lift_table_length|done]|].
  split; [by apply init_extension_field_ok|].
  split; [by apply lift_table_length|].
  by intros ->.
Qed.

Lemma init_extension_field_overrides_witness :
  exists st1 st2,
    init_extension_field
      (mk_instance AES128_PARAMS 32 16 31 64 10 20 4 Banquet_L1_Param1)
      initial_state = Ok st1
    /\ init_extension_field
         (mk_instance AES128_PARAMS 32 16 27 64 10 20 6 Banquet_L1_Param4)
         st1 = Ok st2
    /\ init_extension_field
         (mk_instance AES128_PARAMS 32 16 27 64 10 20 6 Banquet_L1_Param4)
         initial_state = Ok st2
    /\ wf_state st2
    /\ (lambda (mk_instance AES128_PARAMS 32 16 31 64 10 20 4 Banquet_L1_Param1)
        = lambda (mk_instance AES128_PARAMS 32 16 27 64 10 20 6 Banquet_L1_Param4)
        -> st2 = st1).
Proof.
  apply (init_extension_field_overrides
           (mk_instance AES128_PARAMS 32 16 31 64 10 20 4 Banquet_L1_Param1)
           (mk_instance AES128_PARAMS 32 16 27 64 10 20 6 Banquet_L1_Param4)
           initial_state).
  - reflexivity.
  - left. reflexivity.
  - right. right. reflexivity.
Defined.

(** * The number of roots of a polynomial *)

(** X30: under the active configuration of [lambda = 4] a polynomial
    with no more coefficients than the number of pairwise distinct points
    given, and with some non-zero coefficient, does not evaluate to zero
    at all of these points; hence two different coefficient vectors of the
    same length [m] differ in their value at one of [m] distinct points at
    least. *)
Theorem eval_roots_bound (lam : Z) (st : field_state) (points p q : list Z) :
  active lam st -> lam = 4 -> NoDup points ->
  Forall (fits st) points -> Forall (fits st) p -> Forall (fits st) q ->
  (length p <= length points)%nat -> length q = length p ->
  (p <> replicate (length p) 0 ->
   exists x, x ∈ points /\ eval st p x <> 0)
  /\ (p <> q -> exists x, x ∈ points /\ eval st p x <> eval st q x).
Proof.
  intros Hact Hl4 Hnd Hxs Hp Hq Hlen Hlq.
  destruct (active_config lam st Hact) as [Hlam ->].
  rewrite (config_field_of lam Hl4) in *.
  assert (forall r : list Z,
            Forall (fits (field_of lam)) r ->
            (length r <= length points)%nat ->
            r <> replicate (length r) 0 ->
            exists x, x ∈ points /\ horner (field_of lam) r x <> 0) as Hex.
  { intros r Hr Hlr Hnz.
    destruct (decide (Forall (fun x => horner (field_of lam) r x = 0) points))
      as [Hall|Hnall].
    - exfalso. apply Hnz.
      apply (vanishing_polynomial lam Hlam points); [done..|].
      intros x Hx. rewrite Forall_forall in Hall. by apply Hall.
    - apply not_Forall_Exists in Hnall; [|intros x; apply _].
      apply Exists_exists in Hnall as (x & Hx & Hne). by exists x. }
  split.
  - intros Hnz. destruct (Hex p Hp Hlen Hnz) as (x & Hx & Hne).
    exists x. split; [done|]. by rewrite eval_horner.
  - intros Hpq.
    destruct (Hex (zip_with Z.lxor p q)) as (x & Hx & Hne).
    + by apply zip_lxor_fits.
    + rewrite length_zip_with. lia.
    + intros Hz. apply Hpq. apply zip_lxor_zero; [done|].
      rewrite Hz, length_zip_with. f_equal. lia.
    + exists x. split; [done|]. intros Heq. apply Hne.
      assert (fits (field_of lam) x) as Hfx
        by (rewrite Forall_forall in Hxs; by apply Hxs).
      rewrite horner_zip_lxor by done.
      rewrite <- !eval_horner, Heq. apply Z.lxor_nilpotent.
Qed.

Lemma eval_roots_bound_witness :
  (exists x, x ∈ [1; 2; 2 ^ 31] /\ eval (config 4) [6; 7; 1] x <> 0)
  /\ (exists x, x ∈ [1; 2; 2 ^ 31]
                /\ eval (config 4) [6; 7; 1] x <> eval (config 4) [6; 5; 1] x).
Proof.
  destruct (eval_roots_bound 4 (config 4) [1; 2; 2 ^ 31] [6; 7; 1] [6; 5; 1])
    as [Hzero Hdiff].
  - apply config_active. lia.
  - reflexivity.
  - repeat constructor; rewrite ?elem_of_cons, ?elem_of_nil; intuition lia.
  - repeat constructor; unfold fits; simpl; lia.
  - repeat constructor; unfold fits; simpl; lia.
  - repeat constructor; unfold fits; simpl; lia.
  - simpl. lia.
  - reflexivity.
  - split; [apply Hzero|apply Hdiff]; discriminate.
Defined.
